(** * OpenTESArena: the asset decoders of [MiscAssets.cpp]

    A shallow embedding of the parsers and of the NPC name generator of
    [src/Assets/MiscAssets.cpp], with the properties their specification
    states about them.

    Conventions of the embedding:
    - [std::string] is [string]; a [char] is an [ascii];
    - [size_t] is [N], with the wrap-around modulo [2^64] written out where
      the code can reach it;
    - [uint8_t] values are [Z] in [0, 256) or [byte]s of a buffer;
    - a C++ exception, and an operation whose behaviour C++ leaves
      undefined, end the computation: [result] records which one;
    - [std::unordered_map<std::string, std::string>] is a [gmap string string];
    - a loop over the lines of a text is a fold of its body over the lines
      [std::getline] yields. *)

From Stdlib Require Import ZArith NArith Ascii String List Lia Floats Uint63.
From Stdlib Require Import DecimalString.
From Stdlib.Strings Require Byte.
From stdpp Require Import base option list gmap strings.

Local Open Scope string_scope.
Local Open Scope list_scope.
Local Open Scope Z_scope.

(** ** Exceptions and undefined behaviour *)

Inductive exn : Type :=
| OutOfRange                     (* std::out_of_range, thrown by at() *)
| InvalidArgument                (* std::invalid_argument, thrown by std::stoi *)
| RuntimeError (msg : string)    (* std::runtime_error *)
| Undefined (what : string).     (* behaviour the C++ standard leaves undefined *)

Inductive result (A : Type) : Type :=
| Ok (a : A)
| Throw (e : exn).

Arguments Ok {A} a.
Arguments Throw {A} e.

(** [result] is an error monad; stdpp's [x ← m; k] sequences it. *)
#[global] Instance result_ret : MRet result := λ A a, Ok a.
#[global] Instance result_bind : MBind result :=
  λ A B k m, match m with
             | Ok a => k a
             | Throw e => Throw e
             end.

(** ** [std::string] *)

Module Str.

Definition size (s : string) : N := N.of_nat (String.length s).

(** [size_t] arithmetic wraps modulo [2^64]. *)
Definition size_t_modulus : N := 2 ^ 64.
Definition npos : N := size_t_modulus - 1.
Definition size_add (a b : N) : N := ((a + b) mod size_t_modulus)%N.

(** [s.at(i)]: the character, or [std::out_of_range]. *)
Definition at_ (s : string) (i : N) : result ascii :=
  match String.get (N.to_nat i) s with
  | Some c => Ok c
  | None => Throw OutOfRange
  end.

(** [s.find(needle)]: the first position of [needle], or [npos]. *)
Definition find (needle s : string) : N :=
  match String.index 0 needle s with
  | Some n => N.of_nat n
  | None => npos
  end.

(** [s.find(c)] for a single character. *)
Fixpoint find_char (c : ascii) (s : string) : option nat :=
  match s with
  | EmptyString => None
  | String a s' =>
      if Ascii.eqb a c then Some 0%nat
      else match find_char c s' with
           | Some n => Some (S n)
           | None => None
           end
  end.

(** [s.back()] and [s.pop_back()]; both are undefined on an empty string,
    which callers have to rule out, to report or to account for. *)
Fixpoint back (s : string) : option ascii :=
  match s with
  | EmptyString => None
  | String a EmptyString => Some a
  | String _ s' => back s'
  end.

Fixpoint pop_back (s : string) : string :=
  match s with
  | EmptyString => EmptyString
  | String _ EmptyString => EmptyString
  | String a s' => String a (pop_back s')
  end.

Definition ends_with (c : ascii) (s : string) : bool :=
  match back s with
  | Some a => Ascii.eqb a c
  | None => false
  end.

(** [std::to_string] of a non-negative integer. *)
Definition to_string (n : Z) : string :=
  NilEmpty.string_of_uint (N.to_uint (Z.to_N n)).

Definition dquote : string := String (ascii_of_nat 34) EmptyString.

End Str.

Definition LF : ascii := ascii_of_nat 10.
Definition CR : ascii := ascii_of_nat 13.

(** ** [std::getline]

  The lines a loop [while (std::getline(stream, line))] sees: the text is
  cut at every line feed, the line feeds are dropped, and characters after
  the last line feed form a final line when there are any. A text that ends
  in a line feed has no empty line after it. *)

Fixpoint getlines_aux (cur : string) (text : string) : list string :=
match text with
| EmptyString =>
    match cur with
    | EmptyString => []
    | _ => [String.rev cur]
    end
| String c text' =>
    if Ascii.eqb c LF then String.rev cur :: getlines_aux EmptyString text'
    else getlines_aux (String c cur) text'
end.

Definition getlines (text : string) : list string := getlines_aux EmptyString text.

(** ** Loops over lines

    The body of a [while (std::getline(...))] loop is a function from the
    loop's variables and the line to the variables after the iteration; an
    exception leaves the loop. *)

Fixpoint fold_lines {S : Type} (body : S → string → result S)
    (st : S) (lines : list string) : result S :=
  match lines with
  | [] => Ok st
  | line :: lines' => st' ← body st line; fold_lines body st' lines'
  end.

(** ** [Utilities/String.h]

    [String::replace], [String::trim] and [String::trimLines] are declared
    in a header whose implementation is not among the sources. The parsers
    take them as an interface; what is proved for every implementation does
    not depend on them. *)

Class StringUtilities : Type := {
  String_replace : string → ascii → ascii → string;
  String_trim : string → string;
  String_trimLines : string → string
}.

(** [Entities/CharacterClassCategoryName.h] *)
Inductive CharacterClassCategoryName : Type := Mage | Thief | Warrior.

(** ** The character class table ([MiscAssets::parseClasses]) *)

Module Classes.

Inductive ArmorMaterialType : Type := Leather | Chain | Plate.

(** The [allowedArmors] lambda, as a function of the one-digit value it
    reads from the executable's table. *)
Definition allowedArmors (value : Z) : result (list ArmorMaterialType) :=
  if value =? 0 then Ok [Leather; Chain; Plate]
  else if value =? 1 then Ok [Leather; Chain]
  else if value =? 2 then Ok [Leather]
  else if value =? 3 then Ok []
  else Throw (RuntimeError
                ("Bad allowed armors value " +:+ Str.dquote +:+
                 Str.to_string value +:+ Str.dquote +:+ ".")).

(** The [lockpicking] lambda, as a function of the class's divisor (a
    [uint8_t]): [static_cast<double>(200 / divisor) / 100.0]. The quotient
    is C++ integer division, which truncates and is undefined for a zero
    divisor; the conversion and the final division are IEEE binary64. *)
Definition int_to_double (n : Z) : float :=
  PrimFloat.of_uint63 (Uint63.of_Z n).

Definition lockpicking (divisor : Z) : result float :=
  if divisor =? 0 then Throw (Undefined "integer division by zero")
  else Ok (PrimFloat.div (int_to_double (Z.quot 200 divisor))
                         (int_to_double 100)).

(** The category of a class is chosen by its ordinal. *)
Definition categoryName (i : Z) : CharacterClassCategoryName :=
  if i <? 6 then Mage else if i <? 12 then Thief else Warrior.

End Classes.

(** ** TEMPLATE.DAT ([MiscAssets::parseTemplateDat]) *)

Module TemplateDat.

(** The loop's variables [key] and [value], and the member [templateDat]. *)
Record state : Type := mkState {
  key : string;
  value : string;
  templateDat : gmap string string
}.

Definition initial : state :=
  {| key := ""; value := ""; templateDat := ∅ |}.

(** [while ((value.size() > 0) && (value.back() == '\n')) value.pop_back();]
    Every iteration shortens [value], so [fuel] iterations are enough when
    [fuel] is the length of [value]. *)
Fixpoint pop_newlines (fuel : nat) (value : string) : string :=
  match fuel with
  | O => value
  | S fuel' =>
      if (0 <? Str.size value)%N && Str.ends_with LF value
      then pop_newlines fuel' (Str.pop_back value)
      else value
  end.

(** The clean-up of a value before it is stored. *)
Definition cleanup `{StringUtilities} (value : string) : string :=
  let value := String_replace value CR LF in
  let value := pop_newlines (String.length value) value in
  if (0 <? Str.size value)%N && Str.ends_with "&" value
  then Str.pop_back value
  else value.

(** The loop body. [line.at(0)] throws on an empty line. *)
Definition body `{StringUtilities} (st : state) (line : string) : result state :=
  c ← Str.at_ line 0;
  if Ascii.eqb c "#" then
    let table :=
      match templateDat st !! key st with
      | None => <[key st := cleanup (value st)]> (templateDat st)
      | Some _ => templateDat st
      end in
    Ok {| key := String_trim (String_trimLines line);
          value := "";
          templateDat := table |}
  else
    Ok {| key := key st;
          value := value st +:+ line;
          templateDat := templateDat st |}.

(** The whole function on the text of the file: the loop, then
    [templateDat.erase("")]. *)
Definition parseTemplateDat `{StringUtilities} (text : string)
    : result (gmap string string) :=
  st ← fold_lines body initial (getlines text);
  Ok (delete "" (templateDat st)).

(** *** Specification *)

(** [n] line feeds. *)
Fixpoint line_feeds (n : nat) : string :=
  match n with
  | O => ""
  | S n' => line_feeds n' +:+ String LF ""
  end.

(** The text of a paragraph: its lines, appended one after the other. *)
Definition paragraph_text (paragraph : list string) : string :=
  foldl String.append "" paragraph.

(** What the clean-up makes of a text [raw]. With its carriage returns
    replaced, [raw] is the value [v], then the ampersand that was removed if
    one was, then the line feeds that were removed. All the line feeds at
    the end were removed (what is kept does not end in one), and an
    ampersand was removed if there was one (a value from which none was
    removed does not end in one). *)
Definition cleaned `{StringUtilities} (raw v : string) : Prop :=
  ∃ (ampersand : bool) (n : nat),
    String_replace raw CR LF
      = (v +:+ (if ampersand then "&" else "")) +:+ line_feeds n ∧
    Str.ends_with LF (v +:+ (if ampersand then "&" else "")) = false ∧
    (ampersand = false → Str.ends_with "&" v = false).

(** The key that a line which starts with [#] gives. *)
Definition key_of `{StringUtilities} (line : string) : string :=
  String_trim (String_trimLines line).

(** The value [v] of the key [k] comes from the lines of a text: from the
    first line that starts with [#] and gives the key, and from the
    paragraph between this line and the next line that starts with [#],
    whose text is cleaned into [v]. *)
Definition stored_from `{StringUtilities} (lines : list string) (k v : string)
    : Prop :=
  ∃ (before : list string) (line : string) (paragraph : list string)
    (next : string) (after : list string),
    lines = before ++ line :: paragraph ++ next :: after ∧
    Forall (λ l, String.get 0 l = Some "#"%char → key_of l ≠ k) before ∧
    String.get 0 line = Some "#"%char ∧
    k = key_of line ∧
    Forall (λ l, String.get 0 l ≠ Some "#"%char) paragraph ∧
    String.get 0 next = Some "#"%char ∧
    cleaned (paragraph_text paragraph) v.

(** The loop's variables after the lines [lines]: [value] is the text of
    the paragraph in progress, [key] comes from the line before it (it is
    empty when there is none), and the keys of the lines before that one are
    in the table. *)
Definition pending `{StringUtilities} (lines : list string) (st : state) : Prop :=
  ∃ (before current paragraph : list string),
    lines = before ++ current ++ paragraph ∧
    Forall (λ l, String.get 0 l ≠ Some "#"%char) paragraph ∧
    value st = paragraph_text paragraph ∧
    ((current = [] ∧ key st = "") ∨
     (∃ line, current = [line] ∧ String.get 0 line = Some "#"%char ∧
              key st = key_of line)) ∧
    Forall (λ l, String.get 0 l = Some "#"%char → key_of l ≠ "" →
                 is_Some (templateDat st !! key_of l)) before.

(** Every value of the table, but that of the empty key, comes from the
    lines. *)
Definition table_from `{StringUtilities} (lines : list string) (st : state) : Prop :=
  ∀ k v, k ≠ "" → templateDat st !! k = Some v → stored_from lines k v.

End TemplateDat.

(** ** DUNGEON.TXT ([MiscAssets::parseDungeonTxt]) *)

Module DungeonTxt.

Record state : Type := mkState {
  title : string;
  description : string;
  dungeonTxt : list (string * string)
}.

Definition initial : state :=
  {| title := ""; description := ""; dungeonTxt := [] |}.

(** [s.replace(pos, 1, repl)] for a position inside [s]. *)
Definition replace1 (s : string) (pos : nat) (repl : string) : string :=
  String.substring 0 pos s +:+ repl +:+
  String.substring (S pos) (String.length s - S pos) s.

(** The loop body. The code calls [description.back()] without a check. On
    an empty description the call is outside the contract of [back()]; with
    the standard libraries in use it reads the byte in front of the
    characters, which is no line feed, so that nothing is popped and the
    empty description is stored with the title. *)
Definition body (st : state) (line : string) : result state :=
  c ← Str.at_ line 0;
  if Ascii.eqb c "#" then
    let description :=
      match Str.back (description st) with
      | Some last =>
          if Ascii.eqb last LF then Str.pop_back (description st)
          else description st
      | None => description st
      end in
    Ok {| title := "";
          description := "";
          dungeonTxt := dungeonTxt st ++ [(title st, description)] |}
  else if String.eqb (title st) "" then
    let title := line in
    let title :=
      match Str.find_char CR title with
      | Some titleCarriageReturn => replace1 title titleCarriageReturn ""
      | None => title
      end in
    Ok {| title := title;
          description := description st;
          dungeonTxt := dungeonTxt st |}
  else
    let description := description st +:+ line in
    let description :=
      match Str.find_char CR description with
      | Some descriptionCarriageReturn =>
          replace1 description descriptionCarriageReturn (String LF "")
      | None => description
      end in
    Ok {| title := title st;
          description := description;
          dungeonTxt := dungeonTxt st |}.

Definition parseDungeonTxt (text : string) : result (list (string * string)) :=
  st ← fold_lines body initial (getlines text);
  Ok (dungeonTxt st).

End DungeonTxt.

(** ** QUESTION.TXT ([MiscAssets::parseQuestionTxt]) *)

Module QuestionTxt.

(** The [getCategory] lambda. [choice.find("(5")] is a [size_t]; adding 2
    to it is arithmetic modulo [2^64], also when it is [npos] (with a
    [size_t] of 32 bits the sum wraps to the same value, 1). *)
Definition getCategory (choice : string) : result CharacterClassCategoryName :=
  categoryChar ← Str.at_ choice (Str.size_add (Str.find "(5" choice) 2);
  if Ascii.eqb categoryChar "l" then Ok Mage
  else if Ascii.eqb categoryChar "c" then Ok Thief
  else if Ascii.eqb categoryChar "v" then Ok Warrior
  else Throw (RuntimeError "Bad QUESTION.TXT class category.").

Record CharacterQuestion : Type := mkQuestion {
  q_description : string;
  q_a : string * CharacterClassCategoryName;
  q_b : string * CharacterClassCategoryName;
  q_c : string * CharacterClassCategoryName
}.

(** The [addQuestion] lambda: [questionTxt.push_back(...)]. The three
    categories are computed before the question is built; when more than
    one of them throws, which exception surfaces depends on the compiler's
    order of evaluation (here: a, b, c). *)
Definition addQuestion (questionTxt : list CharacterQuestion)
    (description a b c : string) : result (list CharacterQuestion) :=
  ca ← getCategory a;
  cb ← getCategory b;
  cc ← getCategory c;
  Ok (questionTxt ++ [mkQuestion description (a, ca) (b, cb) (c, cc)]).

Inductive Mode : Type := Description | A | B | C.

Definition Mode_eqb (m1 m2 : Mode) : bool :=
  match m1, m2 with
  | Description, Description | A, A | B, B | C, C => true
  | _, _ => false
  end.

Record state : Type := mkState {
  mode : Mode;
  description : string;
  a : string;
  b : string;
  c : string;
  questionTxt : list CharacterQuestion
}.

Definition initial : state :=
  {| mode := Description; description := ""; a := ""; b := ""; c := "";
     questionTxt := [] |}.

(** [std::isalpha] and [std::isdigit] in the "C" locale. *)
Definition isalpha (ch : ascii) : bool :=
  let n := nat_of_ascii ch in
  ((65 <=? n)%nat && (n <=? 90)%nat) || ((97 <=? n)%nat && (n <=? 122)%nat).

Definition isdigit (ch : ascii) : bool :=
  let n := nat_of_ascii ch in (48 <=? n)%nat && (n <=? 57)%nat.

(** First half of the loop body: the mode switch, and the flush of the
    previous question on a digit. *)
Definition switch (st : state) (ch : ascii) : result state :=
  if isalpha ch then
    let mode :=
      if Ascii.eqb ch "a" then A
      else if Ascii.eqb ch "b" then B
      else if Ascii.eqb ch "c" then C
      else mode st in
    Ok {| mode := mode; description := description st;
          a := a st; b := b st; c := c st; questionTxt := questionTxt st |}
  else if isdigit ch then
    if negb (Mode_eqb (mode st) Description) then
      questions ← addQuestion (questionTxt st) (description st) (a st) (b st) (c st);
      Ok {| mode := Description; description := ""; a := ""; b := ""; c := "";
            questionTxt := questions |}
    else
      Ok {| mode := Description; description := description st;
            a := a st; b := b st; c := c st; questionTxt := questionTxt st |}
  else Ok st.

(** Second half: the line, with its line feed back, goes to the string of
    the current mode. *)
Definition append (st : state) (line : string) : state :=
  let line := line +:+ String LF "" in
  match mode st with
  | Description =>
      {| mode := mode st; description := description st +:+ line;
         a := a st; b := b st; c := c st; questionTxt := questionTxt st |}
  | A =>
      {| mode := mode st; description := description st;
         a := a st +:+ line; b := b st; c := c st; questionTxt := questionTxt st |}
  | B =>
      {| mode := mode st; description := description st;
         a := a st; b := b st +:+ line; c := c st; questionTxt := questionTxt st |}
  | C =>
      {| mode := mode st; description := description st;
         a := a st; b := b st; c := c st +:+ line; questionTxt := questionTxt st |}
  end.

Definition body (st : state) (line : string) : result state :=
  ch ← Str.at_ line 0;
  st' ← switch st ch;
  Ok (append st' line).

(** The loop, then the last question: [addQuestion(description, a, b, c)]. *)
Definition parseQuestionTxt (text : string) : result (list CharacterQuestion) :=
  st ← fold_lines body initial (getlines text);
  addQuestion (questionTxt st) (description st) (a st) (b st) (c st).

End QuestionTxt.

(** ** SPELLMKR.TXT ([MiscAssets::parseSpellMakerDescriptions]) *)

Module SpellMaker.

(** [std::stoi] in base 10: blanks are skipped, one sign is read, then the
    digits up to the first other character. No digit: [std::invalid_argument];
    a value outside [int]: [std::out_of_range]. *)
Definition isspace (ch : ascii) : bool :=
  let n := nat_of_ascii ch in
  (n =? 32)%nat || ((9 <=? n)%nat && (n <=? 13)%nat).

Fixpoint skip_spaces (s : string) : string :=
  match s with
  | String ch s' => if isspace ch then skip_spaces s' else s
  | EmptyString => s
  end.

Definition digit_value (ch : ascii) : option Z :=
  let n := nat_of_ascii ch in
  if (48 <=? n)%nat && (n <=? 57)%nat then Some (Z.of_nat n - 48) else None.

Fixpoint read_digits (acc : option Z) (s : string) : option Z :=
  match s with
  | String ch s' =>
      match digit_value ch with
      | Some d => read_digits (Some (10 * default 0 acc + d)) s'
      | None => acc
      end
  | EmptyString => acc
  end.

Definition stoi (s : string) : result Z :=
  let s := skip_spaces s in
  let '(sign, digits) :=
    match s with
    | String "-" s' => (-1, s')
    | String "+" s' => (1, s')
    | _ => (1, s)
    end in
  match read_digits None digits with
  | None => Throw InvalidArgument
  | Some n =>
      let v := sign * n in
      if (- 2 ^ 31 <=? v) && (v <? 2 ^ 31) then Ok v else Throw OutOfRange
  end.

(** The local [State]: the index of the block being read and its text. *)
Record State : Type := mkState {
  index : Z;
  str : string
}.

(** [std::array<std::string, 43>]: 43 strings, empty at first. *)
Definition DESCRIPTION_COUNT : Z := 43.

Definition empty_descriptions : list string :=
  replicate (Z.to_nat DESCRIPTION_COUNT) "".

(** [spellMakerDescriptions.at(i) = s]: the [int] index becomes a [size_t],
    so a negative one is out of range as well. *)
Definition set_at (descriptions : list string) (i : Z) (s : string)
    : result (list string) :=
  if (0 <=? i) && (i <? DESCRIPTION_COUNT)
  then Ok (<[Z.to_nat i := s]> descriptions)
  else Throw OutOfRange.

(** The loop's variables: [state] (a [unique_ptr], [None] when null) and
    the member array. *)
Definition vars : Type := option State * list string.

(** What an iteration does to the loop: go on, or [break]. *)
Inductive flow : Type :=
| Continue (v : vars)
| Break (v : vars).

Definition body (v : vars) (line : string) : result flow :=
  let '(state, descriptions) := v in
  if (0 <? Str.size line)%N then
    firstChar ← Str.at_ line 0;
    if Ascii.eqb firstChar "#" then
      (* Flush any existing state. *)
      descriptions ←
        match state with
        | Some st => set_at descriptions (index st) (str st)
        | None => Ok descriptions
        end;
      let containsIndex := (3 <=? Str.size line)%N in
      if containsIndex then
        index ← stoi (String.substring 1 2 line);
        Ok (Continue (Some (mkState index ""), descriptions))
      else
        Ok (Break (None, descriptions))
    else
      match state with
      | Some st =>
          Ok (Continue (Some (mkState (index st) (str st +:+ line)), descriptions))
      | None => Throw (Undefined "dereference of a null unique_ptr")
      end
  else Ok (Continue v).

Fixpoint loop (v : vars) (lines : list string) : result vars :=
  match lines with
  | [] => Ok v
  | line :: lines' =>
      f ← body v line;
      match f with
      | Continue v' => loop v' lines'
      | Break v' => Ok v'
      end
  end.

Definition parseSpellMakerDescriptions (text : string) : result (list string) :=
  v ← loop (None, empty_descriptions) (getlines text);
  Ok v.2.

End SpellMaker.

(** ** NAMECHNK.DAT ([MiscAssets::parseNameChunks]) *)

Module NameChunks.

(** A read through a pointer into [srcData]. Past the end of the buffer
    the read is undefined behaviour. *)
Definition read_u8 (srcData : list Byte.byte) (i : N) : result Z :=
  match srcData !! N.to_nat i with
  | Some b => Ok (Z.of_N (Byte.to_N b))
  | None => Throw (Undefined "read past the end of the buffer")
  end.

(** Modelled from the spec: [Bytes::getLE16] of [Utilities/Bytes.h], which is
    not among the sources: a 16-bit little-endian read. *)
Definition getLE16 (srcData : list Byte.byte) (i : N) : result Z :=
  lo ← read_u8 srcData i;
  hi ← read_u8 srcData (i + 1);
  Ok (Z.lor lo (Z.shiftl hi 8)).

(** [std::string(stringPtr)]: the characters up to the first NUL. *)
Fixpoint c_string (bytes : list Byte.byte) : result string :=
  match bytes with
  | [] => Throw (Undefined "read past the end of the buffer")
  | b :: bytes' =>
      if (Byte.to_N b =? 0)%N then Ok ""
      else s ← c_string bytes'; Ok (String (ascii_of_byte b) s)
  end.

Definition string_at (srcData : list Byte.byte) (i : N) : result string :=
  c_string (drop (N.to_nat i) srcData).

(** The inner [for] loop: [stringCount] strings, one after the other, from
    [chunkPtr + stringOffset]. *)
Fixpoint read_strings (srcData : list Byte.byte) (chunk stringOffset : N)
    (stringCount : nat) (strings : list string) : result (list string) :=
  match stringCount with
  | O => Ok strings
  | S n =>
      s ← string_at srcData (chunk + stringOffset);
      read_strings srcData chunk (stringOffset + Str.size s + 1) n (strings ++ [s])
  end.

(** The loop's variable [offset] and the member [nameChunks]. *)
Record state : Type := mkState {
  offset : N;
  nameChunks : list (list string)
}.

Definition initial : state := {| offset := 0; nameChunks := [] |}.

(** One iteration of the [while] loop. [offset + chunkLength] cannot wrap:
    [offset] is below the size of a buffer in memory and [chunkLength] is
    below [2^16]. *)
Definition body (srcData : list Byte.byte) (st : state) : result state :=
  chunkLength ← getLE16 srcData (offset st);
  stringCount ← read_u8 srcData (offset st + 2);
  strings ← read_strings srcData (offset st) 3 (Z.to_nat stringCount) [];
  Ok {| offset := offset st + Z.to_N chunkLength;
        nameChunks := nameChunks st ++ [strings] |}.

(** The loop condition. *)
Definition running (srcData : list Byte.byte) (st : state) : bool :=
  (offset st <? N.of_nat (length srcData))%N.

(** The loop, run for at most [fuel] iterations. *)
Inductive outcome : Type :=
| Finished (st : state)      (* the condition became false *)
| Faulted (e : exn)          (* an iteration left the loop *)
| Unfinished (st : state).   (* still running after [fuel] iterations *)

Fixpoint loop (fuel : nat) (srcData : list Byte.byte) (st : state) : outcome :=
  if running srcData st then
    match fuel with
    | O => Unfinished st
    | S fuel' =>
        match body srcData st with
        | Ok st' => loop fuel' srcData st'
        | Throw e => Faulted e
        end
    end
  else Finished st.

Definition parseNameChunks (fuel : nat) (srcData : list Byte.byte) : outcome :=
  loop fuel srcData initial.

Definition terminates (o : outcome) : bool :=
  match o with
  | Unfinished _ => false
  | _ => true
  end.

(** *** Specification *)

(** The only way an iteration fails. *)
Definition past_the_end : exn := Undefined "read past the end of the buffer".

(** The cursor positions the loop can come to. *)
Inductive reached (srcData : list Byte.byte) : N → Prop :=
| reached_start : reached srcData 0
| reached_next (o : N) (chunkLength : Z) :
    reached srcData o →
    (o < N.of_nat (length srcData))%N →
    getLE16 srcData o = Ok chunkLength →
    reached srcData (o + Z.to_N chunkLength).

(** How the loop may end: with the cursor at or past the end of the
    buffer, or in a read past the end of the buffer. *)
Definition ended (srcData : list Byte.byte) (o : outcome) : Prop :=
  match o with
  | Finished st => (N.of_nat (length srcData) ≤ offset st)%N
  | Faulted e => e = past_the_end
  | Unfinished _ => False
  end.

(** One record of ten bytes: length 10, two strings [ab] and [c], and two
    bytes of padding. *)
Definition ten_bytes : list Byte.byte :=
  [Byte.x0a; Byte.x00; Byte.x02;
   Byte.x61; Byte.x62; Byte.x00;
   Byte.x63; Byte.x00;
   Byte.x00; Byte.x00].

End NameChunks.

(** ** NPC names ([MiscAssets::generateNpcName]) *)

Module NameGen.

(** The discriminated union [NameRule]. The text of a rule is the content of
    its [std::array<char, 4>] read as a C string; the rules of the table
    hold at most three characters. *)
Inductive NameRule : Type :=
| Index (index : Z)
| String_ (str : string)
| IndexChance (index chance : Z)
| IndexStringChance (index : Z) (str : string) (chance : Z).

(** The table [NameRules]: two rule lists (male, female) per race. *)
Definition NameRules : list (list NameRule) := [
  (* Race 0. *)
  [Index 0; Index 1; String_ " "; Index 4; Index 5];
  [Index 2; Index 3; String_ " "; Index 4; Index 5];
  (* Race 1. *)
  [Index 6; Index 7; Index 8; IndexChance 9 75];
  [Index 6; Index 7; Index 8; IndexChance 9 75; Index 10];
  (* Race 2. *)
  [Index 11; Index 12; String_ " "; Index 15; Index 16; String_ "sen"];
  [Index 13; Index 14; String_ " "; Index 15; Index 16; String_ "sen"];
  (* Race 3. *)
  [Index 17; Index 18; String_ " "; Index 21; Index 22];
  [Index 19; Index 20; String_ " "; Index 21; Index 22];
  (* Race 4. *)
  [Index 23; Index 24; String_ " "; Index 27; Index 28];
  [Index 25; Index 26; String_ " "; Index 27; Index 28];
  (* Race 5. *)
  [Index 29; Index 30; String_ " "; Index 33; Index 34];
  [Index 31; Index 32; String_ " "; Index 33; Index 34];
  (* Race 6. *)
  [Index 35; Index 36; String_ " "; Index 39; Index 40];
  [Index 37; Index 38; String_ " "; Index 39; Index 40];
  (* Race 7. *)
  [Index 41; Index 42; String_ " "; Index 45; Index 46];
  [Index 43; Index 44; String_ " "; Index 45; Index 46];
  (* Race 8. *)
  [Index 47; IndexChance 48 75; Index 49];
  [Index 47; IndexChance 48 75; Index 49];
  (* Race 9. *)
  [Index 47; IndexChance 48 75; Index 49];
  [Index 47; IndexChance 48 75; Index 49];
  (* Race 10. *)
  [Index 47; IndexChance 48 75; Index 49];
  [Index 47; IndexChance 48 75; Index 49];
  (* Race 11. *)
  [Index 47; IndexChance 48 75; Index 49];
  [Index 47; IndexChance 48 75; Index 49];
  (* Race 12. *)
  [Index 47; IndexChance 48 75; Index 49];
  [Index 47; IndexChance 48 75; Index 49];
  (* Race 13. *)
  [Index 47; IndexChance 48 75; Index 49];
  [Index 47; IndexChance 48 75; Index 49];
  (* Race 14. *)
  [Index 47; IndexChance 48 75; Index 49];
  [Index 47; IndexChance 48 75; Index 49];
  (* Race 15. *)
  [Index 47; IndexChance 48 75; Index 49];
  [Index 47; IndexChance 48 75; Index 49];
  (* Race 16. *)
  [Index 47; IndexChance 48 75; Index 49];
  [Index 47; IndexChance 48 75; Index 49];
  (* Race 17. *)
  [Index 50; IndexChance 51 75; Index 52];
  [Index 50; IndexChance 51 75; Index 52];
  (* Race 18. *)
  [Index 50; IndexChance 51 75; Index 52];
  [Index 50; IndexChance 51 75; Index 52];
  (* Race 19. *)
  [Index 50; IndexChance 51 75; Index 52];
  [Index 50; IndexChance 51 75; Index 52];
  (* Race 20. *)
  [Index 50; IndexChance 51 75; Index 52];
  [Index 50; IndexChance 51 75; Index 52];
  (* Race 21. *)
  [Index 50; Index 52; Index 53];
  [Index 50; Index 52; Index 53];
  (* Race 22. *)
  [IndexStringChance 54 " " 25; Index 55; Index 56; Index 57];
  [IndexStringChance 54 " " 25; Index 55; Index 56; Index 57];
  (* Race 23. *)
  [Index 55; Index 56; Index 57];
  [Index 55; Index 56; Index 57]
].

(** [v.at(i)] with an [int] index. *)
Definition vector_at {A : Type} (v : list A) (i : Z) : result A :=
  if i <? 0 then Throw OutOfRange
  else match v !! Z.to_nat i with
       | Some x => Ok x
       | None => Throw OutOfRange
       end.

(** The generator [ArenaRandom] ([Math/Random.h], not among the sources) is
    seen through the values its successive calls of [next()] return:
    [draws k] is the value of call number [k], an unsigned integer, and the
    state of the generator is the number of calls made so far. On such
    values [%] is the remainder of the naturals; the comparison with a
    rule's chance is that of the integers (the chances of the table are 25
    and 75). *)
Definition generator : Type := nat → N.

(** [chunkList.at(r % static_cast<int>(chunkList.size()))]; the remainder
    by zero of an empty list is undefined behaviour. *)
Definition sample (chunkList : list string) (r : N) : result string :=
  if (length chunkList =? 0)%nat then Throw (Undefined "remainder by zero")
  else vector_at chunkList (Z.of_N r mod Z.of_nat (length chunkList)).

(** The loop's variable [name] and the generator's state. *)
Definition state : Type := (string * nat)%type.

(** The loop body for one rule. *)
Definition body (nameChunks : list (list string)) (draws : generator)
    (st : state) (rule : NameRule) : result state :=
  let '(name, calls) := st in
  match rule with
  | Index index =>
      chunkList ← vector_at nameChunks index;
      s ← sample chunkList (draws calls);
      Ok (name +:+ s, S calls)
  | String_ str =>
      Ok (name +:+ str, calls)
  | IndexChance index chance =>
      chunkList ← vector_at nameChunks index;
      if Z.of_N (draws calls mod 100) <=? chance then
        s ← sample chunkList (draws (S calls));
        Ok (name +:+ s, S (S calls))
      else Ok (name, S calls)
  | IndexStringChance index str chance =>
      chunkList ← vector_at nameChunks index;
      if Z.of_N (draws calls mod 100) <=? chance then
        s ← sample chunkList (draws (S calls));
        Ok (name +:+ s +:+ str, S (S calls))
      else Ok (name, S calls)
  end.

(** The [for] loop over the rules. *)
Fixpoint applyRules (nameChunks : list (list string)) (draws : generator)
    (st : state) (chunkRules : list NameRule) : result state :=
  match chunkRules with
  | [] => Ok st
  | rule :: rules =>
      st' ← body nameChunks draws st rule;
      applyRules nameChunks draws st' rules
  end.

(** [generateNpcName]: the name, and the generator's state after it. *)
Definition generateNpcName (nameChunks : list (list string))
    (raceID : Z) (isMale : bool) (draws : generator) (calls : nat)
    : result state :=
  chunkRules ← vector_at NameRules (raceID * 2 + (if isMale then 0 else 1));
  applyRules nameChunks draws ("", calls) chunkRules.

(** *** Specification *)

(** The threshold test of a chance-gated rule at generator state [calls]. *)
Definition passes (draws : generator) (calls : nat) (chance : Z) : bool :=
  Z.of_N (draws calls mod 100) <=? chance.

(** The calls of [next()] a rule makes at generator state [calls]: one for
    a plain reference; for a chance-gated rule the threshold call, and the
    call for the chunk index only when the test passes. *)
Definition drawsOf (draws : generator) (calls : nat) (rule : NameRule) : nat :=
  match rule with
  | Index _ => 1%nat
  | String_ _ => 0%nat
  | IndexChance _ chance | IndexStringChance _ _ chance =>
      if passes draws calls chance then 2%nat else 1%nat
  end.

Fixpoint drawsOfRules (draws : generator) (calls : nat) (rules : list NameRule) : nat :=
  match rules with
  | [] => 0%nat
  | rule :: rules' =>
      (drawsOf draws calls rule
       + drawsOfRules draws (calls + drawsOf draws calls rule) rules')%nat
  end.

(** The count the specification gives: one call per plain or chance-gated
    reference, and one more per chance-gated rule. *)
Definition drawsClaimed (rules : list NameRule) : nat :=
  list_sum (map (λ rule, match rule with
                         | Index _ => 1%nat
                         | String_ _ => 0%nat
                         | IndexChance _ _ | IndexStringChance _ _ _ => 2%nat
                         end) rules).

(** A rule the chunk table can serve: its group exists and is not empty. *)
Definition served (nameChunks : list (list string)) (rule : NameRule) : Prop :=
  match rule with
  | String_ _ => True
  | Index index | IndexChance index _ | IndexStringChance index _ _ =>
      ∃ chunkList, vector_at nameChunks index = Ok chunkList ∧ chunkList ≠ []
  end.

(** A chunk table with one string in each of its 58 groups. *)
Definition one_each : list (list string) := replicate 58 ["x"].

End NameGen.

(** ** TERRAIN.IMG ([MiscAssets::WorldMapTerrain]) *)

(** The constants of [WorldMapTerrain] are declared in [MiscAssets.h], which
    is not among the sources: the image's dimensions, the index of a sea
    pixel and the index of the first temperate one. The functions below take
    them as an interface. *)
Class TerrainConstants : Type := {
  WIDTH : Z;
  HEIGHT : Z;
  SEA : Z;
  TEMPERATE1 : Z
}.

Module WorldMapTerrain.

(** The member [indices], a [std::array<uint8_t, WIDTH * HEIGHT>]: its
    content at every index of the array. *)
Record t : Type := mk {
  indices : Z → Z
}.

(** [indices.at(index)]: [std::out_of_range] outside the array. *)
Definition indices_at `{TerrainConstants} (terrain : t) (index : Z) : result Z :=
  if (0 <=? index) && (index <? WIDTH * HEIGHT)
  then Ok (indices terrain index)
  else Throw OutOfRange.

(** [getAt] *)
Definition getAt `{TerrainConstants} (terrain : t) (x y : Z) : result Z :=
  let index := x + (y * WIDTH) in
  indices_at terrain index.

(** The [getTerrainAt] lambda of [getFailSafeAt]. (The [int] arithmetic does
    not overflow for coordinates anywhere near the image.) *)
Definition getTerrainAt `{TerrainConstants} (terrain : t) (x y : Z) : result Z :=
  let index :=
    let pixelCount := WIDTH * HEIGHT in
    (* Move the index 12 pixels left (wrapping around if necessary). *)
    let i := x + (y * WIDTH) in
    let i := i - 12 in
    if i <? 0 then i + pixelCount
    else if i >=? pixelCount then i - pixelCount
    else i in
  indices_at terrain index.

Definition not_sea `{TerrainConstants} (pixel : Z) : bool := negb (pixel =? SEA).

(** The [for] loop of the fail-safe: [count] iterations from [dist]. The
    four pixels of a radius are all read before any of them is looked at. *)
Fixpoint failSafeLoop `{TerrainConstants} (terrain : t) (x y : Z)
    (count : nat) (dist : Z) : result Z :=
  match count with
  | O => Ok TEMPERATE1   (* Give up, returning default temperate terrain. *)
  | S count' =>
      below ← getTerrainAt terrain x (y + dist);
      above ← getTerrainAt terrain x (y - dist);
      right ← getTerrainAt terrain (x + dist) y;
      left ← getTerrainAt terrain (x - dist) y;
      let failSafePixels := [below; above; right; left] in
      match List.find not_sea failSafePixels with
      | Some pixel => Ok pixel
      | None => failSafeLoop terrain x y count' (dist + 1)
      end
  end.

(** [getFailSafeAt]: [for (int dist = 1; dist < 200; dist++)] makes 199
    iterations. *)
Definition getFailSafeAt `{TerrainConstants} (terrain : t) (x y : Z) : result Z :=
  terrainPixel ← getTerrainAt terrain x y;
  if negb (terrainPixel =? SEA) then Ok terrainPixel
  else failSafeLoop terrain x y 199 1.

(** *** What the specification says [getFailSafeAt] computes *)

(** The pixel of a coordinate: the one 12 places to the left in the image,
    modulo the number of pixels. *)
Definition shifted `{TerrainConstants} (terrain : t) (x y : Z) : Z :=
  indices terrain ((x + y * WIDTH - 12) mod (WIDTH * HEIGHT)).

(** The coordinates of the plus pattern, in the order of the scan. *)
Definition plus (x y dist : Z) : list (Z * Z) :=
  [(x, y + dist); (x, y - dist); (x + dist, y); (x - dist, y)].

Definition plus_pattern (x y : Z) : list (Z * Z) :=
  flat_map (plus x y) (map Z.of_nat (seq 1 199)).

Definition fail_safe `{TerrainConstants} (terrain : t) (x y : Z) : Z :=
  if negb (shifted terrain x y =? SEA) then shifted terrain x y
  else
    match List.find not_sea
            (map (λ p : Z * Z, shifted terrain p.1 p.2) (plus_pattern x y)) with
    | Some pixel => pixel
    | None => TEMPERATE1
    end.

(** *** Terrains for the examples *)

(** A terrain with sea everywhere except a pixel of index 249 two
    rows above (100, 100) and one of index 253 two rows below it. *)
Definition two_islands : t :=
  mk (λ i, if i =? 100 + 98 * 320 - 12 then 249
           else if i =? 100 + 102 * 320 - 12 then 253
           else 248).

Definition all_sea : t := mk (λ _, 248).

End WorldMapTerrain.

(** ** Instances for the examples

    The evaluations on concrete files need an implementation of the two
    interfaces above. *)

Module Reference.

(** Modelled from the spec: [String::replace] of [Utilities/String.h], which
    is not among the sources: the normalization of carriage returns to line
    feeds: every [a] of [s] becomes [b]. *)
Fixpoint replace (s : string) (a b : ascii) : string :=
  match s with
  | EmptyString => EmptyString
  | String ch s' => String (if Ascii.eqb ch a then b else ch) (replace s' a b)
  end.

(** Modelled from the spec: [String::trimLines] of [Utilities/String.h], which
    is not among the sources, and of which the spec says no more than that
    keys are cleaned: [s] without its carriage returns and line feeds. *)
Fixpoint trimLines (s : string) : string :=
  match s with
  | EmptyString => EmptyString
  | String ch s' =>
      if Ascii.eqb ch CR || Ascii.eqb ch LF then trimLines s'
      else String ch (trimLines s')
  end.

(** Modelled from the spec: [String::trim] of [Utilities/String.h], which is
    not among the sources either: [s] without its spaces. The key lines of
    the examples hold no space, so that they are keys as they stand under
    any reading of trimming. *)
Fixpoint trim (s : string) : string :=
  match s with
  | EmptyString => EmptyString
  | String ch s' =>
      if Ascii.eqb ch " " then trim s' else String ch (trim s')
  end.

#[global] Instance string_utilities : StringUtilities := {|
  String_replace := replace;
  String_trim := trim;
  String_trimLines := trimLines
|}.

(** Modelled from the spec: the constants of [MiscAssets.h], which is not
    among the sources. TERRAIN.IMG is an image of 320 x 200 pixels behind its
    header; the palette index of sea is taken as 248 and that of the first
    temperate terrain as 254. The examples depend on the dimensions and on
    the two indices being different, not on their values. *)
#[global] Instance terrain_constants : TerrainConstants := {|
  WIDTH := 320;
  HEIGHT := 200;
  SEA := 248;
  TEMPERATE1 := 254
|}.

(** An end of line, and a text from its lines. *)
Definition nl : string := String LF "".

Definition text_of (lines : list string) : string :=
  String.concat "" (map (λ l, l +:+ nl) lines).

End Reference.

(** * Further functions of the sources *)

(** ** The layout of null-terminated strings in a buffer

    The inverse of what the decoders read: a string is written as its
    characters and a NUL, strings one after the other. *)

Module Encoding.

Definition byte_of_N (n : N) : Byte.byte := byte_of_ascii (ascii_of_N n).

Definition encode_string (s : string) : list Byte.byte :=
  map byte_of_ascii (list_ascii_of_string s) ++ [Byte.x00].

Definition encode_strings (strings : list string) : list Byte.byte :=
  concat (map encode_string strings).

(** A string that can be written this way holds no NUL. *)
Definition NUL_free (s : string) : Prop :=
  Forall (λ ch, ch ≠ Ascii.zero) (list_ascii_of_string s).

(** A record of NAMECHNK.DAT: the total length (16 bits, little endian),
    the number of strings, the strings, and padding up to the length. *)
Definition chunk_length (strings : list string) (padding : list Byte.byte) : nat :=
  (3 + length (encode_strings strings) + length padding)%nat.

Definition encode_chunk (chunk : list string * list Byte.byte) : list Byte.byte :=
  let '(strings, padding) := chunk in
  let len := N.of_nat (chunk_length strings padding) in
  [byte_of_N (len mod 256); byte_of_N (len / 256);
   byte_of_N (N.of_nat (length strings))]
  ++ encode_strings strings ++ padding.

(** What the header of a record can express. *)
Definition encodable (chunk : list string * list Byte.byte) : Prop :=
  Forall NUL_free chunk.1 ∧
  (length chunk.1 < 256)%nat ∧
  (N.of_nat (chunk_length chunk.1 chunk.2) < 65536)%N.

End Encoding.

(** ** ARTFACT1.DAT, ARTFACT2.DAT ([MiscAssets::parseArtifactText]) and
    EQUIP.DAT, MUGUILD.DAT, SELLING.DAT, TAVERN.DAT
    ([MiscAssets::parseTradeText]) *)

Module TextBlocks.

(** [for (std::string &str : arr) { str = std::string(stringPtr);
    stringPtr += str.size() + 1; }] over an array of [n] strings:
    the strings, and where [stringPtr] stands afterwards. *)
Fixpoint read_array (srcData : list Byte.byte) (stringPtr : N) (n : nat)
    : result (list string * N) :=
  match n with
  | O => Ok ([], stringPtr)
  | S n' =>
      str ← NameChunks.string_at srcData stringPtr;
      '(strs, stringPtr') ← read_array srcData (stringPtr + Str.size str + 1) n';
      Ok (str :: strs, stringPtr')
  end.

(** [MiscAssets::ArtifactTavernText]: five arrays of three strings. *)
Record ArtifactTavernText : Type := mkArtifactTavernText {
  greetingStrs : list string;
  barterSuccessStrs : list string;
  offerRefusedStrs : list string;
  barterFailureStrs : list string;
  counterOfferStrs : list string
}.

(** The [initStringArray] lambda, for a [std::array<std::string, 3>]. *)
Definition initStringArray (srcData : list Byte.byte) (stringPtr : N)
    : result (list string * N) :=
  read_array srcData stringPtr 3.

(** The body of the loop over the blocks. *)
Definition read_block (srcData : list Byte.byte) (stringPtr : N)
    : result (ArtifactTavernText * N) :=
  '(greeting, stringPtr) ← initStringArray srcData stringPtr;
  '(barterSuccess, stringPtr) ← initStringArray srcData stringPtr;
  '(offerRefused, stringPtr) ← initStringArray srcData stringPtr;
  '(barterFailure, stringPtr) ← initStringArray srcData stringPtr;
  '(counterOffer, stringPtr) ← initStringArray srcData stringPtr;
  Ok (mkArtifactTavernText greeting barterSuccess offerRefused
        barterFailure counterOffer, stringPtr).

Fixpoint read_blocks (srcData : list Byte.byte) (stringPtr : N) (n : nat)
    : result (list ArtifactTavernText * N) :=
  match n with
  | O => Ok ([], stringPtr)
  | S n' =>
      '(block, stringPtr) ← read_block srcData stringPtr;
      '(blocks, stringPtr) ← read_blocks srcData stringPtr n';
      Ok (block :: blocks, stringPtr)
  end.

(** The [loadArtifactText] lambda on the content of its file: the
    [std::array<MiscAssets::ArtifactTavernText, 16>]. *)
Definition loadArtifactText (srcData : list Byte.byte)
    : result (list ArtifactTavernText) :=
  '(blocks, _) ← read_blocks srcData 0 16;
  Ok blocks.

(** The strings of a block, in the order of the file. *)
Definition block_strings (block : ArtifactTavernText) : list string :=
  greetingStrs block ++ barterSuccessStrs block ++ offerRefusedStrs block ++
  barterFailureStrs block ++ counterOfferStrs block.

(** A block as the file format has it: three strings in every array, none
    of them with a NUL inside. *)
Definition well_formed (block : ArtifactTavernText) : Prop :=
  length (greetingStrs block) = 3%nat ∧
  length (barterSuccessStrs block) = 3%nat ∧
  length (offerRefusedStrs block) = 3%nat ∧
  length (barterFailureStrs block) = 3%nat ∧
  length (counterOfferStrs block) = 3%nat ∧
  Forall Encoding.NUL_free (block_strings block).

(** The dimensions of [MiscAssets::TradeText::FunctionArray] (an array of
    [PersonalityArray]s, each an array of [RandomArray]s of strings) are
    declared in [MiscAssets.h], which is not among the sources. *)
Class TradeTextShape : Type := {
  FUNCTION_COUNT : nat;
  PERSONALITY_COUNT : nat;
  RANDOM_COUNT : nat
}.

Fixpoint read_personality `{TradeTextShape} (srcData : list Byte.byte)
    (stringPtr : N) (n : nat) : result (list (list string) * N) :=
  match n with
  | O => Ok ([], stringPtr)
  | S n' =>
      '(randomArr, stringPtr) ← read_array srcData stringPtr RANDOM_COUNT;
      '(rest, stringPtr) ← read_personality srcData stringPtr n';
      Ok (randomArr :: rest, stringPtr)
  end.

Fixpoint read_function `{TradeTextShape} (srcData : list Byte.byte)
    (stringPtr : N) (n : nat) : result (list (list (list string)) * N) :=
  match n with
  | O => Ok ([], stringPtr)
  | S n' =>
      '(personalityArr, stringPtr) ←
         read_personality srcData stringPtr PERSONALITY_COUNT;
      '(rest, stringPtr) ← read_function srcData stringPtr n';
      Ok (personalityArr :: rest, stringPtr)
  end.

(** The [loadTradeText] lambda on the content of its file. *)
Definition loadTradeText `{TradeTextShape} (srcData : list Byte.byte)
    : result (list (list (list string))) :=
  '(functionArr, _) ← read_function srcData 0 FUNCTION_COUNT;
  Ok functionArr.

(** A trade text as the file format has it. *)
Definition trade_shaped `{TradeTextShape} (functionArr : list (list (list string)))
    : Prop :=
  length functionArr = FUNCTION_COUNT ∧
  Forall (λ personalityArr,
            length personalityArr = PERSONALITY_COUNT ∧
            Forall (λ randomArr,
                      length randomArr = RANDOM_COUNT ∧
                      Forall Encoding.NUL_free randomArr) personalityArr)
         functionArr.

End TextBlocks.

(** ** The text of a name rule ([NameRule], in the anonymous namespace) *)

Module NameRuleText.

(** The constructors [NameRule(const std::string &)] and [NameRule(int,
    const std::string &, int)] fill the rule's [std::array<char, 4>] with
    NULs and copy at most four characters of [str] into it. *)
Definition store (str : string) : list ascii :=
  let chars := list_ascii_of_string str in
  let charCount := Nat.min (length chars) 4 in
  take charCount chars ++ replicate (4 - charCount) Ascii.zero.

(** [std::string(rule.str.data())]: the characters of the array up to its
    first NUL. With no NUL in the array the read runs off its end. *)
Fixpoint c_str (arr : list ascii) : result string :=
  match arr with
  | [] => Throw (Undefined "read past the end of the array")
  | ch :: arr' =>
      if Ascii.eqb ch Ascii.zero then Ok ""
      else s ← c_str arr'; Ok (String ch s)
  end.

(** The text [generateNpcName] appends for a rule built from [str]. *)
Definition text (str : string) : result string := c_str (store str).

End NameRuleText.

(** ** Terrain classification ([MiscAssets::WorldMapTerrain]) *)

(** The remaining palette indices of [WorldMapTerrain], declared in
    [MiscAssets.h] as well. *)
Class ClimateConstants : Type := {
  TEMPERATE2 : Z;
  MOUNTAIN1 : Z;
  MOUNTAIN2 : Z;
  DESERT1 : Z;
  DESERT2 : Z
}.

Module Climate.

(** [World/ClimateType.h] *)
Inductive ClimateType : Type := Temperate | Mountain | Desert.

(** [toClimateType] *)
Definition toClimateType `{TerrainConstants} `{ClimateConstants} (index : Z)
    : result ClimateType :=
  if (index =? TEMPERATE1) || (index =? TEMPERATE2) then Ok Temperate
  else if (index =? MOUNTAIN1) || (index =? MOUNTAIN2) then Ok Mountain
  else if (index =? DESERT1) || (index =? DESERT2) then Ok Desert
  else Throw (RuntimeError
                ("Bad terrain index " +:+ Str.dquote +:+
                 Str.to_string index +:+ Str.dquote +:+ ".")).

(** [getNormalizedIndex]: a subtraction of [uint8_t]s, modulo 256. *)
Definition getNormalizedIndex `{TerrainConstants} (index : Z) : Z :=
  (index - SEA) mod 256.

(** The indices a pixel of TERRAIN.IMG may hold. *)
Definition terrain_index `{TerrainConstants} `{ClimateConstants} (index : Z) : Prop :=
  index = SEA ∨ index = TEMPERATE1 ∨ index = TEMPERATE2 ∨
  index = MOUNTAIN1 ∨ index = MOUNTAIN2 ∨ index = DESERT1 ∨ index = DESERT2.

End Climate.

(** ** Shields and weapons of a class ([MiscAssets::parseClasses]) *)

Module Equipment.

(** [Items/ShieldType.h] *)
Inductive ShieldType : Type := Buckler | Round | Kite | Tower.

Definition ShieldIDMappings : list ShieldType := [Buckler; Round; Kite; Tower].

Definition NO_INDEX : Z := -1.

(** [for (const uint8_t shield : shieldsList)
      shields.push_back(ShieldIDMappings.at(shield - 7));] *)
Fixpoint map_shields (shieldsList : list Z) (shields : list ShieldType)
    : result (list ShieldType) :=
  match shieldsList with
  | [] => Ok shields
  | shield :: rest =>
      s ← NameGen.vector_at ShieldIDMappings (shield - 7);
      map_shields rest (shields ++ [s])
  end.

(** The shield of an id of the executable: ids 7 to 10. *)
Definition shield_of_id (id : Z) : ShieldType :=
  if id =? 7 then Buckler
  else if id =? 8 then Round
  else if id =? 9 then Kite
  else Tower.

(** The [allowedShields] lambda, as a function of the executable's shield
    lists (of [uint8_t] ids) and of the class's index into them. *)
Definition allowedShields (allowedShieldsLists : list (list Z)) (shieldIndex : Z)
    : result (list ShieldType) :=
  if shieldIndex =? NO_INDEX then Ok [Buckler; Round; Kite; Tower]
  else
    shieldsList ← NameGen.vector_at allowedShieldsLists shieldIndex;
    map_shields shieldsList [].

(** [std::vector<int> weapons(18); std::iota(weapons.begin(), weapons.end(), 0);] *)
Definition WeaponIDs : list Z := map Z.of_nat (seq 0 18).

(** [for (const uint8_t weapon : weaponsList)
      weapons.push_back(WeaponIDs.at(weapon));] *)
Fixpoint map_weapons (weaponsList : list Z) (weapons : list Z)
    : result (list Z) :=
  match weaponsList with
  | [] => Ok weapons
  | weapon :: rest =>
      w ← NameGen.vector_at WeaponIDs weapon;
      map_weapons rest (weapons ++ [w])
  end.

(** The [allowedWeapons] lambda. *)
Definition allowedWeapons (allowedWeaponsLists : list (list Z)) (weaponIndex : Z)
    : result (list Z) :=
  if weaponIndex =? NO_INDEX then Ok WeaponIDs
  else
    weaponsList ← NameGen.vector_at allowedWeaponsLists weaponIndex;
    map_weapons weaponsList [].

End Equipment.

(** ** [MiscAssets::getTemplateDatText] *)

Module TemplateLookup.

(** Modelled from the spec: [DebugAssert] of [Utilities/Debug.h], which is not
    among the sources: a failed assertion is fatal, with its message. *)
Definition DebugAssert (condition : bool) (message : string) : result unit :=
  if condition then Ok () else Throw (RuntimeError message).

Definition getTemplateDatText (templateDat : gmap string string) (key : string)
    : result string :=
  let iter := templateDat !! key in
  _ ← DebugAssert (bool_decide (iter ≠ None))
        ("TEMPLATE.DAT key " +:+ Str.dquote +:+ key +:+ Str.dquote +:+ " not found.");
  match iter with
  | Some value => Ok value
  | None => Throw (Undefined "dereference of the end iterator")
  end.

End TemplateLookup.

(** ** Panels and sub-panels ([Game.cpp]) *)

Module Panels.

Section Game.

(** What a [Panel] is does not matter to [Game]; a [std::unique_ptr<Panel>]
    is an [option]. *)
Context {Panel : Type}.

(** The members of [Game] that the panel functions use. Only non-null
    pointers are pushed onto [subPanels]. *)
Record Game : Type := mkGame {
  panel : option Panel;
  subPanels : list Panel;
  nextPanel : option Panel;
  nextSubPanel : option Panel;
  requestedSubPanelPop : bool
}.

(** The panel members as the constructor leaves them: the default panel,
    no sub-panel, nothing requested. *)
Definition constructed (defaultPanel : option Panel) : Game :=
  {| panel := defaultPanel; subPanels := []; nextPanel := None;
     nextSubPanel := None; requestedSubPanelPop := false |}.

Definition setPanel (game : Game) (next : option Panel) : Game :=
  {| panel := panel game; subPanels := subPanels game; nextPanel := next;
     nextSubPanel := nextSubPanel game;
     requestedSubPanelPop := requestedSubPanelPop game |}.

Definition pushSubPanel (game : Game) (next : option Panel) : Game :=
  {| panel := panel game; subPanels := subPanels game;
     nextPanel := nextPanel game; nextSubPanel := next;
     requestedSubPanelPop := requestedSubPanelPop game |}.

Definition popSubPanel (game : Game) : result Game :=
  _ ← TemplateLookup.DebugAssert (negb (requestedSubPanelPop game))
        "Already scheduled to pop this sub-panel.";
  _ ← TemplateLookup.DebugAssert (0 <? Z.of_nat (length (subPanels game)))
        "No sub-panels to pop.";
  Ok {| panel := panel game; subPanels := subPanels game;
        nextPanel := nextPanel game; nextSubPanel := nextSubPanel game;
        requestedSubPanelPop := true |}.

(** [handlePanelChanges]. [pop_back] on an empty vector is undefined
    behaviour; a moved-from [unique_ptr] is null. *)
Definition handlePanelChanges (game : Game) : result Game :=
  subPanels1 ←
    (if requestedSubPanelPop game then
       match subPanels game with
       | [] => Throw (Undefined "pop_back() of an empty vector")
       | _ => Ok (removelast (subPanels game))
       end
     else Ok (subPanels game));
  let subPanels2 :=
    match nextSubPanel game with
    | Some sub => subPanels1 ++ [sub]
    | None => subPanels1
    end in
  let panel' :=
    match nextPanel game with
    | Some next => Some next
    | None => panel game
    end in
  Ok {| panel := panel'; subPanels := subPanels2; nextPanel := None;
        nextSubPanel := None; requestedSubPanelPop := false |}.

(** The panel that [handleEvents] and [tick] address: the top sub-panel
    when there is one, the main panel otherwise. *)
Definition activePanel (game : Game) : option Panel :=
  match last (subPanels game) with
  | Some sub => Some sub
  | None => panel game
  end.

(** What a panel can ask of the game during an event or a tick, and the
    game's own step after it. *)
Inductive request : Type :=
| SetPanel (next : option Panel)
| PushSubPanel (next : option Panel)
| PopSubPanel
| HandlePanelChanges.

Definition serve (game : Game) (r : request) : result Game :=
  match r with
  | SetPanel next => Ok (setPanel game next)
  | PushSubPanel next => Ok (pushSubPanel game next)
  | PopSubPanel => popSubPanel game
  | HandlePanelChanges => handlePanelChanges game
  end.

Fixpoint serve_all (game : Game) (requests : list request) : result Game :=
  match requests with
  | [] => Ok game
  | r :: rest => game' ← serve game r; serve_all game' rest
  end.

End Game.

Arguments Game : clear implicits.
Arguments request : clear implicits.

End Panels.

(** ** The name of the player ([ChooseNamePanel::handleEvent]) *)

Module ChooseName.

Definition MAX_NAME_LENGTH : Z := 25.

(** What [handleEvent] asks of an [SDL_Event]: the keys the input manager
    reports for it, whether it is an [SDL_TEXTINPUT], and the first
    character of its text. *)
Record Event : Type := mkEvent {
  escapePressed : bool;
  enterPressed : bool;
  backspacePressed : bool;
  letterReceived : bool;
  letter : ascii
}.

(** The button the event clicks, if any. *)
Inductive Click : Type :=
| BackToClass
| Accept (name : string).

(** The [charIsAllowed] lambda: only letters and spaces. *)
Definition charIsAllowed (c : ascii) : bool :=
  let n := nat_of_ascii c in
  Ascii.eqb c " " ||
  ((nat_of_ascii "A" <=? n)%nat && (n <=? nat_of_ascii "Z")%nat) ||
  ((nat_of_ascii "a" <=? n)%nat && (n <=? nat_of_ascii "z")%nat).

(** The [textChanged] lambda: the name after the event, and whether it
    changed. *)
Definition textChanged (name : string) (e : Event) : string * bool :=
  if backspacePressed e && (0 <? Str.size name)%N then
    (* Erase one letter if able. *)
    (Str.pop_back name, true)
  else if letterReceived e && (Z.of_N (Str.size name) <? MAX_NAME_LENGTH) then
    if charIsAllowed (letter e) then (name +:+ String (letter e) "", true)
    else (name, false)
  else (name, false).

(** [handleEvent]: the name after the event, the button clicked, and
    whether the text box is rebuilt. *)
Definition handleEvent (name : string) (e : Event)
    : string * option Click * bool :=
  if escapePressed e then (name, Some BackToClass, false)
  else if enterPressed e && (0 <? Str.size name)%N then
    (name, Some (Accept name), false)
  else
    let '(name', changed) := textChanged name e in
    (name', None, changed).

(** The events of a stay on the panel, until a button is clicked. *)
Fixpoint handleEvents (name : string) (events : list Event)
    : string * option Click :=
  match events with
  | [] => (name, None)
  | e :: rest =>
      match handleEvent name e with
      | (name', Some click, _) => (name', Some click)
      | (name', None, _) => handleEvents name' rest
      end
  end.

(** A name the panel can hold: at most 25 characters, letters and spaces. *)
Definition valid (name : string) : Prop :=
  (String.length name ≤ 25)%nat ∧
  Forall (λ c, charIsAllowed c = true) (list_ascii_of_string name).

End ChooseName.

(** ** The path of a screenshot ([Game::saveScreenshot]) *)

Module Screenshot.

(** [ss << std::setw(3) << std::setfill('0') << imageIndex] for an index
    that is not negative. *)
Definition setw3 (imageIndex : Z) : string :=
  let digits := Str.to_string imageIndex in
  String.concat "" (replicate (3 - String.length digits) "0") +:+ digits.

(** The [getNextAvailablePath] lambda: the path of the current index, and
    the index after [imageIndex++] (undefined at [INT_MAX]). *)
Definition getNextAvailablePath (screenshotFolder : string) (imageIndex : Z)
    : result (string * Z) :=
  let path := screenshotFolder +:+ "screenshot" +:+ setw3 imageIndex +:+ ".bmp" in
  if imageIndex <? 2 ^ 31 - 1 then Ok (path, imageIndex + 1)
  else Throw (Undefined "signed integer overflow").

Inductive outcome : Type :=
| Found (path : string)
| Faulted (e : exn)
| Unfinished.

(** [while (File::exists(path)) path = getNextAvailablePath();] for at most
    [fuel] iterations; [exists_] is the file system. *)
Fixpoint search (fuel : nat) (exists_ : string → bool) (screenshotFolder : string)
    (path : string) (imageIndex : Z) : outcome :=
  if exists_ path then
    match fuel with
    | O => Unfinished
    | S fuel' =>
        match getNextAvailablePath screenshotFolder imageIndex with
        | Ok (path', imageIndex') =>
            search fuel' exists_ screenshotFolder path' imageIndex'
        | Throw e => Faulted e
        end
    end
  else Found path.

Definition screenshotPath (fuel : nat) (exists_ : string → bool)
    (screenshotFolder : string) : outcome :=
  match getNextAvailablePath screenshotFolder 0 with
  | Ok (path, imageIndex) => search fuel exists_ screenshotFolder path imageIndex
  | Throw e => Faulted e
  end.

(** The path of the screenshot number [i]. *)
Definition path_of (screenshotFolder : string) (i : Z) : string :=
  screenshotFolder +:+ "screenshot" +:+ setw3 i +:+ ".bmp".

End Screenshot.

(** ** TAMRIEL.MNU ([MiscAssets::parseWorldMapMasks]) *)

(** [WorldMapMask::getAdjustedWidth] is defined in [WorldMapMask.cpp], which
    is not among the sources. *)
Class MaskWidth : Type := {
  getAdjustedWidth : Z → Z
}.

Module WorldMapMasks.

(** Modelled from the spec: [Rect] of [Math/Rect.h], which is not among the
    sources: a rectangle [(x, y, width, height)]. *)
Record Rect : Type := mkRect {
  getX : Z;
  getY : Z;
  getWidth : Z;
  getHeight : Z
}.

(** Beginning of the mask data: [0x87D5]. *)
Definition startOffset : Z := 34773.

Definition MaskRects : list Rect := [
  mkRect 37 32 86 57;
  mkRect 47 53 90 62;
  mkRect 113 29 88 53;
  mkRect 190 31 102 93;
  mkRect 31 131 65 52;
  mkRect 100 118 61 55;
  mkRect 144 119 50 57;
  mkRect 204 116 67 67;
  mkRect 103 72 131 84;
  mkRect 279 188 37 11  (* "Exit" button. *)
].

(** [std::vector<uint8_t> maskData(maskStart, maskEnd)] with
    [maskStart = srcData.begin() + start] and [maskEnd = maskStart + count]:
    the bytes of the range; iterators outside the vector, or an end before
    the start, are undefined behaviour. *)
Definition copy_range (srcData : list Byte.byte) (start count : Z)
    : result (list Byte.byte) :=
  if (0 <=? start) && (0 <=? count) && (start + count <=? Z.of_nat (length srcData))
  then Ok (take (Z.to_nat count) (drop (Z.to_nat start) srcData))
  else Throw (Undefined "iterator outside the vector").

(** An [int] result: signed overflow is undefined behaviour. *)
Definition int_ok (value : Z) : result Z :=
  if (- 2 ^ 31 <=? value) && (value <? 2 ^ 31) then Ok value
  else Throw (Undefined "signed integer overflow").

(** The number of bytes in a mask rect, as a mathematical integer. *)
Definition byteCount `{MaskWidth} (rect : Rect) : Z :=
  getAdjustedWidth (getWidth rect) * getHeight rect.

(** The loop over the masks, from [offset]; [worldMapMasks] has one element
    for each of the rects. *)
Fixpoint mask_loop `{MaskWidth} (srcData : list Byte.byte) (rects : list Rect)
    (offset : Z) : result (list (list Byte.byte * Rect)) :=
  match rects with
  | [] => Ok []
  | rect :: rects' =>
      count ← int_ok (byteCount rect);
      maskData ← copy_range srcData (startOffset + offset) count;
      offset' ← int_ok (offset + count);
      masks ← mask_loop srcData rects' offset';
      Ok ((maskData, rect) :: masks)
  end.

Definition parseWorldMapMasks `{MaskWidth} (srcData : list Byte.byte)
    : result (list (list Byte.byte * Rect)) :=
  mask_loop srcData MaskRects 0.

(** The bytes of the masks of a list of rects. *)
Definition total_bytes `{MaskWidth} (rects : list Rect) : Z :=
  foldr (λ rect total, byteCount rect + total) 0 rects.

(** Modelled from the spec: [WorldMapMask::getAdjustedWidth]: the width of a
    row of bits rounded up to whole bytes. *)
Definition bytes_per_row : MaskWidth :=
  {| getAdjustedWidth := λ width, (width + 7) / 8 |}.

End WorldMapMasks.

(** ** Kinds of lines and of files, for the properties of the text parsers *)

Module Lines.

(** A line that starts with the delimiter [#]. *)
Definition is_delimiter (line : string) : bool :=
  match String.get 0 line with
  | Some ch => Ascii.eqb ch "#"
  | None => false
  end.

Definition delimiters (lines : list string) : nat :=
  length (List.filter is_delimiter lines).

(** A line as [std::getline] can return it. *)
Definition LF_free (line : string) : Prop :=
  Forall (λ ch, ch ≠ LF) (list_ascii_of_string line).

(** The text box of a spell-maker entry: a line that is not a delimiter. *)
Definition plain (line : string) : Prop :=
  LF_free line ∧ is_delimiter line = false.

(** The header line of the spell-maker entry [i]: [#] and two digits. *)
Definition digit (d : nat) : ascii := ascii_of_nat (48 + d).

Definition header (i : nat) : string :=
  String "#" (String (digit (i / 10)) (String (digit (i mod 10)) "")).

(** The lines of a spell-maker file with the given entries, closed by a
    bare [#]. *)
Definition entry_lines (entry : nat * list string) : list string :=
  header entry.1 :: entry.2.

Definition file_lines (entries : list (nat * list string)) : list string :=
  concat (map entry_lines entries) ++ ["#"].

(** What the entries say the descriptions are: the lines of an entry, one
    after the other, at its index; a later entry replaces an earlier one. *)
Definition store_entry (descriptions : list string) (entry : nat * list string)
    : list string :=
  <[entry.1 := String.concat "" entry.2]> descriptions.

Definition descriptions_of (entries : list (nat * list string)) : list string :=
  foldl store_entry SpellMaker.empty_descriptions entries.

(** A text from its lines, each closed by a line feed. *)
Definition unlines (lines : list string) : string :=
  String.concat "" (map (λ line, line +:+ String LF "") lines).

End Lines.

(** ** Counting the references of a rule list *)

Module NameGenCount.

(** The rules that refer to a chunk group: all but the literal ones. *)
Definition references (rules : list NameGen.NameRule) : nat :=
  list_sum (map (λ rule, match rule with
                         | NameGen.String_ _ => 0%nat
                         | _ => 1%nat
                         end) rules).

End NameGenCount.

(** ** The state of the panels between frames *)

Module PanelsSpec.
Import Panels.

(** A pop is only scheduled while there is a sub-panel to pop. *)
Definition sound {Panel : Type} (game : Game Panel) : Prop :=
  requestedSubPanelPop game = true → subPanels game ≠ [].

(** Nothing is requested. *)
Definition settled {Panel : Type} (game : Game Panel) : Prop :=
  nextPanel game = None ∧ nextSubPanel game = None ∧
  requestedSubPanelPop game = false.

End PanelsSpec.

(** ** Invariants of the parsers, and sample data *)

Module TextBlocksSamples.
Import TextBlocks.

(** A block of tavern texts, to evaluate the loader on. *)
Definition sample_block : ArtifactTavernText :=
  mkArtifactTavernText ["Hail"; "Well met"; ""] ["Done"; "Agreed"; "Fine"]
    ["No"; "Never"; "Bah"] ["Too low"; "Hm"; "Go away"] ["How about"; "Say"; "Or"].

(** A small shape of the trade text, to evaluate the loader on. *)
Definition two_by_two : TradeTextShape :=
  {| FUNCTION_COUNT := 2; PERSONALITY_COUNT := 2; RANDOM_COUNT := 2 |}.

End TextBlocksSamples.

Module ClimateSamples.
Import Climate.

(** Palette indices to evaluate the classification on: the values of
    [MiscAssets.h] are not among the sources. *)
Definition arena_climates : ClimateConstants :=
  {| TEMPERATE2 := 251; MOUNTAIN1 := 249; MOUNTAIN2 := 250;
     DESERT1 := 253; DESERT2 := 252 |}.

End ClimateSamples.

Module TemplateSpec.
Import TemplateDat.

(** The key comes from a line of the text that starts with [#]. *)
Definition from_line `{StringUtilities} (all : list string) (k : string) : Prop :=
  ∃ line, line ∈ all ∧ String.get 0 line = Some "#"%char ∧
          k = String_trim (String_trimLines line).

End TemplateSpec.

Module DungeonSpec.
Import DungeonTxt.

(** A description is only collected under a title. *)
Definition titled (st : state) : Prop :=
  (description st ≠ "" → title st ≠ "") ∧
  Forall (λ entry : string * string, entry.2 ≠ "" → entry.1 ≠ "") (dungeonTxt st).

End DungeonSpec.

Module QuestionSpec.
Import QuestionTxt.

(** The categories of a question are those of its choices. *)
Definition consistent (q : CharacterQuestion) : Prop :=
  getCategory (q_a q).1 = Ok (q_a q).2 ∧
  getCategory (q_b q).1 = Ok (q_b q).2 ∧
  getCategory (q_c q).1 = Ok (q_c q).2.

End QuestionSpec.

Module SpellMakerSpec.
Import SpellMaker.

(** What is stored when a delimiter line is met. *)
Definition flush (state : option State) (descriptions : list string) : list string :=
  match state with
  | Some st => <[Z.to_nat (index st) := str st]> descriptions
  | None => descriptions
  end.

(** The index of the pending description is one of the 43. *)
Definition in_range (state : option State) : Prop :=
  match state with
  | Some st => 0 ≤ index st < 43
  | None => True
  end.

End SpellMakerSpec.


(** * Properties *)

(** ** Strings *)

Module StrFacts.

Lemma size_add_npos_2 : Str.size_add Str.npos 2 = 1%N.
Proof. reflexivity. Qed.

(** The equations of [+:+], which stdpp keeps from unfolding. *)
Lemma app_empty (s : string) : "" +:+ s = s.
Proof. reflexivity. Qed.

Lemma app_String (ch : ascii) (s t : string) :
  String ch s +:+ t = String ch (s +:+ t).
Proof. reflexivity. Qed.

Lemma app_empty_r (s : string) : s +:+ "" = s.
Proof. induction s as [|ch s IH]; [done|]. by rewrite app_String, IH. Qed.

Lemma app_assoc (s t u : string) : (s +:+ t) +:+ u = s +:+ (t +:+ u).
Proof.
  induction s as [|ch s IH]; [done|]. by rewrite !app_String, IH.
Qed.

(** A substring that is found occurs in the string. *)
Lemma substring_prefix (n : nat) :
  ∀ s t : string,
    String.substring 0 n s = t → String.length t = n → ∃ post, s = t +:+ post.
Proof.
  induction n as [|n IHn]; intros s t Hsub Hlen.
  - destruct t; [|discriminate]. by exists s.
  - destruct s as [|ch s]; simpl in Hsub; subst t; [discriminate|].
    simpl in Hlen. injection Hlen as Hlen.
    destruct (IHn s _ eq_refl Hlen) as [post Hpost].
    exists post.
    change (String ch s = String ch (String.substring 0 n s +:+ post)).
    by f_equal.
Qed.

Lemma substring_occurs (m : nat) :
  ∀ (n : nat) (s t : string),
    String.substring m n s = t → String.length t = n →
    ∃ pre post, s = pre +:+ t +:+ post.
Proof.
  induction m as [|m IH]; intros n s t Hsub Hlen.
  - destruct (substring_prefix n s t Hsub Hlen) as [post ->]. by exists "", post.
  - destruct s as [|ch s]; simpl in Hsub.
    + subst t. simpl in Hlen. subst n. by exists "", "".
    + destruct (IH n s t Hsub Hlen) as (pre & post & ->).
      by exists (String ch pre), post.
Qed.

(** An occurrence is a substring at the length of what precedes it. *)
Lemma substring_of_occurrence (pre t post : string) :
  String.substring (String.length pre) (String.length t) (pre +:+ t +:+ post) = t.
Proof.
  induction pre as [|ch pre IH]; [|by rewrite app_String].
  rewrite app_empty. change (String.length "") with 0%nat.
  induction t as [|ch t IHt].
  - rewrite app_empty. by destruct post.
  - rewrite app_String. simpl. by rewrite IHt.
Qed.

(** [find] returns [npos] exactly on the strings without an occurrence. *)
Lemma find_npos_of_no_occurrence (needle s : string) :
  (∀ pre post, s ≠ pre +:+ needle +:+ post) → Str.find needle s = Str.npos.
Proof.
  intros Hno. unfold Str.find.
  destruct (String.index 0 needle s) as [m|] eqn:Hidx; [|done].
  apply String.index_correct1 in Hidx.
  destruct (substring_occurs _ _ _ _ Hidx eq_refl) as (pre & post & ->).
  by destruct (Hno pre post).
Qed.

Lemma no_occurrence_of_index (needle s : string) :
  needle ≠ "" → String.index 0 needle s = None →
  ∀ pre post, s ≠ pre +:+ needle +:+ post.
Proof.
  intros Hne Hidx pre post ->.
  eapply (String.index_correct3 0 (String.length pre)); eauto; [lia|].
  apply substring_of_occurrence.
Qed.

Lemma get_none_of_short (s : string) (n : nat) :
  (String.length s ≤ n)%nat → String.get n s = None.
Proof.
  revert n. induction s as [|ch s IH]; intros n Hn; [done|].
  destruct n as [|n]; simpl in *; [lia|]. apply IH. lia.
Qed.

End StrFacts.

(** ** The character class table *)

Module ClassesFacts.
Import Classes.

(** C7: the allowed armours of a class follow its coded value: 0 gives
    leather, chain and plate; 1 gives leather and chain; 2 gives leather;
    3 gives nothing; every other value ends in a [std::runtime_error]. *)
Theorem allowedArmors_by_code :
  allowedArmors 0 = Ok [Leather; Chain; Plate] ∧
  allowedArmors 1 = Ok [Leather; Chain] ∧
  allowedArmors 2 = Ok [Leather] ∧
  allowedArmors 3 = Ok [] ∧
  ∀ value : Z,
    value ≠ 0 → value ≠ 1 → value ≠ 2 → value ≠ 3 →
    ∃ msg, allowedArmors value = Throw (RuntimeError msg).
Proof.
  repeat split; try reflexivity.
  intros value H0 H1 H2 H3. unfold allowedArmors.
  destruct (Z.eqb_spec value 0); [done|].
  destruct (Z.eqb_spec value 1); [done|].
  destruct (Z.eqb_spec value 2); [done|].
  destruct (Z.eqb_spec value 3); [done|].
  eauto.
Qed.

Lemma allowedArmors_by_code_witness :
  ∃ msg, allowedArmors 4 = Throw (RuntimeError msg).
Proof.
  apply (proj2 (proj2 (proj2 (proj2 allowedArmors_by_code))) 4); lia.
Defined.

(** The armour lists are sets: no material occurs twice. *)
Lemma allowedArmors_NoDup (value : Z) (armors : list ArmorMaterialType) :
  allowedArmors value = Ok armors → NoDup armors.
Proof.
  unfold allowedArmors. intros Hok.
  repeat (destruct (_ =? _) in Hok;
          [injection Hok as <-;
           repeat (apply NoDup_cons_2;
                   [intros Hin;
                    repeat (apply elem_of_cons in Hin as [Hin|Hin]; [discriminate|]);
                    by apply elem_of_nil in Hin|]);
           apply NoDup_nil_2|]).
  discriminate.
Qed.

(** C9: for a divisor [d] of a class (a non-zero [uint8_t]) the lockpicking
    multiplier is the double [floor(200/d) / 100.0]; for [d = 4] it is
    [0.5]. *)
Theorem lockpicking_exact (d : Z) :
  0 < d → d < 256 →
  lockpicking d = Ok (PrimFloat.div (int_to_double (200 / d)) (int_to_double 100)) ∧
  (d = 4 → lockpicking d = Ok 0.5%float).
Proof.
  intros Hpos Hlt. split.
  - unfold lockpicking. destruct (Z.eqb_spec d 0); [lia|].
    by rewrite Z.quot_div_nonneg by lia.
  - by intros ->.
Qed.

Lemma lockpicking_exact_witness :
  lockpicking 4 = Ok 0.5%float.
Proof.
  apply (proj2 (lockpicking_exact 4 ltac:(lia) ltac:(lia)) eq_refl).
Defined.

End ClassesFacts.

(** ** QUESTION.TXT *)

Module QuestionFacts.
Import QuestionTxt.

(** C10: on a choice without the marker [(5], [find] returns [npos],
    [npos + 2] wraps to 1, and the category is read off the character at
    index 1, whatever it is; the missing marker is not reported. A choice
    of fewer than two characters fails in [at]. *)
Theorem getCategory_without_marker (choice : string) :
  (∀ pre post, choice ≠ pre +:+ "(5" +:+ post) →
  getCategory choice =
    match String.get 1 choice with
    | Some tag =>
        if Ascii.eqb tag "l" then Ok Mage
        else if Ascii.eqb tag "c" then Ok Thief
        else if Ascii.eqb tag "v" then Ok Warrior
        else Throw (RuntimeError "Bad QUESTION.TXT class category.")
    | None => Throw OutOfRange
    end ∧
  ((String.length choice < 2)%nat → getCategory choice = Throw OutOfRange).
Proof.
  intros Hno.
  assert (Hcat : ∀ c, getCategory c =
            categoryChar ← Str.at_ c (Str.size_add (Str.find "(5" c) 2);
            if Ascii.eqb categoryChar "l" then Ok Mage
            else if Ascii.eqb categoryChar "c" then Ok Thief
            else if Ascii.eqb categoryChar "v" then Ok Warrior
            else Throw (RuntimeError "Bad QUESTION.TXT class category."))
    by reflexivity.
  rewrite Hcat, (StrFacts.find_npos_of_no_occurrence _ _ Hno),
    StrFacts.size_add_npos_2.
  unfold Str.at_. change (N.to_nat 1) with 1%nat.
  split.
  - by destruct (String.get 1 choice).
  - intros Hlen. rewrite StrFacts.get_none_of_short; [done|lia].
Qed.

Lemma getCategory_without_marker_witness :
  getCategory "alpha" = Ok Mage ∧ getCategory "x" = Throw OutOfRange.
Proof.
  split.
  - apply (proj1 (getCategory_without_marker "alpha"
                    (StrFacts.no_occurrence_of_index "(5" "alpha"
                       ltac:(discriminate) eq_refl))).
  - apply (proj2 (getCategory_without_marker "x"
                    (StrFacts.no_occurrence_of_index "(5" "x"
                       ltac:(discriminate) eq_refl))).
    simpl. lia.
Defined.

(** With the marker, the character after it decides. *)
Lemma getCategory_with_marker :
  getCategory "a) wait (5l)" = Ok Mage ∧
  getCategory "b) run (5c)" = Ok Thief ∧
  getCategory "c) fight (5v)" = Ok Warrior ∧
  getCategory "c) fight (5x)" = Throw (RuntimeError "Bad QUESTION.TXT class category.").
Proof. repeat split. Qed.

End QuestionFacts.

(** ** Loops over lines *)

Module LoopFacts.

(** A property of the loop's variables that every iteration keeps holds
    when the loop ends. *)
Lemma fold_lines_invariant {S : Type} (P : S → Prop)
    (body : S → string → result S) :
  (∀ st line st', P st → body st line = Ok st' → P st') →
  ∀ lines st st', P st → fold_lines body st lines = Ok st' → P st'.
Proof.
  intros Hstep. induction lines as [|line lines IH]; intros st st' HP Hrun.
  - by injection Hrun as <-.
  - simpl in Hrun. destruct (body st line) as [st1|e] eqn:Hbody; [|done].
    eapply IH; [|exact Hrun]. eauto.
Qed.

Lemma fold_lines_app {S : Type} (body : S → string → result S)
    (lines1 lines2 : list string) (st : S) :
  fold_lines body st (lines1 ++ lines2) =
  st' ← fold_lines body st lines1; fold_lines body st' lines2.
Proof.
  revert st. induction lines1 as [|line lines1 IH]; intros st; [done|].
  simpl. destruct (body st line) as [st1|e]; [apply IH|done].
Qed.

End LoopFacts.

(** ** More on strings: the last character *)

Module BackFacts.
Import StrFacts.

Lemma ends_with_empty (ch : ascii) : Str.ends_with ch "" = false.
Proof. reflexivity. Qed.

Lemma length_pop_back (s : string) :
  String.length (Str.pop_back s) = Nat.pred (String.length s).
Proof.
  induction s as [|ch s IH]; [done|].
  destruct s as [|ch' s]; [done|].
  transitivity (S (String.length (Str.pop_back (String ch' s))));
    [reflexivity|].
  by rewrite IH.
Qed.

(** A string is what [pop_back] leaves, followed by its last character. *)
Lemma pop_back_back (s : string) (ch : ascii) :
  Str.back s = Some ch → s = Str.pop_back s +:+ String ch "".
Proof.
  induction s as [|a s IH]; [done|].
  destruct s as [|a' s].
  - by intros [= ->].
  - intros Hback.
    change (Str.pop_back (String a (String a' s)))
      with (String a (Str.pop_back (String a' s))).
    rewrite app_String. f_equal. by apply IH.
Qed.

Lemma ends_with_true (s : string) (ch : ascii) :
  Str.ends_with ch s = true → s = Str.pop_back s +:+ String ch "".
Proof.
  unfold Str.ends_with. destruct (Str.back s) as [a|] eqn:Hback; [|done].
  intros ->%Ascii.eqb_eq. by apply pop_back_back.
Qed.

Lemma pop_back_snoc (s : string) (ch : ascii) :
  Str.pop_back (s +:+ String ch "") = s.
Proof.
  induction s as [|a s IH]; [done|].
  rewrite app_String.
  destruct (s +:+ String ch "") as [|a' rest] eqn:Heq.
  - by destruct s.
  - change (Str.pop_back (String a (String a' rest)))
      with (String a (Str.pop_back (String a' rest))).
    by rewrite IH.
Qed.

Lemma ends_with_snoc (s : string) (ch c : ascii) :
  Str.ends_with c (s +:+ String ch "") = Ascii.eqb ch c.
Proof.
  unfold Str.ends_with.
  induction s as [|a s IH]; [done|].
  rewrite app_String.
  destruct (s +:+ String ch "") as [|a' rest] eqn:Heq.
  - by destruct s.
  - exact IH.
Qed.

Lemma snoc_inj (s t : string) (ch : ascii) :
  s +:+ String ch "" = t +:+ String ch "" → s = t.
Proof.
  intros Heq. apply (f_equal Str.pop_back) in Heq.
  by rewrite !pop_back_snoc in Heq.
Qed.

End BackFacts.

(** ** TEMPLATE.DAT *)

Module TemplateFacts.
Import TemplateDat.

Lemma pop_newlines_no_LF (fuel : nat) :
  ∀ value, (String.length value ≤ fuel)%nat →
    Str.ends_with LF (pop_newlines fuel value) = false.
Proof.
  induction fuel as [|fuel IH]; intros value Hlen.
  - destruct value; [done|simpl in Hlen; lia].
  - simpl. destruct (0 <? Str.size value)%N eqn:Hsize; simpl.
    + destruct (Str.ends_with LF value) eqn:Hends; [|done].
      apply IH. rewrite BackFacts.length_pop_back. lia.
    + destruct value; [done|]. by apply N.ltb_ge in Hsize.
Qed.

(** The loop over the line feeds at the end removes nothing else. *)
Lemma pop_newlines_line_feeds (fuel : nat) :
  ∀ value, ∃ n, value = pop_newlines fuel value +:+ line_feeds n.
Proof.
  induction fuel as [|fuel IH]; intros value.
  - exists 0%nat. cbn [pop_newlines line_feeds]. by rewrite StrFacts.app_empty_r.
  - cbn [pop_newlines].
    destruct ((0 <? Str.size value)%N && Str.ends_with LF value) eqn:Hcond.
    + apply andb_true_iff in Hcond as [_ Hends].
      destruct (IH (Str.pop_back value)) as [n Hn].
      exists (S n). cbn [line_feeds].
      etransitivity; [exact (BackFacts.ends_with_true value LF Hends)|].
      etransitivity;
        [exact (f_equal (λ s, s +:+ String LF "") Hn)|].
      apply StrFacts.app_assoc.
    + exists 0%nat. cbn [line_feeds]. by rewrite StrFacts.app_empty_r.
Qed.

(** The clean-up of the code is the clean-up of the specification. *)
Lemma cleanup_cleaned `{StringUtilities} (raw : string) : cleaned raw (cleanup raw).
Proof.
  unfold cleaned, cleanup.
  set (replaced := String_replace raw CR LF).
  destruct (pop_newlines_line_feeds (String.length replaced) replaced) as [n Hn].
  assert (Hs : Str.ends_with LF
                 (pop_newlines (String.length replaced) replaced) = false)
    by by apply pop_newlines_no_LF.
  set (s := pop_newlines (String.length replaced) replaced) in *.
  destruct ((0 <? Str.size s)%N && Str.ends_with "&" s) eqn:Hcond.
  - apply andb_true_iff in Hcond as [_ Hamp].
    pose proof (BackFacts.ends_with_true s "&" Hamp) as Hback.
    exists true, n. rewrite <- Hback. by repeat split.
  - exists false, n. rewrite StrFacts.app_empty_r.
    split; [done|]. split; [done|]. intros _.
    apply andb_false_iff in Hcond as [Hsize|Hamp]; [|done].
    destruct s; [done|]. by apply N.ltb_ge in Hsize.
Qed.

(** What is kept of a text and the number of line feeds after it are
    determined by the text. *)
Lemma line_feeds_inj (kept kept' : string) (n : nat) :
  ∀ m,
    Str.ends_with LF kept = false → Str.ends_with LF kept' = false →
    kept +:+ line_feeds n = kept' +:+ line_feeds m → kept = kept'.
Proof.
  induction n as [|n IH]; intros [|m] Hkept Hkept' Heq; cbn [line_feeds] in Heq.
  - by rewrite !StrFacts.app_empty_r in Heq.
  - rewrite StrFacts.app_empty_r, <- StrFacts.app_assoc in Heq. subst kept.
    by rewrite BackFacts.ends_with_snoc in Hkept.
  - rewrite StrFacts.app_empty_r, <- StrFacts.app_assoc in Heq. subst kept'.
    by rewrite BackFacts.ends_with_snoc in Hkept'.
  - rewrite <- !StrFacts.app_assoc in Heq. apply BackFacts.snoc_inj in Heq.
    by apply (IH m).
Qed.

(** A text is cleaned into one value only. *)
Lemma cleaned_unique `{StringUtilities} (raw v v' : string) :
  cleaned raw v → cleaned raw v' → v = v'.
Proof.
  intros (amp & n & Hraw & Hkept & Hamp) (amp' & m & Hraw' & Hkept' & Hamp').
  rewrite Hraw in Hraw'. apply line_feeds_inj in Hraw'; [|done|done].
  destruct amp, amp'.
  - by apply BackFacts.snoc_inj in Hraw'.
  - rewrite StrFacts.app_empty_r in Hraw'. subst v'.
    specialize (Hamp' eq_refl). by rewrite BackFacts.ends_with_snoc in Hamp'.
  - rewrite StrFacts.app_empty_r in Hraw'. subst v.
    specialize (Hamp eq_refl). by rewrite BackFacts.ends_with_snoc in Hamp.
  - by rewrite !StrFacts.app_empty_r in Hraw'.
Qed.

Lemma stored_from_app `{StringUtilities} (lines more : list string) (k v : string) :
  stored_from lines k v → stored_from (lines ++ more) k v.
Proof.
  intros (before & line & paragraph & next & after & -> & Hrest).
  exists before, line, paragraph, next, (after ++ more). split; [|done].
  rewrite <- app_assoc. cbn [app]. by rewrite <- app_assoc.
Qed.

(** Every iteration keeps the origin of the loop's variables and of the
    values of the table. *)
Lemma body_stored `{StringUtilities} (lines : list string) (st st' : state)
    (line : string) :
  pending lines st → table_from lines st →
  body st line = Ok st' →
  pending (lines ++ [line]) st' ∧ table_from (lines ++ [line]) st'.
Proof.
  intros (before & current & paragraph & -> & Hparagraph & Hvalue & Hkey & Hkeys)
    Htable.
  unfold body. destruct line as [|ch line]; [done|].
  change (Str.at_ (String ch line) 0) with (Ok ch).
  change (Ok ch ≫= ?k) with (k ch). cbv beta.
  destruct (Ascii.eqb_spec ch "#") as [->|Hne]; intros [= <-].
  - split.
    + exists (before ++ current ++ paragraph), [String "#" line], [].
      split; [done|]. split; [constructor|]. split; [done|].
      split; [right; by exists (String "#" line)|].
      cbn [templateDat]. apply Forall_app. split; [|apply Forall_app; split].
      * eapply Forall_impl; [exact Hkeys|]. intros l Hl Hget Hne.
        destruct (templateDat st !! key st); [by apply Hl|].
        destruct (decide (key st = key_of l)) as [<-|Hother].
        -- rewrite lookup_insert_eq. by eexists.
        -- rewrite lookup_insert_ne by done. by apply Hl.
      * destruct Hkey as [[-> _]|(line0 & -> & Hline0 & Hkey0)]; [constructor|].
        constructor; [|constructor]. intros _ Hne. rewrite <- Hkey0.
        destruct (templateDat st !! key st) eqn:Hfound; [by rewrite Hfound|].
        rewrite lookup_insert_eq. by eexists.
      * eapply Forall_impl; [exact Hparagraph|]. by intros l Hl Hget.
    + intros k v Hk. cbn [templateDat].
      destruct (templateDat st !! key st) eqn:Hfound.
      * intros Hlookup. apply stored_from_app. by apply Htable.
      * intros [[<- <-]|[_ Hlookup]]%lookup_insert_Some.
        -- destruct Hkey as [[_ Hempty]|(line0 & -> & Hline0 & Hkey0)]; [done|].
           exists before, line0, paragraph, (String "#" line), [].
           split; [by rewrite <- !app_assoc|]. split.
           { eapply Forall_impl; [exact Hkeys|]. cbv beta.
             intros l Hl Hget Heq. rewrite Heq in Hl.
             destruct (Hl Hget Hk) as [v' Hv']. by rewrite Hfound in Hv'. }
           split; [done|]. split; [done|]. split; [done|]. split; [done|].
           rewrite Hvalue. apply cleanup_cleaned.
        -- apply stored_from_app. by apply Htable.
  - split.
    + exists before, current, (paragraph ++ [String ch line]).
      split; [by rewrite <- !app_assoc|]. split.
      { apply Forall_app. split; [done|]. constructor; [|done].
        cbn. congruence. }
      split; [|done]. cbn [value]. unfold paragraph_text.
      rewrite foldl_app. cbn [foldl]. by rewrite Hvalue.
    + intros k v Hk Hlookup. apply stored_from_app. by apply Htable.
Qed.

Lemma loop_stored `{StringUtilities} (rest : list string) :
  ∀ lines st st',
    pending lines st → table_from lines st →
    fold_lines body st rest = Ok st' →
    table_from (lines ++ rest) st'.
Proof.
  induction rest as [|line rest IH]; intros lines st st' Hpending Htable.
  - intros [= <-]. by rewrite app_nil_r.
  - cbn [fold_lines]. destruct (body st line) as [st1|] eqn:Hbody; [|done].
    change (Ok st1 ≫= ?k) with (k st1). cbv beta. intros Hrun.
    destruct (body_stored lines st st1 line Hpending Htable Hbody)
      as [Hpending1 Htable1].
    rewrite cons_middle, app_assoc. by eapply IH.
Qed.

(** Lines that do not start with [#] leave the table as it is. *)
Lemma template_text_line `{StringUtilities} (st st' : state) (line : string) (ch : ascii) :
  String.get 0 line = Some ch → ch ≠ "#"%char →
  body st line = Ok {| key := key st; value := value st +:+ line;
                       templateDat := templateDat st |}.
Proof.
  intros Hget Hne. unfold body, Str.at_. change (N.to_nat 0) with 0%nat.
  rewrite Hget. simpl.
  by destruct (Ascii.eqb_spec ch "#").
Qed.

(** The text after the last [#] line never reaches the table: a loop over
    such lines only changes [value]. *)
Lemma template_tail_not_stored `{StringUtilities} (tail : list string) :
  Forall (λ line, ∃ ch, String.get 0 line = Some ch ∧ ch ≠ "#"%char) tail →
  ∀ st, ∃ value',
    fold_lines body st tail =
      Ok {| key := key st; value := value'; templateDat := templateDat st |}.
Proof.
  induction 1 as [|line tail (ch & Hget & Hne) _ IH]; intros st.
  - exists (value st). by destruct st.
  - simpl. rewrite (template_text_line st st line ch Hget Hne). simpl.
    destruct (IH {| key := key st; value := value st +:+ line;
                    templateDat := templateDat st |}) as [value' Hrun].
    by exists value'.
Qed.

(** C4, as the code has it: every value stored in the table comes from a
    paragraph of the file: the one between the first line that starts with
    [#] and gives the key, and the next line that starts with [#]. With its
    carriage returns replaced, the text of the paragraph is the stored
    value, then one ampersand if one was removed, then the line feeds that
    were removed; what is kept before the line feeds does not end in a line
    feed, and a value from which no ampersand was removed ends in neither.
    (What precedes a removed ampersand is not looked at again, so that the
    value itself can end in a line feed or in an ampersand.) *)
Theorem template_values_cleaned `{StringUtilities}
    (text : string) (table : gmap string string) (k v : string) :
  parseTemplateDat text = Ok table →
  table !! k = Some v →
  ∃ (before : list string) (line : string) (paragraph : list string)
    (next : string) (after : list string),
    getlines text = before ++ line :: paragraph ++ next :: after ∧
    Forall (λ l, String.get 0 l = Some "#"%char → key_of l ≠ k) before ∧
    String.get 0 line = Some "#"%char ∧
    k = key_of line ∧
    Forall (λ l, String.get 0 l ≠ Some "#"%char) paragraph ∧
    String.get 0 next = Some "#"%char ∧
    ∃ (ampersand : bool) (n : nat),
      String_replace (paragraph_text paragraph) CR LF
        = (v +:+ (if ampersand then "&" else "")) +:+ line_feeds n ∧
      Str.ends_with LF (v +:+ (if ampersand then "&" else "")) = false ∧
      (ampersand = false → Str.ends_with "&" v = false).
Proof.
  unfold parseTemplateDat. intros Hparse Hlookup.
  destruct (fold_lines body initial (getlines text)) as [st|e] eqn:Hrun; [|done].
  injection Hparse as <-.
  apply lookup_delete_Some in Hlookup as [Hk Hlookup].
  assert (Hpending : pending [] initial).
  { exists [], [], []. split; [done|]. split; [constructor|]. split; [done|].
    split; [by left|constructor]. }
  assert (Htable : table_from [] initial).
  { intros k' v' _. cbn [initial templateDat]. by rewrite lookup_empty. }
  apply (loop_stored (getlines text) [] initial st Hpending Htable Hrun k v);
    [by intros ->|done].
Qed.

Lemma template_values_cleaned_witness :
  ∃ (before : list string) (line : string) (paragraph : list string)
    (next : string) (after : list string),
    getlines (Reference.text_of
                ["#K"; "hello&" +:+ String CR ""; "#K"; "other"; "#Z"])
      = before ++ line :: paragraph ++ next :: after ∧
    Forall (λ l, String.get 0 l = Some "#"%char →
                 key_of (H := Reference.string_utilities) l ≠ "#K") before ∧
    String.get 0 line = Some "#"%char ∧
    "#K" = key_of (H := Reference.string_utilities) line ∧
    Forall (λ l, String.get 0 l ≠ Some "#"%char) paragraph ∧
    String.get 0 next = Some "#"%char ∧
    ∃ (ampersand : bool) (n : nat),
      Reference.replace (paragraph_text paragraph) CR LF
        = ("hello" +:+ (if ampersand then "&" else "")) +:+ line_feeds n ∧
      Str.ends_with LF ("hello" +:+ (if ampersand then "&" else "")) = false ∧
      (ampersand = false → Str.ends_with "&" "hello" = false).
Proof.
  apply (template_values_cleaned (H := Reference.string_utilities)
           (Reference.text_of
              ["#K"; "hello&" +:+ String CR ""; "#K"; "other"; "#Z"])
           {["#K" := "hello"]} "#K" "hello");
    vm_compute; reflexivity.
Defined.

(** C4 as stated fails: only one ampersand is removed, and only after the
    line feeds, so a stored value can end in either. The first file holds
    the value [foo&&]; the second one, with CR LF line ends, holds [foo] and
    an ampersand on a line of its own. *)
Lemma template_value_not_stripped :
  (∃ table,
     parseTemplateDat (Reference.text_of ["#K"; "foo&&"; "#Z"]) = Ok table ∧
     table !! "#K" = Some "foo&" ∧
     Str.ends_with "&" "foo&" = true) ∧
  (∃ table,
     parseTemplateDat
       (Reference.text_of ["#K" +:+ String CR ""; "foo" +:+ String CR "";
                           "&" +:+ String CR ""; "#Z" +:+ String CR ""])
     = Ok table ∧
     table !! "#K" = Some ("foo" +:+ String LF "") ∧
     Str.ends_with LF ("foo" +:+ String LF "") = true).
Proof.
  split; eexists; (split; [vm_compute; reflexivity|]); split; vm_compute; reflexivity.
Qed.

End TemplateFacts.

(** ** DUNGEON.TXT *)

Module DungeonFacts.
Import DungeonTxt.

(** A line that does not start with [#] adds no entry. *)
Lemma dungeon_text_line (st st' : state) (line : string) (ch : ascii) :
  String.get 0 line = Some ch → ch ≠ "#"%char →
  body st line = Ok st' → dungeonTxt st' = dungeonTxt st.
Proof.
  intros Hget Hne. unfold body, Str.at_. change (N.to_nat 0) with 0%nat.
  rewrite Hget. simpl.
  destruct (Ascii.eqb_spec ch "#"); [done|].
  by destruct (String.eqb (title st) ""); intros [= <-].
Qed.

(** The entry after the last [#] line is never stored. *)
Lemma dungeon_tail_not_stored (tail : list string) :
  Forall (λ line, ∃ ch, String.get 0 line = Some ch ∧ ch ≠ "#"%char) tail →
  ∀ st st', fold_lines body st tail = Ok st' → dungeonTxt st' = dungeonTxt st.
Proof.
  induction 1 as [|line tail (ch & Hget & Hne) _ IH]; intros st st' Hrun.
  - by injection Hrun as <-.
  - simpl in Hrun. destruct (body st line) as [st1|e] eqn:Hbody; [|done].
    rewrite (IH _ _ Hrun). by eapply dungeon_text_line.
Qed.

End DungeonFacts.

(** ** The last record of a text *)

Module FlushFacts.
Import Reference.

(** The question parser adds the question in progress when the text ends. *)
Lemma questions_flushed (text : string) (questions : list QuestionTxt.CharacterQuestion) :
  QuestionTxt.parseQuestionTxt text = Ok questions →
  ∃ st ca cb cc,
    fold_lines QuestionTxt.body QuestionTxt.initial (getlines text) = Ok st ∧
    questions = QuestionTxt.questionTxt st ++
      [QuestionTxt.mkQuestion (QuestionTxt.description st)
         (QuestionTxt.a st, ca) (QuestionTxt.b st, cb) (QuestionTxt.c st, cc)].
Proof.
  unfold QuestionTxt.parseQuestionTxt, QuestionTxt.addQuestion.
  destruct (fold_lines _ _ _) as [st|e]; [|done]. simpl.
  destruct (QuestionTxt.getCategory (QuestionTxt.a st)) as [ca|]; [|done].
  destruct (QuestionTxt.getCategory (QuestionTxt.b st)) as [cb|]; [|done].
  destruct (QuestionTxt.getCategory (QuestionTxt.c st)) as [cc|]; [|done].
  intros [= <-]. by exists st, ca, cb, cc.
Qed.

(** C1 on three texts that end without a delimiter line: the template
    parser and the dungeon parser return without the last record, the
    question parser returns it. *)
Theorem last_record_only_kept_by_questions :
  TemplateDat.parseTemplateDat (text_of ["#KEY"; "value"]) = Ok ∅ ∧
  DungeonTxt.parseDungeonTxt (text_of ["Title"; "Description"]) = Ok [] ∧
  QuestionTxt.parseQuestionTxt
    (text_of ["1. Question"; "a) first (5l)"; "b) second (5c)"; "c) third (5v)"])
  = Ok [QuestionTxt.mkQuestion ("1. Question" +:+ nl)
          ("a) first (5l)" +:+ nl, Mage)
          ("b) second (5c)" +:+ nl, Thief)
          ("c) third (5v)" +:+ nl, Warrior)].
Proof. repeat split; vm_compute; reflexivity. Qed.

(** With a delimiter line after them, the same records are stored. *)
Lemma record_kept_before_delimiter :
  TemplateDat.parseTemplateDat (text_of ["#KEY"; "value"; "#END"])
    = Ok {["#KEY" := "value"]} ∧
  DungeonTxt.parseDungeonTxt (text_of ["Title"; "Description"; "#"])
    = Ok [("Title", "Description")].
Proof. repeat split; vm_compute; reflexivity. Qed.

End FlushFacts.

(** ** SPELLMKR.TXT *)

Module SpellMakerFacts.
Import SpellMaker Reference.


Lemma set_at_in_range (descriptions : list string) (i : Z) (s : string) :
  0 ≤ i < DESCRIPTION_COUNT →
  set_at descriptions i s = Ok (<[Z.to_nat i := s]> descriptions).
Proof.
  intros Hrange. unfold set_at.
  destruct (Z.leb_spec 0 i), (Z.ltb_spec i DESCRIPTION_COUNT); simpl; try done; lia.
Qed.





(** An index outside the array is fatal once a [#] line follows the block. *)
Lemma spell_maker_out_of_range_flushed :
  parseSpellMakerDescriptions (text_of ["#43"; "def"; "#"]) = Throw OutOfRange ∧
  parseSpellMakerDescriptions (text_of ["#-1"; "def"; "#00"]) = Throw OutOfRange ∧
  parseSpellMakerDescriptions (text_of ["#xy"; "def"; "#00"]) = Throw InvalidArgument.
Proof. repeat split; vm_compute; reflexivity. Qed.

End SpellMakerFacts.

(** ** NAMECHNK.DAT *)

Module NameChunksFacts.
Import NameChunks.

Lemma read_u8_range (srcData : list Byte.byte) (i : N) (v : Z) :
  read_u8 srcData i = Ok v → 0 ≤ v < 256.
Proof.
  unfold read_u8. destruct (srcData !! N.to_nat i) as [b|]; [|done].
  intros [= <-]. pose proof (Byte.to_N_bounded b). lia.
Qed.

Lemma getLE16_inv (srcData : list Byte.byte) (i : N) (v : Z) :
  getLE16 srcData i = Ok v →
  ∃ lo hi, read_u8 srcData i = Ok lo ∧ read_u8 srcData (i + 1) = Ok hi ∧
           v = Z.lor lo (Z.shiftl hi 8).
Proof.
  unfold getLE16.
  destruct (read_u8 srcData i) as [lo|]; [|done].
  destruct (read_u8 srcData (i + 1)) as [hi|]; [|done].
  intros [= <-]. by exists lo, hi.
Qed.

Lemma getLE16_nonneg (srcData : list Byte.byte) (i : N) (v : Z) :
  getLE16 srcData i = Ok v → 0 ≤ v.
Proof.
  intros (lo & hi & Hlo%read_u8_range & Hhi%read_u8_range & ->)%getLE16_inv.
  apply Z.lor_nonneg. split; [lia|]. apply Z.shiftl_nonneg. lia.
Qed.

(** What a successful iteration did. *)
Lemma body_inv (srcData : list Byte.byte) (st st' : state) :
  body srcData st = Ok st' →
  ∃ chunkLength stringCount strings,
    getLE16 srcData (offset st) = Ok chunkLength ∧
    read_u8 srcData (offset st + 2) = Ok stringCount ∧
    read_strings srcData (offset st) 3 (Z.to_nat stringCount) [] = Ok strings ∧
    st' = {| offset := offset st + Z.to_N chunkLength;
             nameChunks := nameChunks st ++ [strings] |}.
Proof.
  unfold body.
  destruct (getLE16 srcData (offset st)) as [chunkLength|]; [|done].
  destruct (read_u8 srcData (offset st + 2)) as [stringCount|]; [|done].
  simpl.
  destruct (read_strings _ _ _ _ _) as [strings|] eqn:Hstrings; [|done].
  intros [= <-]. by exists chunkLength, stringCount, strings.
Qed.

Lemma c_string_fault (bytes : list Byte.byte) (e : exn) :
  c_string bytes = Throw e → e = past_the_end.
Proof.
  induction bytes as [|b bytes IH]; simpl; [by intros [= <-]|].
  destruct (Byte.to_N b =? 0)%N; [done|].
  destruct (c_string bytes); [done|]. intros [= <-]. by apply IH.
Qed.

Lemma read_strings_fault (srcData : list Byte.byte) (chunk : N) (count : nat) :
  ∀ (stringOffset : N) (strings : list string) (e : exn),
    read_strings srcData chunk stringOffset count strings = Throw e →
    e = past_the_end.
Proof.
  induction count as [|count IH]; intros stringOffset strings e; [done|].
  simpl. destruct (string_at srcData (chunk + stringOffset)) as [s|e'] eqn:Hs.
  - apply IH.
  - intros [= <-]. by eapply c_string_fault.
Qed.

Lemma read_u8_fault (srcData : list Byte.byte) (i : N) (e : exn) :
  read_u8 srcData i = Throw e → e = past_the_end.
Proof.
  unfold read_u8. destruct (srcData !! N.to_nat i); [done|]. by intros [= <-].
Qed.

(** An iteration can only fail by a read past the end of the buffer. *)
Lemma body_fault (srcData : list Byte.byte) (st : state) (e : exn) :
  body srcData st = Throw e → e = past_the_end.
Proof.
  unfold body, getLE16.
  destruct (read_u8 srcData (offset st)) as [lo|e1] eqn:H1;
    [|intros [= <-]; by eapply read_u8_fault].
  destruct (read_u8 srcData (offset st + 1)) as [hi|e2] eqn:H2;
    [|intros [= <-]; by eapply read_u8_fault].
  destruct (read_u8 srcData (offset st + 2)) as [n|e3] eqn:H3;
    [|intros [= <-]; by eapply read_u8_fault].
  simpl.
  destruct (read_strings _ _ _ _ _) as [strings|e4] eqn:H4; [done|].
  intros [= <-]. by eapply read_strings_fault.
Qed.

Lemma loop_eq (fuel : nat) (srcData : list Byte.byte) (st : state) :
  loop fuel srcData st =
    if running srcData st then
      match fuel with
      | O => Unfinished st
      | S fuel' =>
          match body srcData st with
          | Ok st' => loop fuel' srcData st'
          | Throw e => Faulted e
          end
      end
    else Finished st.
Proof. by destruct fuel. Qed.

Lemma loop_ends (srcData : list Byte.byte) :
  (∀ o, reached srcData o → getLE16 srcData o ≠ Ok 0) →
  ∀ (fuel : nat) (st : state),
    reached srcData (offset st) →
    (N.of_nat (length srcData) - offset st ≤ N.of_nat fuel)%N →
    ended srcData (loop fuel srcData st).
Proof.
  intros Hnonzero. induction fuel as [|fuel IH]; intros st Hreached Hfuel;
    rewrite loop_eq; unfold running;
    destruct (N.ltb_spec (offset st) (N.of_nat (length srcData))) as [Hlt|Hge];
    try done; simpl.
  - lia.
  - destruct (body srcData st) as [st'|e] eqn:Hbody; [|by eapply body_fault].
    destruct (body_inv _ _ _ Hbody) as (len & n & strings & Hlen & _ & _ & ->).
    pose proof (getLE16_nonneg _ _ _ Hlen) as Hnonneg.
    assert (len ≠ 0) by (intros ->; by eapply Hnonzero).
    apply IH; simpl.
    + by eapply reached_next.
    + lia.
Qed.

(** C3, as the code has it: when no record the loop comes to declares the
    length 0, the loop ends within as many iterations as the buffer has
    bytes, with the cursor at or past the end of the buffer or in a read
    past the end of the buffer. *)
Theorem name_chunks_loop_ends (srcData : list Byte.byte) :
  (∀ o, reached srcData o → getLE16 srcData o ≠ Ok 0) →
  ended srcData (parseNameChunks (length srcData) srcData).
Proof.
  intros Hnonzero. apply loop_ends; [done|apply reached_start|simpl; lia].
Qed.

Lemma ten_bytes_reached (o : N) : reached ten_bytes o → o = 0%N ∨ o = 10%N.
Proof.
  induction 1 as [|o len _ [-> | ->] Hlt Hlen]; [by left| |].
  - injection Hlen as <-. by right.
  - simpl in Hlt. lia.
Qed.

Lemma name_chunks_loop_ends_witness :
  ended ten_bytes (parseNameChunks (length ten_bytes) ten_bytes).
Proof.
  apply name_chunks_loop_ends.
  intros o [-> | ->]%ten_bytes_reached; discriminate.
Defined.

(** C3 as stated fails: a record that declares the length 0 keeps the
    cursor where it is, and the loop reads it again for ever. *)
Lemma zero_length_never_ends :
  ¬ ∃ fuel, terminates (parseNameChunks fuel [Byte.x00; Byte.x00; Byte.x00]) = true.
Proof.
  intros [fuel Hend]. revert Hend. unfold parseNameChunks.
  generalize (nameChunks initial). change (offset initial) with 0%N.
  assert (∀ chunks, terminates
            (loop fuel [Byte.x00; Byte.x00; Byte.x00] (mkState 0 chunks)) = false)
    as Hloop.
  { induction fuel as [|fuel IH]; intros chunks; [done|].
    rewrite loop_eq.
    change (running _ _) with true.
    change (body _ _) with (Ok (mkState 0 (chunks ++ [[]]))).
    apply IH. }
  intros chunks. change initial with (mkState 0 []). by rewrite Hloop.
Qed.

(** C5: an iteration that reads a record with the header [(chunkLength,
    stringCount)] leaves the cursor [chunkLength] bytes after the start of
    the record, whatever the strings it read were; on a buffer of ten bytes
    whose header is [(10, 2)] the first iteration puts the cursor at 10,
    and the loop ends there with one group. *)
Theorem cursor_advances_by_declared_length :
  (∀ (srcData : list Byte.byte) (st : state)
     (chunkLength stringCount : Z) (strings : list string),
     getLE16 srcData (offset st) = Ok chunkLength →
     read_u8 srcData (offset st + 2) = Ok stringCount →
     read_strings srcData (offset st) 3 (Z.to_nat stringCount) [] = Ok strings →
     body srcData st = Ok {| offset := offset st + Z.to_N chunkLength;
                             nameChunks := nameChunks st ++ [strings] |}) ∧
  (∀ (srcData : list Byte.byte) (strings : list string),
     length srcData = 10%nat →
     getLE16 srcData 0 = Ok 10 →
     read_u8 srcData 2 = Ok 2 →
     read_strings srcData 0 3 2 [] = Ok strings →
     body srcData initial = Ok {| offset := 10; nameChunks := [strings] |} ∧
     parseNameChunks 1 srcData = Finished {| offset := 10; nameChunks := [strings] |}).
Proof.
  assert (Hbody : ∀ (srcData : list Byte.byte) (st : state)
            (chunkLength stringCount : Z) (strings : list string),
            getLE16 srcData (offset st) = Ok chunkLength →
            read_u8 srcData (offset st + 2) = Ok stringCount →
            read_strings srcData (offset st) 3 (Z.to_nat stringCount) [] = Ok strings →
            body srcData st = Ok {| offset := offset st + Z.to_N chunkLength;
                                    nameChunks := nameChunks st ++ [strings] |}).
  { intros srcData st chunkLength stringCount strings Hlen Hcount Hstrings.
    unfold body. rewrite Hlen, Hcount. simpl. by rewrite Hstrings. }
  split; [exact Hbody|].
  intros srcData strings Hsize Hlen Hcount Hstrings.
  assert (Hfirst : body srcData initial
                   = Ok {| offset := 10; nameChunks := [strings] |})
    by by apply (Hbody srcData initial 10 2 strings).
  split; [done|].
  unfold parseNameChunks. rewrite loop_eq. unfold running. rewrite Hsize.
  change (offset initial <? N.of_nat 10)%N with true. cbv iota.
  rewrite Hfirst, loop_eq. unfold running. by rewrite Hsize.
Qed.

Lemma cursor_advances_by_declared_length_witness :
  body ten_bytes initial = Ok {| offset := 10; nameChunks := [["ab"; "c"]] |} ∧
  parseNameChunks 1 ten_bytes
    = Finished {| offset := 10; nameChunks := [["ab"; "c"]] |}.
Proof.
  apply (proj2 cursor_advances_by_declared_length ten_bytes ["ab"; "c"]);
    reflexivity.
Defined.

(** The strings may also run over the declared length: the cursor still
    moves by the declared length. Here the header says 4 and the string
    [abc] ends at byte 7. *)
Lemma declared_length_shorter_than_strings :
  body [Byte.x04; Byte.x00; Byte.x01; Byte.x61; Byte.x62; Byte.x63; Byte.x00] initial
    = Ok {| offset := 4; nameChunks := [["abc"]] |}.
Proof. reflexivity. Qed.

End NameChunksFacts.

(** ** NPC names *)

Module NameGenFacts.
Import NameGen.

Lemma sample_ok (chunkList : list string) (r : N) :
  chunkList ≠ [] → ∃ s, sample chunkList r = Ok s ∧ s ∈ chunkList.
Proof.
  intros Hne. unfold sample, vector_at.
  assert (0 < length chunkList)%nat as Hlen by (destruct chunkList; simpl; [done|lia]).
  destruct (Nat.eqb_spec (length chunkList) 0); [lia|].
  pose proof (Z.mod_pos_bound (Z.of_N r) (Z.of_nat (length chunkList)) ltac:(lia)) as Hmod.
  destruct (Z.ltb_spec (Z.of_N r mod Z.of_nat (length chunkList)) 0); [lia|].
  destruct (lookup_lt_is_Some_2 chunkList
              (Z.to_nat (Z.of_N r mod Z.of_nat (length chunkList))) ltac:(lia))
    as [s Hs].
  rewrite Hs. exists s. split; [done|]. by eapply list_elem_of_lookup_2.
Qed.

(** A served rule is evaluated without an exception and makes [drawsOf]
    calls. *)
Lemma body_ok (nameChunks : list (list string)) (draws : generator)
    (name : string) (calls : nat) (rule : NameRule) :
  served nameChunks rule →
  ∃ name', body nameChunks draws (name, calls) rule
           = Ok (name', (calls + drawsOf draws calls rule)%nat).
Proof.
  destruct rule as [index|str|index chance|index str chance]; simpl.
  - intros (chunkList & -> & Hne). simpl.
    destruct (sample_ok chunkList (draws calls) Hne) as (s & -> & _). simpl.
    exists (name +:+ s). do 2 f_equal. lia.
  - intros _. exists (name +:+ str). do 2 f_equal. lia.
  - intros (chunkList & -> & Hne). simpl. unfold passes.
    destruct (Z.of_N (draws calls mod 100) <=? chance).
    + destruct (sample_ok chunkList (draws (S calls)) Hne) as (s & -> & _). simpl.
      exists (name +:+ s). do 2 f_equal. lia.
    + exists name. do 2 f_equal. lia.
  - intros (chunkList & -> & Hne). simpl. unfold passes.
    destruct (Z.of_N (draws calls mod 100) <=? chance).
    + destruct (sample_ok chunkList (draws (S calls)) Hne) as (s & -> & _). simpl.
      exists (name +:+ s +:+ str). do 2 f_equal. lia.
    + exists name. do 2 f_equal. lia.
Qed.

(** What a chance-gated rule does, read off a successful evaluation. *)
Lemma body_gated (nameChunks : list (list string)) (draws : generator)
    (name name' : string) (calls calls' : nat) (index chance : Z) (str : string)
    (rule : NameRule) :
  rule = IndexChance index chance ∧ str = "" ∨
  rule = IndexStringChance index str chance →
  body nameChunks draws (name, calls) rule = Ok (name', calls') →
  (Z.of_N (draws calls mod 100) ≤ chance ∧ calls' = S (S calls) ∧
   ∃ chunkList s, vector_at nameChunks index = Ok chunkList ∧
                  sample chunkList (draws (S calls)) = Ok s ∧
                  name' = name +:+ s +:+ str) ∨
  (chance < Z.of_N (draws calls mod 100) ∧ calls' = S calls ∧ name' = name).
Proof.
  intros [[-> ->] | ->]; simpl;
    (destruct (vector_at nameChunks index) as [chunkList|]; [|done]); simpl;
    (destruct (Z.leb_spec (Z.of_N (draws calls mod 100)) chance) as [Hle|Hgt];
     [|intros [= <- <-]; right; by repeat split]);
    (destruct (sample chunkList (draws (S calls))) as [s|] eqn:Hs; [|done]); simpl;
    intros [= <- <-]; left; (repeat split; [done|]);
    exists chunkList, s; repeat split; try done.
  by rewrite StrFacts.app_empty_r.
Qed.

Lemma applyRules_cons (nameChunks : list (list string)) (draws : generator)
    (st : state) (rule : NameRule) (rules : list NameRule) :
  applyRules nameChunks draws st (rule :: rules) =
  st' ← body nameChunks draws st rule; applyRules nameChunks draws st' rules.
Proof. reflexivity. Qed.

Lemma applyRules_ok (nameChunks : list (list string)) (draws : generator)
    (rules : list NameRule) :
  Forall (served nameChunks) rules →
  ∀ (name : string) (calls : nat),
    ∃ name', applyRules nameChunks draws (name, calls) rules
             = Ok (name', (calls + drawsOfRules draws calls rules)%nat).
Proof.
  induction 1 as [|rule rules Hrule _ IH]; intros name calls.
  - exists name. simpl. do 2 f_equal. lia.
  - rewrite applyRules_cons.
    destruct (body_ok nameChunks draws name calls rule Hrule) as [name1 ->].
    change (Ok ?st ≫= ?k) with (k st). cbv beta.
    destruct (IH name1 (calls + drawsOf draws calls rule)%nat) as [name' ->].
    exists name'. do 2 f_equal. simpl. lia.
Qed.

(** The number of calls lies between the number of references and the
    count of the specification. *)
Lemma drawsOfRules_le_claimed (draws : generator) (rules : list NameRule) :
  ∀ calls, (drawsOfRules draws calls rules ≤ drawsClaimed rules)%nat.
Proof.
  induction rules as [|rule rules IH]; intros calls; [done|].
  unfold drawsClaimed in *. simpl.
  specialize (IH (calls + drawsOf draws calls rule)%nat).
  destruct rule; simpl in *; try destruct (passes _ _ _); lia.
Qed.

(** C2, as the code has it. For a rule list the chunk table can serve,
    the loop returns a name, and it has then called [next()] once per plain
    reference, once per chance-gated rule for the threshold, and once more
    for each chance-gated rule whose threshold test passed. For a
    chance-gated rule the sampled string (and the rule's text) is appended
    exactly when the threshold call modulo 100 is at most the chance; the
    chunk index is only drawn in that case. *)
Theorem applyRules_draws (nameChunks : list (list string)) (draws : generator)
    (rules : list NameRule) (name : string) (calls : nat) :
  Forall (served nameChunks) rules →
  (∃ name', applyRules nameChunks draws (name, calls) rules
            = Ok (name', (calls + drawsOfRules draws calls rules)%nat)) ∧
  (∀ (rule : NameRule) (index chance : Z) (str name0 name1 : string) (calls0 calls1 : nat),
     rule = IndexChance index chance ∧ str = "" ∨
     rule = IndexStringChance index str chance →
     body nameChunks draws (name0, calls0) rule = Ok (name1, calls1) →
     (Z.of_N (draws calls0 mod 100) ≤ chance ∧ calls1 = S (S calls0) ∧
      ∃ chunkList s, vector_at nameChunks index = Ok chunkList ∧
                     sample chunkList (draws (S calls0)) = Ok s ∧
                     name1 = name0 +:+ s +:+ str) ∨
     (chance < Z.of_N (draws calls0 mod 100) ∧ calls1 = S calls0 ∧ name1 = name0)).
Proof.
  intros Hserved. split.
  - by apply applyRules_ok.
  - intros rule index chance str name0 name1 calls0 calls1. apply body_gated.
Qed.

Lemma one_each_serves_table :
  Forall (Forall (served one_each)) NameRules.
Proof.
  repeat constructor;
    (eexists; split; [vm_compute; reflexivity|discriminate]).
Qed.

Lemma applyRules_draws_witness :
  ∃ name', applyRules one_each (λ _, 75%N) ("", 0%nat)
             [Index 6; Index 7; Index 8; IndexChance 9 75]
           = Ok (name', 5%nat).
Proof.
  apply (proj1 (applyRules_draws one_each (λ _, 75%N)
                  [Index 6; Index 7; Index 8; IndexChance 9 75] "" 0%nat
                  ltac:(repeat constructor;
                        (eexists; split; [vm_compute; reflexivity|discriminate])))).
Defined.

(** C2 as stated fails: when the threshold test of a chance-gated rule
    fails, the rule has made one call, not two. With the threshold call
    returning 80 against a chance of 75, the rule list of one chance-gated
    rule makes one call, and the name of a male of race 1 takes four calls,
    where the specification counts two and five. *)
Lemma failed_threshold_draws_once :
  applyRules [["x"]] (λ _, 80%N) ("", 0%nat) [IndexChance 0 75] = Ok ("", 1%nat) ∧
  drawsClaimed [IndexChance 0 75] = 2%nat ∧
  generateNpcName one_each 1 true (λ _, 80%N) 0 = Ok ("xxx", 4%nat) ∧
  (∃ rules, vector_at NameRules (1 * 2 + 0) = Ok rules ∧ drawsClaimed rules = 5%nat).
Proof.
  repeat split; try (vm_compute; reflexivity).
  eexists. split; vm_compute; reflexivity.
Qed.

(** [generateNpcName] on the table: every race and gender is served by a
    chunk table with the 58 groups, and the calls are those of its rules. *)
Lemma generateNpcName_draws (nameChunks : list (list string))
    (raceID : Z) (isMale : bool) (draws : generator) (calls : nat) :
  0 ≤ raceID < 24 →
  Forall (Forall (served nameChunks)) NameRules →
  ∃ rules name,
    vector_at NameRules (raceID * 2 + (if isMale then 0 else 1)) = Ok rules ∧
    generateNpcName nameChunks raceID isMale draws calls
      = Ok (name, (calls + drawsOfRules draws calls rules)%nat).
Proof.
  intros Hrace Hserved. unfold generateNpcName.
  set (i := raceID * 2 + (if isMale then 0 else 1)).
  assert (0 ≤ i < 48) as Hi by (subst i; destruct isMale; lia).
  unfold vector_at at 1 2.
  destruct (Z.ltb_spec i 0); [lia|].
  destruct (lookup_lt_is_Some_2 NameRules (Z.to_nat i)) as [rules Hrules].
  { change (length NameRules) with 48%nat. lia. }
  rewrite Hrules. simpl.
  assert (Forall (served nameChunks) rules) as Hrule.
  { eapply Forall_lookup_1; [exact Hserved|exact Hrules]. }
  destruct (applyRules_ok nameChunks draws rules Hrule "" calls) as [name Hname].
  by exists rules, name.
Qed.

End NameGenFacts.

(** ** TERRAIN.IMG *)

Module TerrainFacts.
Import WorldMapTerrain.

(** [Ok a ≫= k] is [k a]. *)
Ltac bind_ok := change (Ok ?a ≫= ?k) with (k a); cbv beta.

Section InImage.

Context `{TerrainConstants}.

(** The image is at least 12 pixels wide and 200 pixels high, so that the
    plus pattern of radius 199 around a pixel of the image wraps at most
    once. *)
Hypothesis wide : 12 ≤ WIDTH.
Hypothesis high : 200 ≤ HEIGHT.

(** When the index before wrapping is less than one image away from the
    image, the lambda reads the pixel of the specification. *)
Lemma getTerrainAt_shifted (terrain : t) (x y : Z) :
  - (WIDTH * HEIGHT) ≤ x + y * WIDTH - 12 < 2 * (WIDTH * HEIGHT) →
  getTerrainAt terrain x y = Ok (shifted terrain x y).
Proof.
  intros Hrange. unfold getTerrainAt, shifted, indices_at.
  assert (0 < WIDTH * HEIGHT) as Hpos by nia.
  set (pixelCount := WIDTH * HEIGHT) in *.
  set (i := x + y * WIDTH - 12) in *.
  destruct (Z.ltb_spec i 0) as [Hneg|Hnonneg].
  - rewrite <- (Z.mod_unique i pixelCount (-1) (i + pixelCount)) by lia.
    destruct (Z.leb_spec 0 (i + pixelCount)), (Z.ltb_spec (i + pixelCount) pixelCount);
      simpl; try done; lia.
  - destruct (Z.geb_spec i pixelCount) as [Hbig|Hsmall].
    + rewrite <- (Z.mod_unique i pixelCount 1 (i - pixelCount)) by lia.
      destruct (Z.leb_spec 0 (i - pixelCount)), (Z.ltb_spec (i - pixelCount) pixelCount);
        simpl; try done; lia.
    + rewrite (Z.mod_small i pixelCount) by lia.
      destruct (Z.leb_spec 0 i), (Z.ltb_spec i pixelCount); simpl; try done; lia.
Qed.

Variables (x y : Z).
Hypothesis x_in_image : 0 ≤ x < WIDTH.
Hypothesis y_in_image : 0 ≤ y < HEIGHT.

Lemma pixel_centre (terrain : t) :
  getTerrainAt terrain x y = Ok (shifted terrain x y).
Proof. apply getTerrainAt_shifted. nia. Qed.

Lemma pixel_below (terrain : t) (dist : Z) :
  1 ≤ dist ≤ 199 →
  getTerrainAt terrain x (y + dist) = Ok (shifted terrain x (y + dist)).
Proof. intros Hdist. apply getTerrainAt_shifted. nia. Qed.

Lemma pixel_above (terrain : t) (dist : Z) :
  1 ≤ dist ≤ 199 →
  getTerrainAt terrain x (y - dist) = Ok (shifted terrain x (y - dist)).
Proof. intros Hdist. apply getTerrainAt_shifted. nia. Qed.

Lemma pixel_right (terrain : t) (dist : Z) :
  1 ≤ dist ≤ 199 →
  getTerrainAt terrain (x + dist) y = Ok (shifted terrain (x + dist) y).
Proof. intros Hdist. apply getTerrainAt_shifted. nia. Qed.

Lemma pixel_left (terrain : t) (dist : Z) :
  1 ≤ dist ≤ 199 →
  getTerrainAt terrain (x - dist) y = Ok (shifted terrain (x - dist) y).
Proof. intros Hdist. apply getTerrainAt_shifted. nia. Qed.

(** One iteration of the loop. *)
Lemma failSafeLoop_step (terrain : t) (count : nat) (dist : Z) :
  1 ≤ dist ≤ 199 →
  failSafeLoop terrain x y (S count) dist =
    match List.find not_sea
            [shifted terrain x (y + dist); shifted terrain x (y - dist);
             shifted terrain (x + dist) y; shifted terrain (x - dist) y] with
    | Some pixel => Ok pixel
    | None => failSafeLoop terrain x y count (dist + 1)
    end.
Proof.
  intros Hdist.
  change (failSafeLoop terrain x y (S count) dist) with
    (below ← getTerrainAt terrain x (y + dist);
     above ← getTerrainAt terrain x (y - dist);
     right ← getTerrainAt terrain (x + dist) y;
     left ← getTerrainAt terrain (x - dist) y;
     match List.find not_sea [below; above; right; left] with
     | Some pixel => Ok pixel
     | None => failSafeLoop terrain x y count (dist + 1)
     end).
  by rewrite pixel_below, pixel_above, pixel_right, pixel_left.
Qed.

(** The loop scans the plus pattern in the order of the specification. *)
Lemma failSafeLoop_scan (terrain : t) (count : nat) :
  ∀ dist : nat,
    (1 ≤ dist)%nat → (dist + count ≤ 200)%nat →
    failSafeLoop terrain x y count (Z.of_nat dist) =
      Ok (match List.find not_sea
                  (map (λ p : Z * Z, shifted terrain p.1 p.2)
                     (flat_map (plus x y) (map Z.of_nat (seq dist count)))) with
          | Some pixel => pixel
          | None => TEMPERATE1
          end).
Proof.
  induction count as [|count IH]; intros dist Hlow Hhigh; [done|].
  rewrite failSafeLoop_step by lia.
  replace (Z.of_nat dist + 1) with (Z.of_nat (S dist)) by lia.
  rewrite IH by lia.
  change (seq dist (S count)) with (dist :: seq (S dist) count).
  cbn [map flat_map plus app List.find fst snd].
  repeat (destruct (not_sea _); [done|]). done.
Qed.

(** C6, as the code has it, for a coordinate of the image: the pixel 12
    places to the left (modulo the pixel count) when it is not sea;
    otherwise the first pixel that is not sea in the plus pattern, scanned
    below, above, right, left at the radii 1 to 199; the first temperate
    index when there is none. When the pixel, its four neighbours at radius
    1 and the pixel below at radius 2 are sea, and the pixel above at radius
    2 is not, the result is that pixel. *)
Theorem getFailSafeAt_in_image (terrain : t) :
  getFailSafeAt terrain x y = Ok (fail_safe terrain x y) ∧
  (∀ mountain : Z,
     mountain ≠ SEA →
     shifted terrain x y = SEA →
     shifted terrain x (y + 1) = SEA → shifted terrain x (y - 1) = SEA →
     shifted terrain (x + 1) y = SEA → shifted terrain (x - 1) y = SEA →
     shifted terrain x (y + 2) = SEA →
     shifted terrain x (y - 2) = mountain →
     getFailSafeAt terrain x y = Ok mountain).
Proof.
  assert (Hsea : not_sea SEA = false).
  { unfold not_sea. by rewrite Z.eqb_refl. }
  split.
  - unfold getFailSafeAt, fail_safe. rewrite pixel_centre. bind_ok.
    destruct (negb (shifted terrain x y =? SEA)); [done|].
    apply (failSafeLoop_scan terrain 199 1); lia.
  - intros mountain Hmountain Hcentre Hb1 Ha1 Hr1 Hl1 Hb2 Ha2.
    unfold getFailSafeAt. rewrite pixel_centre. bind_ok.
    rewrite Hcentre, Z.eqb_refl. cbn [negb].
    rewrite failSafeLoop_step by lia.
    rewrite Hb1, Ha1, Hr1, Hl1. cbn [List.find]. rewrite Hsea.
    rewrite failSafeLoop_step by lia.
    change (1 + 1) with 2. rewrite Hb2, Ha2. cbn [List.find]. rewrite Hsea.
    unfold not_sea at 1. by destruct (Z.eqb_spec mountain SEA).
Qed.

End InImage.

Lemma getFailSafeAt_in_image_witness :
  getFailSafeAt all_sea 0 0 = Ok (fail_safe all_sea 0 0) ∧
  getFailSafeAt (mk (λ i, if i =? 100 + 98 * 320 - 12 then 249 else 248)) 100 100
    = Ok 249.
Proof.
  split.
  - apply (proj1 (getFailSafeAt_in_image (H := Reference.terrain_constants)
             ltac:(simpl; lia) ltac:(simpl; lia) 0 0
             ltac:(simpl; lia) ltac:(simpl; lia) all_sea)).
  - apply (proj2 (getFailSafeAt_in_image (H := Reference.terrain_constants)
             ltac:(simpl; lia) ltac:(simpl; lia) 100 100
             ltac:(simpl; lia) ltac:(simpl; lia)
             (mk (λ i, if i =? 100 + 98 * 320 - 12 then 249 else 248))) 249);
      vm_compute; congruence.
Defined.

(** C6 as stated fails in two ways. Away from the image the index is
    wrapped once only, and [at] throws: (0, 401) is such a coordinate. And
    the pixel above at radius 2 is returned only when the one below at
    radius 2 is sea, because below is looked at first: around (100, 100) of
    [two_islands] all of radius 1 is sea, the pixel above at radius 2 is 249,
    and the result is the 253 below. *)
Lemma getFailSafeAt_counterexamples :
  getFailSafeAt all_sea 0 401 = Throw OutOfRange ∧
  (shifted two_islands 100 100 = SEA ∧
   shifted two_islands 100 101 = SEA ∧ shifted two_islands 100 99 = SEA ∧
   shifted two_islands 101 100 = SEA ∧ shifted two_islands 99 100 = SEA ∧
   shifted two_islands 100 98 = 249 ∧
   getFailSafeAt two_islands 100 100 = Ok 253).
Proof. repeat split; vm_compute; reflexivity. Qed.

(** With every pixel sea, the default is returned. *)
Lemma getFailSafeAt_all_sea :
  getFailSafeAt all_sea 160 100 = Ok TEMPERATE1.
Proof. vm_compute. reflexivity. Qed.

End TerrainFacts.

(** * Properties of the further functions *)

(** ** Strings written to a buffer and read back *)

Module EncodingFacts.
Import Encoding NameChunks.

Lemma to_N_byte_of_ascii (ch : ascii) :
  Byte.to_N (byte_of_ascii ch) = N_of_ascii ch.
Proof. apply Byte.to_of_N. symmetry. apply byte_of_ascii_via_N. Qed.

Lemma to_N_byte_of_N (n : N) :
  (n < 256)%N → Byte.to_N (byte_of_N n) = n.
Proof.
  intros Hn. unfold byte_of_N.
  by rewrite to_N_byte_of_ascii, N_ascii_embedding.
Qed.

Lemma N_of_ascii_zero (ch : ascii) : N_of_ascii ch = 0%N → ch = Ascii.zero.
Proof.
  intros Hzero. rewrite <- (ascii_N_embedding ch). by rewrite Hzero.
Qed.

Lemma length_encode_string (s : string) :
  length (encode_string s) = S (String.length s).
Proof.
  unfold encode_string. rewrite length_app, length_map. simpl.
  induction s as [|ch s IH]; simpl in *; lia.
Qed.

(** A string that was written is read back, whatever follows it. *)
Lemma c_string_encode (s : string) (rest : list Byte.byte) :
  NUL_free s → c_string (encode_string s ++ rest) = Ok s.
Proof.
  unfold NUL_free, encode_string.
  induction s as [|ch s IH]; intros Hfree; [done|].
  apply Forall_cons in Hfree as [Hch Hfree].
  change (c_string (byte_of_ascii ch ::
            (map byte_of_ascii (list_ascii_of_string s) ++ [Byte.x00]) ++ rest)
          = Ok (String ch s)).
  cbn [c_string].
  rewrite to_N_byte_of_ascii.
  destruct (N.eqb_spec (N_of_ascii ch) 0) as [Hzero|_].
  - by apply N_of_ascii_zero in Hzero.
  - rewrite (IH Hfree). simpl. by rewrite ascii_of_byte_of_ascii.
Qed.

Lemma string_at_app (pre l : list Byte.byte) (i : N) :
  N.to_nat i = length pre → string_at (pre ++ l) i = c_string l.
Proof.
  intros Hi. unfold string_at. rewrite Hi. by rewrite drop_app_length.
Qed.

Lemma read_u8_app (pre l : list Byte.byte) (i : N) (k : nat) (b : Byte.byte) :
  N.to_nat i = (length pre + k)%nat → l !! k = Some b →
  read_u8 (pre ++ l) i = Ok (Z.of_N (Byte.to_N b)).
Proof.
  intros Hi Hb. unfold read_u8. rewrite Hi.
  rewrite lookup_app_r by lia.
  replace (length pre + k - length pre)%nat with k by lia.
  by rewrite Hb.
Qed.

(** The inner loop of [parseNameChunks] reads back the strings that were
    written at its start position. *)
Lemma read_strings_encode (strs : list string) :
  ∀ (pre rest : list Byte.byte) (chunk stringOffset : N) (acc : list string),
    Forall NUL_free strs →
    N.to_nat (chunk + stringOffset) = length pre →
    read_strings (pre ++ encode_strings strs ++ rest) chunk stringOffset
      (length strs) acc = Ok (acc ++ strs).
Proof.
  induction strs as [|s strs IH]; intros pre rest chunk stringOffset acc Hfree Hpos.
  - simpl. by rewrite app_nil_r.
  - apply Forall_cons in Hfree as [Hs Hfree].
    change (encode_strings (s :: strs)) with (encode_string s ++ encode_strings strs).
    cbn [length read_strings].
    rewrite <- (app_assoc (encode_string s)).
    rewrite (string_at_app pre) by done.
    rewrite c_string_encode by done.
    change (Ok s ≫= ?k) with (k s). cbv beta.
    rewrite (app_assoc pre).
    rewrite IH; [by rewrite <- app_assoc| done |].
    rewrite length_app, length_encode_string. unfold Str.size. lia.
Qed.

(** The header's two length bytes give the length back. *)
Lemma lor_bytes (len : Z) :
  0 ≤ len < 65536 →
  Z.lor (len mod 256) (Z.shiftl (len / 256) 8) = len.
Proof.
  intros Hlen.
  rewrite <- Z.add_nocarry_lor.
  - rewrite Z.shiftl_mul_pow2 by lia. change (2 ^ 8) with 256.
    pose proof (Z.div_mod len 256 ltac:(lia)). lia.
  - apply Z.bits_inj'. intros n Hn.
    rewrite Z.land_spec, Z.bits_0.
    destruct (Z.lt_ge_cases n 8) as [Hlow|Hhigh].
    + rewrite (Z.shiftl_spec_low _ _ _ Hlow). apply andb_false_r.
    + change 256 with (2 ^ 8).
      rewrite Z.mod_pow2_bits_high by lia. done.
Qed.

Lemma length_encode_chunk (chunk : list string * list Byte.byte) :
  length (encode_chunk chunk) = chunk_length chunk.1 chunk.2.
Proof.
  destruct chunk as [strings padding]. unfold encode_chunk, chunk_length.
  cbn [fst snd]. rewrite !length_app. simpl. lia.
Qed.

(** One iteration on a record that was written at the cursor. *)
Lemma body_encode (pre rest : list Byte.byte)
    (chunk : list string * list Byte.byte) (st : state) :
  encodable chunk →
  N.to_nat (offset st) = length pre →
  body (pre ++ encode_chunk chunk ++ rest) st =
    Ok {| offset := offset st + N.of_nat (chunk_length chunk.1 chunk.2);
          nameChunks := nameChunks st ++ [chunk.1] |}.
Proof.
  destruct chunk as [strings padding]. intros (Hfree & Hcount & Hlen) Hpos.
  cbn [fst snd] in *.
  set (len := N.of_nat (chunk_length strings padding)) in *.
  unfold encode_chunk. fold len.
  set (b0 := byte_of_N (len mod 256)).
  set (b1 := byte_of_N (len / 256)).
  set (b2 := byte_of_N (N.of_nat (length strings))).
  set (tail := (encode_strings strings ++ padding) ++ rest).
  assert (Hsrc : pre ++ ([b0; b1; b2] ++ encode_strings strings ++ padding) ++ rest
                 = pre ++ [b0; b1; b2] ++ tail).
  { unfold tail. by rewrite <- !app_assoc. }
  rewrite Hsrc.
  unfold body, getLE16.
  rewrite (read_u8_app pre _ (offset st) 0 b0) by (done || lia).
  rewrite (read_u8_app pre _ (offset st + 1) 1 b1) by (done || lia).
  rewrite (read_u8_app pre _ (offset st + 2) 2 b2) by (done || lia).
  change (Ok ?a ≫= ?k) with (k a). cbv beta.
  change (Ok ?a ≫= ?k) with (k a). cbv beta.
  change (Ok ?a ≫= ?k) with (k a). cbv beta.
  change (Ok ?a ≫= ?k) with (k a). cbv beta.
  unfold b0, b1, b2.
  rewrite !to_N_byte_of_N;
    [| lia | apply N.Div0.div_lt_upper_bound; lia | apply N.mod_lt; lia].
  rewrite N2Z.inj_mod, N2Z.inj_div. change (Z.of_N 256) with 256.
  rewrite lor_bytes by lia.
  rewrite N2Z.id, nat_N_Z, Nat2Z.id.
  replace (pre ++ [byte_of_N (len mod 256); byte_of_N (len / 256);
                   byte_of_N (N.of_nat (length strings))] ++ tail)
    with ((pre ++ [byte_of_N (len mod 256); byte_of_N (len / 256);
                   byte_of_N (N.of_nat (length strings))])
          ++ encode_strings strings ++ (padding ++ rest))
    by (unfold tail; by rewrite <- !app_assoc).
  rewrite read_strings_encode; [done|done|].
  rewrite length_app. simpl. lia.
Qed.

Lemma loop_encode (chunks : list (list string * list Byte.byte)) :
  ∀ (pre : list Byte.byte) (st : state),
    Forall encodable chunks →
    N.to_nat (offset st) = length pre →
    loop (length chunks) (pre ++ concat (map encode_chunk chunks)) st =
      Finished {| offset := offset st
                    + N.of_nat (length (concat (map encode_chunk chunks)));
                  nameChunks := nameChunks st ++ map fst chunks |}.
Proof.
  induction chunks as [|chunk chunks IH]; intros pre st Hok Hpos.
  - cbn [length map concat]. rewrite NameChunksFacts.loop_eq. unfold running.
    rewrite !app_nil_r.
    destruct (N.ltb_spec (offset st) (N.of_nat (length pre))); [lia|].
    destruct st. simpl. by rewrite N.add_0_r.
  - apply Forall_cons in Hok as [Hchunk Hok].
    cbn [length map concat].
    rewrite NameChunksFacts.loop_eq. unfold running.
    pose proof (length_encode_chunk chunk) as Hlen.
    destruct (N.ltb_spec (offset st)
                (N.of_nat (length (pre ++ encode_chunk chunk
                                   ++ concat (map encode_chunk chunks)))))
      as [_|Hge].
    2: { rewrite !length_app in Hge. unfold chunk_length in Hlen. lia. }
    rewrite body_encode by done.
    rewrite (app_assoc pre).
    rewrite IH; [|done|cbn [offset]; rewrite length_app; lia].
    cbn [offset nameChunks]. f_equal. f_equal.
    + rewrite length_app. lia.
    + by rewrite <- app_assoc.
Qed.

(** X1. Round trip of NAMECHNK.DAT: a file written as a sequence of records
    (length, count, strings, padding), each within what its header can
    express, is decoded into the groups of strings that were written, in the
    order of the file, in one iteration per record, and the cursor ends at
    the end of the file. *)
Theorem parseNameChunks_round_trip (chunks : list (list string * list Byte.byte)) :
  Forall encodable chunks →
  parseNameChunks (length chunks) (concat (map encode_chunk chunks)) =
    Finished {| offset := N.of_nat (length (concat (map encode_chunk chunks)));
                nameChunks := map fst chunks |}.
Proof.
  intros Hok. unfold parseNameChunks.
  apply (loop_encode chunks [] initial Hok eq_refl).
Qed.

Lemma parseNameChunks_round_trip_witness :
  parseNameChunks 2
    (concat (map encode_chunk [(["ab"; "c"], [Byte.x00; Byte.x00]); (["xyz"], [])]))
  = Finished {| offset := 17; nameChunks := [["ab"; "c"]; ["xyz"]] |}.
Proof.
  apply (parseNameChunks_round_trip
           [(["ab"; "c"], [Byte.x00; Byte.x00]); (["xyz"], [])]).
  repeat constructor; try discriminate; vm_compute; reflexivity.
Defined.

End EncodingFacts.

(** ** ARTFACT1.DAT, ARTFACT2.DAT and the trade texts *)

Module TextBlocksFacts.
Import Encoding TextBlocks TextBlocksSamples EncodingFacts.

Ltac bind_ok := change (Ok ?a ≫= ?k) with (k a); cbv beta iota.

Lemma encode_strings_app (l1 l2 : list string) :
  encode_strings (l1 ++ l2) = encode_strings l1 ++ encode_strings l2.
Proof. unfold encode_strings. by rewrite map_app, concat_app. Qed.

(** Reading the strings that were written at [stringPtr]. *)
Lemma read_array_encode (strs : list string) :
  ∀ (pre rest : list Byte.byte) (stringPtr : N),
    Forall NUL_free strs →
    N.to_nat stringPtr = length pre →
    read_array (pre ++ encode_strings strs ++ rest) stringPtr (length strs) =
      Ok (strs, (stringPtr + N.of_nat (length (encode_strings strs)))%N).
Proof.
  induction strs as [|s strs IH]; intros pre rest stringPtr Hfree Hpos.
  - simpl. by rewrite N.add_0_r.
  - apply Forall_cons in Hfree as [Hs Hfree].
    change (encode_strings (s :: strs)) with (encode_string s ++ encode_strings strs).
    cbn [read_array length].
    rewrite <- (app_assoc (encode_string s)).
    rewrite (string_at_app pre) by done.
    rewrite c_string_encode by done. bind_ok.
    rewrite (app_assoc pre).
    rewrite IH; [|done|rewrite length_app, length_encode_string; unfold Str.size; lia].
    bind_ok. do 2 f_equal.
    rewrite length_app, length_encode_string. unfold Str.size. lia.
Qed.

Lemma initStringArray_encode (strs : list string)
    (pre rest : list Byte.byte) (stringPtr : N) :
  length strs = 3%nat → Forall NUL_free strs →
  N.to_nat stringPtr = length pre →
  initStringArray (pre ++ encode_strings strs ++ rest) stringPtr =
    Ok (strs, (stringPtr + N.of_nat (length (encode_strings strs)))%N).
Proof.
  intros Hlen. unfold initStringArray. rewrite <- Hlen. apply read_array_encode.
Qed.

(** A block that was written at [stringPtr] is read back. *)
Lemma read_block_encode (block : ArtifactTavernText)
    (pre rest : list Byte.byte) (stringPtr : N) :
  well_formed block →
  N.to_nat stringPtr = length pre →
  read_block (pre ++ encode_strings (block_strings block) ++ rest) stringPtr =
    Ok (block,
        (stringPtr + N.of_nat (length (encode_strings (block_strings block))))%N).
Proof.
  destruct block as [a b c d e].
  unfold well_formed, block_strings. cbn [greetingStrs barterSuccessStrs
    offerRefusedStrs barterFailureStrs counterOfferStrs].
  intros (Ha & Hb & Hc & Hd & He & Hfree) Hpos.
  apply Forall_app in Hfree as [Fa Hfree].
  apply Forall_app in Hfree as [Fb Hfree].
  apply Forall_app in Hfree as [Fc Hfree].
  apply Forall_app in Hfree as [Fd Fe].
  rewrite !encode_strings_app, <- !app_assoc.
  unfold read_block.
  rewrite (initStringArray_encode a pre) by done. bind_ok.
  rewrite (app_assoc pre).
  rewrite (initStringArray_encode b) by (done || (rewrite length_app; lia)). bind_ok.
  rewrite (app_assoc (pre ++ _)).
  rewrite (initStringArray_encode c) by (done || (rewrite !length_app; lia)). bind_ok.
  rewrite (app_assoc ((pre ++ _) ++ _)).
  rewrite (initStringArray_encode d) by (done || (rewrite !length_app; lia)). bind_ok.
  rewrite (app_assoc (((pre ++ _) ++ _) ++ _)).
  rewrite (initStringArray_encode e) by (done || (rewrite !length_app; lia)). bind_ok.
  do 2 f_equal. rewrite !length_app. lia.
Qed.

Lemma read_blocks_encode (blocks : list ArtifactTavernText) :
  ∀ (pre rest : list Byte.byte) (stringPtr : N),
    Forall well_formed blocks →
    N.to_nat stringPtr = length pre →
    read_blocks
      (pre ++ encode_strings (concat (map block_strings blocks)) ++ rest)
      stringPtr (length blocks) =
    Ok (blocks,
        (stringPtr
         + N.of_nat (length (encode_strings (concat (map block_strings blocks)))))%N).
Proof.
  induction blocks as [|block blocks IH]; intros pre rest stringPtr Hwf Hpos.
  - simpl. by rewrite N.add_0_r.
  - apply Forall_cons in Hwf as [Hblock Hwf].
    cbn [map concat length read_blocks].
    rewrite encode_strings_app, <- app_assoc.
    rewrite read_block_encode by done. bind_ok.
    rewrite (app_assoc pre).
    rewrite IH by (done || (rewrite length_app; lia)). bind_ok.
    do 2 f_equal. rewrite length_app. lia.
Qed.

(** X2. Round trip of an artifact text file: sixteen well-formed blocks,
    written as their 240 strings one after the other, are read back as they
    were, whatever follows them in the file. *)
Theorem loadArtifactText_round_trip (blocks : list ArtifactTavernText)
    (rest : list Byte.byte) :
  length blocks = 16%nat →
  Forall well_formed blocks →
  loadArtifactText (encode_strings (concat (map block_strings blocks)) ++ rest)
    = Ok blocks.
Proof.
  intros Hlen Hwf. unfold loadArtifactText. rewrite <- Hlen.
  pose proof (read_blocks_encode blocks [] rest 0 Hwf eq_refl) as Hread.
  rewrite app_nil_l in Hread. rewrite Hread. by bind_ok.
Qed.

Lemma sample_block_well_formed : well_formed sample_block.
Proof.
  repeat split; repeat constructor; discriminate.
Qed.

Lemma loadArtifactText_round_trip_witness :
  loadArtifactText
    (encode_strings (concat (map block_strings (replicate 16 sample_block)))
     ++ [Byte.x07; Byte.x00])
  = Ok (replicate 16 sample_block).
Proof.
  apply (loadArtifactText_round_trip (replicate 16 sample_block)
           [Byte.x07; Byte.x00]).
  - reflexivity.
  - apply Forall_replicate, sample_block_well_formed.
Defined.

(** *** What a successful read says of the buffer *)

Lemma byte_zero (b : Byte.byte) : Byte.to_N b = 0%N → b = Byte.x00.
Proof.
  intros Hzero. pose proof (Byte.of_to_N b) as Hof. rewrite Hzero in Hof.
  by injection Hof.
Qed.

Lemma c_string_inv (l : list Byte.byte) :
  ∀ s, NameChunks.c_string l = Ok s →
       NUL_free s ∧ ∃ l', l = encode_string s ++ l'.
Proof.
  induction l as [|b l IH]; intros s; [done|].
  cbn [NameChunks.c_string].
  destruct (N.eqb_spec (Byte.to_N b) 0) as [Hzero|Hnonzero].
  - intros [= <-]. split; [constructor|]. exists l. by rewrite (byte_zero b).
  - destruct (NameChunks.c_string l) as [s'|] eqn:Hs'; [|done].
    intros [= <-]. destruct (IH s' eq_refl) as [Hfree [l' ->]]. split.
    + constructor; [|done]. intros Hch. apply Hnonzero.
      rewrite <- (byte_of_ascii_of_byte b), Hch. reflexivity.
    + exists l'. unfold encode_string. cbn [list_ascii_of_string map].
      by rewrite byte_of_ascii_of_byte.
Qed.

Lemma read_array_inv (srcData : list Byte.byte) (n : nat) :
  ∀ (stringPtr stringPtr' : N) (strs : list string),
    read_array srcData stringPtr n = Ok (strs, stringPtr') →
    length strs = n ∧ Forall NUL_free strs ∧
    drop (N.to_nat stringPtr) srcData
      = encode_strings strs ++ drop (N.to_nat stringPtr') srcData.
Proof.
  induction n as [|n IH]; intros stringPtr stringPtr' strs.
  - intros [= <- <-]. by repeat split.
  - cbn [read_array]. unfold NameChunks.string_at.
    destruct (NameChunks.c_string (drop (N.to_nat stringPtr) srcData))
      as [s|] eqn:Hs; [|done]. bind_ok.
    destruct (read_array srcData (stringPtr + Str.size s + 1) n)
      as [[strs' p]|] eqn:Hrest; [|done]. bind_ok.
    intros [= <- <-].
    destruct (c_string_inv _ _ Hs) as [Hfree [l' Hl']].
    destruct (IH _ _ _ Hrest) as (Hlen & Hfrees & Hdrop).
    split; [simpl; lia|]. split; [by constructor|].
    change (encode_strings (s :: strs'))
      with (encode_string s ++ encode_strings strs').
    rewrite <- app_assoc, <- Hdrop, Hl'. f_equal.
    replace (N.to_nat (stringPtr + Str.size s + 1))
      with (N.to_nat stringPtr + length (encode_string s))%nat
      by (rewrite length_encode_string; unfold Str.size; lia).
    rewrite <- drop_drop, Hl'. by rewrite drop_app_length.
Qed.

Lemma read_block_inv (srcData : list Byte.byte)
    (stringPtr stringPtr' : N) (block : ArtifactTavernText) :
  read_block srcData stringPtr = Ok (block, stringPtr') →
  well_formed block ∧
  drop (N.to_nat stringPtr) srcData
    = encode_strings (block_strings block) ++ drop (N.to_nat stringPtr') srcData.
Proof.
  unfold read_block, initStringArray.
  destruct (read_array srcData stringPtr 3) as [[a p1]|] eqn:H1; [|done]. bind_ok.
  destruct (read_array srcData p1 3) as [[b p2]|] eqn:H2; [|done]. bind_ok.
  destruct (read_array srcData p2 3) as [[c p3]|] eqn:H3; [|done]. bind_ok.
  destruct (read_array srcData p3 3) as [[d p4]|] eqn:H4; [|done]. bind_ok.
  destruct (read_array srcData p4 3) as [[e p5]|] eqn:H5; [|done]. bind_ok.
  intros [= <- <-].
  apply read_array_inv in H1 as (La & Fa & Da).
  apply read_array_inv in H2 as (Lb & Fb & Db).
  apply read_array_inv in H3 as (Lc & Fc & Dc).
  apply read_array_inv in H4 as (Ld & Fd & Dd).
  apply read_array_inv in H5 as (Le & Fe & De).
  unfold well_formed, block_strings. cbn [greetingStrs barterSuccessStrs
    offerRefusedStrs barterFailureStrs counterOfferStrs].
  split.
  - repeat split; try done. by repeat (apply Forall_app; split).
  - rewrite !encode_strings_app, <- !app_assoc.
    by rewrite Da, Db, Dc, Dd, De.
Qed.

Lemma read_blocks_inv (srcData : list Byte.byte) (n : nat) :
  ∀ (stringPtr stringPtr' : N) (blocks : list ArtifactTavernText),
    read_blocks srcData stringPtr n = Ok (blocks, stringPtr') →
    length blocks = n ∧ Forall well_formed blocks ∧
    drop (N.to_nat stringPtr) srcData
      = encode_strings (concat (map block_strings blocks))
        ++ drop (N.to_nat stringPtr') srcData.
Proof.
  induction n as [|n IH]; intros stringPtr stringPtr' blocks.
  - intros [= <- <-]. by repeat split.
  - cbn [read_blocks].
    destruct (read_block srcData stringPtr) as [[block p]|] eqn:Hblock; [|done].
    bind_ok.
    destruct (read_blocks srcData p n) as [[blocks' p']|] eqn:Hrest; [|done].
    bind_ok. intros [= <- <-].
    apply read_block_inv in Hblock as [Hwf Hdrop].
    destruct (IH _ _ _ Hrest) as (Hlen & Hwfs & Hdrops).
    split; [simpl; lia|]. split; [by constructor|].
    cbn [map concat]. rewrite encode_strings_app, <- app_assoc.
    by rewrite Hdrop, Hdrops.
Qed.

(** X3. When an artifact text file is read without running off its end, the
    result has sixteen blocks of five times three strings, none of them with
    a NUL inside, and the file begins with these 240 strings, each followed
    by a NUL: the blocks determine the part of the file that was read. *)
Theorem loadArtifactText_inv (srcData : list Byte.byte)
    (blocks : list ArtifactTavernText) :
  loadArtifactText srcData = Ok blocks →
  length blocks = 16%nat ∧ Forall well_formed blocks ∧
  ∃ rest, srcData = encode_strings (concat (map block_strings blocks)) ++ rest.
Proof.
  unfold loadArtifactText.
  destruct (read_blocks srcData 0 16) as [[blocks' p]|] eqn:Hread; [|done].
  bind_ok. intros [= <-].
  apply read_blocks_inv in Hread as (Hlen & Hwf & Hdrop).
  split; [done|]. split; [done|]. by exists (drop (N.to_nat p) srcData).
Qed.

Lemma loadArtifactText_inv_witness :
  length (replicate 16 sample_block) = 16%nat ∧
  Forall well_formed (replicate 16 sample_block) ∧
  ∃ rest,
    encode_strings (concat (map block_strings (replicate 16 sample_block)))
      ++ [Byte.x07; Byte.x00]
    = encode_strings (concat (map block_strings (replicate 16 sample_block))) ++ rest.
Proof.
  apply (loadArtifactText_inv _ (replicate 16 sample_block)).
  vm_compute. reflexivity.
Defined.

(** A file with fewer than 240 NULs cannot be read. *)
Lemma loadArtifactText_short :
  loadArtifactText (encode_strings (replicate 239 "text"))
    = Throw (Undefined "read past the end of the buffer").
Proof. vm_compute. reflexivity. Qed.

(** *** Trade texts *)

Lemma read_personality_encode `{TradeTextShape} (personalityArr : list (list string)) :
  ∀ (pre rest : list Byte.byte) (stringPtr : N),
    Forall (λ randomArr, length randomArr = RANDOM_COUNT ∧
                         Forall NUL_free randomArr) personalityArr →
    N.to_nat stringPtr = length pre →
    read_personality (pre ++ encode_strings (concat personalityArr) ++ rest)
      stringPtr (length personalityArr) =
    Ok (personalityArr,
        (stringPtr + N.of_nat (length (encode_strings (concat personalityArr))))%N).
Proof.
  induction personalityArr as [|randomArr arrs IH];
    intros pre rest stringPtr Hshape Hpos.
  - simpl. by rewrite N.add_0_r.
  - apply Forall_cons in Hshape as [[Hlen Hfree] Hshape].
    cbn [concat length read_personality].
    rewrite encode_strings_app, <- app_assoc.
    rewrite <- Hlen at 1. rewrite read_array_encode by done. bind_ok.
    rewrite (app_assoc pre).
    rewrite IH by (done || (rewrite length_app; lia)). bind_ok.
    do 2 f_equal. rewrite length_app. lia.
Qed.

Lemma read_function_encode `{TradeTextShape} (functionArr : list (list (list string))) :
  ∀ (pre rest : list Byte.byte) (stringPtr : N),
    Forall (λ personalityArr,
              length personalityArr = PERSONALITY_COUNT ∧
              Forall (λ randomArr, length randomArr = RANDOM_COUNT ∧
                                   Forall NUL_free randomArr) personalityArr)
           functionArr →
    N.to_nat stringPtr = length pre →
    read_function (pre ++ encode_strings (concat (concat functionArr)) ++ rest)
      stringPtr (length functionArr) =
    Ok (functionArr,
        (stringPtr
         + N.of_nat (length (encode_strings (concat (concat functionArr)))))%N).
Proof.
  induction functionArr as [|personalityArr arrs IH];
    intros pre rest stringPtr Hshape Hpos.
  - simpl. by rewrite N.add_0_r.
  - apply Forall_cons in Hshape as [[Hlen Hrandom] Hshape].
    cbn [concat length read_function].
    rewrite concat_app, encode_strings_app, <- app_assoc.
    rewrite <- Hlen at 1. rewrite read_personality_encode by done. bind_ok.
    rewrite (app_assoc pre).
    rewrite IH by (done || (rewrite length_app; lia)). bind_ok.
    do 2 f_equal. rewrite length_app. lia.
Qed.

(** X4. Round trip of a trade text file: a nested array of the declared
    dimensions, written as its strings one after the other, is read back as
    it was, whatever follows it in the file. *)
Theorem loadTradeText_round_trip `{TradeTextShape}
    (functionArr : list (list (list string))) (rest : list Byte.byte) :
  trade_shaped functionArr →
  loadTradeText (encode_strings (concat (concat functionArr)) ++ rest)
    = Ok functionArr.
Proof.
  intros [Hlen Hshape]. unfold loadTradeText. rewrite <- Hlen.
  pose proof (read_function_encode functionArr [] rest 0 Hshape eq_refl) as Hread.
  rewrite app_nil_l in Hread. rewrite Hread. by bind_ok.
Qed.

Lemma loadTradeText_round_trip_witness :
  loadTradeText (H := two_by_two)
    (encode_strings (concat (concat
       [[["a"; "b"]; ["c"; "d"]]; [["e"; "f"]; ["g"; ""]]]))
     ++ [Byte.x2a])
  = Ok [[["a"; "b"]; ["c"; "d"]]; [["e"; "f"]; ["g"; ""]]].
Proof.
  apply (loadTradeText_round_trip (H := two_by_two)).
  split; [reflexivity|].
  repeat (constructor; try split; try reflexivity); discriminate.
Defined.

End TextBlocksFacts.

(** ** The text of a name rule *)

Module NameRuleTextFacts.
Import NameRuleText.

Lemma c_str_terminated (chars rest : list ascii) :
  Forall (λ ch, ch ≠ Ascii.zero) chars →
  c_str (chars ++ Ascii.zero :: rest) = Ok (string_of_list_ascii chars).
Proof.
  induction 1 as [|ch chars Hch _ IH]; [done|].
  cbn [app c_str]. destruct (Ascii.eqb_spec ch Ascii.zero); [done|].
  by rewrite IH.
Qed.

Lemma c_str_unterminated (chars : list ascii) :
  Forall (λ ch, ch ≠ Ascii.zero) chars →
  c_str chars = Throw (Undefined "read past the end of the array").
Proof.
  induction 1 as [|ch chars Hch _ IH]; [done|].
  cbn [c_str]. destruct (Ascii.eqb_spec ch Ascii.zero); [done|].
  by rewrite IH.
Qed.

Lemma length_list_ascii (s : string) :
  length (list_ascii_of_string s) = String.length s.
Proof. induction s as [|ch s IH]; simpl; [done|by rewrite IH]. Qed.

(** X5. The text of a rule survives the rule's four-character array when
    it has at most three characters (and no NUL): [generateNpcName] appends
    it as it was given. A longer text fills the array without a terminator,
    and reading it back runs off the array. *)
Theorem rule_text_round_trip (str : string) :
  Encoding.NUL_free str →
  text str =
    if (String.length str <? 4)%nat then Ok str
    else Throw (Undefined "read past the end of the array").
Proof.
  unfold Encoding.NUL_free, text, store. intros Hfree.
  rewrite length_list_ascii.
  destruct (Nat.ltb_spec (String.length str) 4) as [Hshort|Hlong].
  - rewrite Nat.min_l by lia.
    rewrite firstn_all2 by (rewrite length_list_ascii; lia).
    destruct (4 - String.length str)%nat as [|k] eqn:Hk; [lia|].
    cbn [replicate]. rewrite c_str_terminated by done.
    by rewrite string_of_list_ascii_of_string.
  - rewrite Nat.min_r by lia.
    replace (4 - 4)%nat with 0%nat by lia. cbn [replicate].
    rewrite app_nil_r. apply c_str_unterminated. by apply Forall_take.
Qed.

Lemma rule_text_round_trip_witness :
  text "sen" = Ok "sen" ∧
  text "sens" = Throw (Undefined "read past the end of the array").
Proof.
  split.
  - apply (rule_text_round_trip "sen"). repeat constructor; discriminate.
  - apply (rule_text_round_trip "sens"). repeat constructor; discriminate.
Defined.

(** The texts of the rule table are short enough. *)
Lemma table_texts_fit :
  Forall (Forall (λ rule,
            match rule with
            | NameGen.String_ str | NameGen.IndexStringChance _ str _ =>
                text str = Ok str
            | _ => True
            end)) NameGen.NameRules.
Proof. repeat constructor. Qed.

End NameRuleTextFacts.

(** ** Terrain classification *)

Module ClimateFacts.
Import WorldMapTerrain Climate ClimateSamples.

Lemma not_sea_true `{TerrainConstants} (pixel : Z) :
  not_sea pixel = true → pixel ≠ SEA.
Proof. unfold not_sea. by destruct (Z.eqb_spec pixel SEA). Qed.

Lemma failSafeLoop_not_sea `{TerrainConstants} (terrain : t) (x y : Z) (count : nat) :
  TEMPERATE1 ≠ SEA →
  ∀ (dist pixel : Z),
    failSafeLoop terrain x y count dist = Ok pixel → pixel ≠ SEA.
Proof.
  intros Hdefault. induction count as [|count IH]; intros dist pixel.
  - by intros [= <-].
  - cbn [failSafeLoop].
    destruct (getTerrainAt terrain x (y + dist)) as [below|]; [|done].
    destruct (getTerrainAt terrain x (y - dist)) as [above|]; [|done].
    destruct (getTerrainAt terrain (x + dist) y) as [right|]; [|done].
    destruct (getTerrainAt terrain (x - dist) y) as [left|]; [|done].
    change (Ok ?a ≫= ?k) with (k a). cbv beta.
    change (Ok ?a ≫= ?k) with (k a). cbv beta.
    change (Ok ?a ≫= ?k) with (k a). cbv beta.
    change (Ok ?a ≫= ?k) with (k a). cbv beta.
    destruct (List.find not_sea [below; above; right; left]) as [found|] eqn:Hfind.
    + intros [= <-]. apply find_some in Hfind as [_ Hfound].
      by apply not_sea_true.
    + apply IH.
Qed.

(** X6. Whatever the coordinate, [getFailSafeAt] never returns the sea
    index (the default terrain being different from it): its result is a
    pixel that is not sea, or the default. *)
Theorem getFailSafeAt_not_sea `{TerrainConstants} (terrain : t) (x y pixel : Z) :
  TEMPERATE1 ≠ SEA →
  getFailSafeAt terrain x y = Ok pixel →
  pixel ≠ SEA.
Proof.
  intros Hdefault. unfold getFailSafeAt.
  destruct (getTerrainAt terrain x y) as [terrainPixel|]; [|done].
  change (Ok ?a ≫= ?k) with (k a). cbv beta.
  destruct (Z.eqb_spec terrainPixel SEA) as [_|Hland]; cbn [negb].
  - by apply failSafeLoop_not_sea.
  - by intros [= <-].
Qed.

Lemma getFailSafeAt_not_sea_witness :
  (253 : Z) ≠ 248.
Proof.
  apply (getFailSafeAt_not_sea (H := Reference.terrain_constants)
           two_islands 100 100 253); [discriminate|vm_compute; reflexivity].
Defined.

Lemma toClimateType_land `{TerrainConstants} `{ClimateConstants} (index : Z) :
  terrain_index index → index ≠ SEA → ∃ climate, toClimateType index = Ok climate.
Proof.
  intros Hindex Hland. unfold toClimateType.
  destruct Hindex as [->|[->|[->|[->|[->|[->| ->]]]]]]; [done|..];
    rewrite ?Z.eqb_refl, ?orb_true_r; cbn [orb];
    repeat (destruct (_ || _); [by eexists|]); by eexists.
Qed.

Lemma getFailSafeAt_fail_safe `{TerrainConstants} (terrain : t) (x y : Z) :
  12 ≤ WIDTH → 200 ≤ HEIGHT → 0 ≤ x < WIDTH → 0 ≤ y < HEIGHT →
  getFailSafeAt terrain x y = Ok (fail_safe terrain x y).
Proof.
  intros Hwide Hhigh Hx Hy. unfold getFailSafeAt, fail_safe.
  rewrite (TerrainFacts.pixel_centre Hwide Hhigh x y Hx Hy).
  change (Ok ?a ≫= ?k) with (k a). cbv beta.
  destruct (negb (shifted terrain x y =? SEA)); [done|].
  apply (TerrainFacts.failSafeLoop_scan Hwide Hhigh x y Hx Hy terrain 199 1); lia.
Qed.

Lemma shifted_terrain_index `{TerrainConstants} `{ClimateConstants}
    (terrain : t) (x y : Z) :
  0 < WIDTH * HEIGHT →
  (∀ i, 0 ≤ i < WIDTH * HEIGHT → terrain_index (indices terrain i)) →
  terrain_index (shifted terrain x y).
Proof.
  intros Hpos Hpixels. unfold shifted. apply Hpixels.
  by apply Z.mod_pos_bound.
Qed.

(** X7. On an image whose pixels all hold one of the seven terrain indices,
    the classification of the fail-safe pixel of a coordinate of the image
    never fails: [toClimateType] is never given the sea index or an unknown
    one. *)
Theorem climate_of_fail_safe `{TerrainConstants} `{ClimateConstants}
    (terrain : t) (x y : Z) :
  12 ≤ WIDTH → 200 ≤ HEIGHT →
  (∀ i, 0 ≤ i < WIDTH * HEIGHT → terrain_index (indices terrain i)) →
  0 ≤ x < WIDTH → 0 ≤ y < HEIGHT →
  ∃ climate,
    (pixel ← getFailSafeAt terrain x y; toClimateType pixel) = Ok climate.
Proof.
  intros Hwide Hhigh Hpixels Hx Hy.
  assert (0 < WIDTH * HEIGHT) as Hpos by nia.
  rewrite getFailSafeAt_fail_safe by done.
  change (Ok ?a ≫= ?k) with (k a). cbv beta.
  unfold fail_safe.
  destruct (Z.eqb_spec (shifted terrain x y) SEA) as [_|Hland]; cbn [negb].
  - destruct (List.find _ _) as [pixel|] eqn:Hfind.
    + apply find_some in Hfind as [Hin Hnot_sea].
      apply in_map_iff in Hin as ([px py] & <- & _).
      apply toClimateType_land; [by apply shifted_terrain_index|].
      by apply not_sea_true.
    + unfold toClimateType. rewrite Z.eqb_refl. by eexists.
  - apply toClimateType_land; [by apply shifted_terrain_index|done].
Qed.

Lemma climate_of_fail_safe_witness :
  ∃ climate,
    (pixel ← getFailSafeAt (H := Reference.terrain_constants) two_islands 100 100;
     toClimateType (H := Reference.terrain_constants) (H0 := arena_climates) pixel)
    = Ok climate.
Proof.
  apply (climate_of_fail_safe (H := Reference.terrain_constants)
           (H0 := arena_climates) two_islands 100 100);
    try (simpl; lia).
  intros i _. unfold terrain_index, two_islands. cbn [indices].
  destruct (i =? 100 + 98 * 320 - 12); [do 3 right; left; reflexivity|].
  destruct (i =? 100 + 102 * 320 - 12); [do 5 right; left; reflexivity|].
  left; reflexivity.
Defined.

End ClimateFacts.

(** ** Shields and weapons of a class *)

Module EquipmentFacts.
Import Equipment.

Ltac bind_ok := change (Ok ?a ≫= ?k) with (k a); cbv beta iota.

Lemma weapon_id (weapon : Z) :
  NameGen.vector_at WeaponIDs weapon =
    if (0 <=? weapon) && (weapon <? 18) then Ok weapon else Throw OutOfRange.
Proof.
  unfold NameGen.vector_at, WeaponIDs.
  destruct (Z.ltb_spec weapon 0) as [Hneg|Hnonneg].
  - by destruct (Z.leb_spec 0 weapon); [lia|].
  - destruct (Z.leb_spec 0 weapon); [|lia]. cbn [andb].
    rewrite list_lookup_fmap.
    destruct (Z.ltb_spec weapon 18) as [Hlt|Hge].
    + rewrite lookup_seq_lt by lia. simpl. f_equal. lia.
    + rewrite lookup_seq_ge by lia. done.
Qed.

Lemma map_weapons_ok (weaponsList : list Z) :
  Forall (λ weapon, 0 ≤ weapon < 18) weaponsList →
  ∀ weapons, map_weapons weaponsList weapons = Ok (weapons ++ weaponsList).
Proof.
  induction 1 as [|weapon rest Hweapon _ IH]; intros weapons.
  - simpl. by rewrite app_nil_r.
  - cbn [map_weapons]. rewrite weapon_id.
    destruct (Z.leb_spec 0 weapon), (Z.ltb_spec weapon 18); try lia.
    cbn [andb]. bind_ok. rewrite IH. by rewrite <- app_assoc.
Qed.

Lemma map_weapons_bad (weaponsList : list Z) :
  Exists (λ weapon, ¬ (0 ≤ weapon < 18)) weaponsList →
  ∀ weapons, map_weapons weaponsList weapons = Throw OutOfRange.
Proof.
  induction weaponsList as [|weapon rest IH]; intros Hbad weapons.
  - by apply Exists_nil in Hbad.
  - cbn [map_weapons]. rewrite weapon_id.
    destruct (Z.leb_spec 0 weapon), (Z.ltb_spec weapon 18); cbn [andb]; try done.
    bind_ok. apply IH. apply Exists_cons in Hbad as [Hbad|Hbad]; [lia|done].
Qed.

(** X8. The weapons of a class with a weapon list are the ids of the list
    themselves, in its order (the id table is the identity on 0..17); an id
    outside 0..17 ends in [std::out_of_range]. *)
Theorem allowedWeapons_of_list (allowedWeaponsLists : list (list Z))
    (weaponIndex : Z) (weaponsList : list Z) :
  weaponIndex ≠ NO_INDEX →
  NameGen.vector_at allowedWeaponsLists weaponIndex = Ok weaponsList →
  (Forall (λ weapon, 0 ≤ weapon < 18) weaponsList →
   allowedWeapons allowedWeaponsLists weaponIndex = Ok weaponsList) ∧
  (Exists (λ weapon, ¬ (0 ≤ weapon < 18)) weaponsList →
   allowedWeapons allowedWeaponsLists weaponIndex = Throw OutOfRange).
Proof.
  intros Hindex Hlist. unfold allowedWeapons.
  destruct (Z.eqb_spec weaponIndex NO_INDEX); [done|].
  rewrite Hlist. bind_ok. split.
  - intros Hok. by rewrite map_weapons_ok.
  - intros Hbad. by apply map_weapons_bad.
Qed.

Lemma allowedWeapons_of_list_witness :
  allowedWeapons [[0; 1]; [5; 17; 5]] 1 = Ok [5; 17; 5].
Proof.
  apply (proj1 (allowedWeapons_of_list [[0; 1]; [5; 17; 5]] 1 [5; 17; 5]
                  ltac:(discriminate) eq_refl)).
  repeat constructor; lia.
Defined.

Lemma shield_id (shield : Z) :
  NameGen.vector_at ShieldIDMappings (shield - 7) =
    if (7 <=? shield) && (shield <=? 10) then Ok (shield_of_id shield)
    else Throw OutOfRange.
Proof.
  unfold NameGen.vector_at, shield_of_id.
  destruct (Z.ltb_spec (shield - 7) 0) as [Hneg|Hnonneg].
  - by destruct (Z.leb_spec 7 shield); [lia|].
  - destruct (Z.leb_spec 7 shield); [|lia]. cbn [andb].
    destruct (Z.leb_spec shield 10) as [Hle|Hgt].
    + assert (shield = 7 ∨ shield = 8 ∨ shield = 9 ∨ shield = 10)
        as [->|[->|[->| ->]]] by lia; reflexivity.
    + rewrite lookup_ge_None_2; [done|]. simpl. lia.
Qed.

Lemma map_shields_ok (shieldsList : list Z) :
  Forall (λ shield, 7 ≤ shield ≤ 10) shieldsList →
  ∀ shields,
    map_shields shieldsList shields = Ok (shields ++ map shield_of_id shieldsList).
Proof.
  induction 1 as [|shield rest Hshield _ IH]; intros shields.
  - simpl. by rewrite app_nil_r.
  - cbn [map_shields]. rewrite shield_id.
    destruct (Z.leb_spec 7 shield), (Z.leb_spec shield 10); try lia.
    cbn [andb]. bind_ok. rewrite IH. by rewrite <- app_assoc.
Qed.

Lemma map_shields_bad (shieldsList : list Z) :
  Exists (λ shield, ¬ (7 ≤ shield ≤ 10)) shieldsList →
  ∀ shields, map_shields shieldsList shields = Throw OutOfRange.
Proof.
  induction shieldsList as [|shield rest IH]; intros Hbad shields.
  - by apply Exists_nil in Hbad.
  - cbn [map_shields]. rewrite shield_id.
    destruct (Z.leb_spec 7 shield), (Z.leb_spec shield 10); cbn [andb]; try done.
    bind_ok. apply IH. apply Exists_cons in Hbad as [Hbad|Hbad]; [lia|done].
Qed.

(** X9. The shields of a class with a shield list are the shields of the
    list's ids, 7 for the buckler to 10 for the tower shield, in the order of
    the list; an id outside 7..10 ends in [std::out_of_range] (an id below 7
    too: the index wraps as a [size_t]). *)
Theorem allowedShields_of_list (allowedShieldsLists : list (list Z))
    (shieldIndex : Z) (shieldsList : list Z) :
  shieldIndex ≠ NO_INDEX →
  NameGen.vector_at allowedShieldsLists shieldIndex = Ok shieldsList →
  (Forall (λ shield, 7 ≤ shield ≤ 10) shieldsList →
   allowedShields allowedShieldsLists shieldIndex
     = Ok (map shield_of_id shieldsList)) ∧
  (Exists (λ shield, ¬ (7 ≤ shield ≤ 10)) shieldsList →
   allowedShields allowedShieldsLists shieldIndex = Throw OutOfRange).
Proof.
  intros Hindex Hlist. unfold allowedShields.
  destruct (Z.eqb_spec shieldIndex NO_INDEX); [done|].
  rewrite Hlist. bind_ok. split.
  - intros Hok. by rewrite map_shields_ok.
  - intros Hbad. by apply map_shields_bad.
Qed.

Lemma allowedShields_of_list_witness :
  allowedShields [[7; 8]; [10; 7]] 1 = Ok [Tower; Buckler] ∧
  allowedShields [[7; 8]; [10; 6]] 1 = Throw OutOfRange.
Proof.
  split.
  - apply (proj1 (allowedShields_of_list [[7; 8]; [10; 7]] 1 [10; 7]
                    ltac:(discriminate) eq_refl)).
    repeat constructor; lia.
  - apply (proj2 (allowedShields_of_list [[7; 8]; [10; 6]] 1 [10; 6]
                    ltac:(discriminate) eq_refl)).
    apply Exists_cons_tl, Exists_cons_hd. lia.
Defined.

End EquipmentFacts.

(** ** More on [std::getline] and on loops over lines *)

Module LinesFacts.

(** The lines of a text that continues after a line feed. *)
Lemma getlines_aux_app (text1 text2 : string) :
  ∀ cur,
    getlines_aux cur ((text1 +:+ String LF "") +:+ text2) =
    getlines_aux cur (text1 +:+ String LF "") ++ getlines text2.
Proof.
  induction text1 as [|ch text1 IH]; intros cur.
  - rewrite StrFacts.app_empty, StrFacts.app_String, StrFacts.app_empty.
    cbn [getlines_aux]. by rewrite Ascii.eqb_refl.
  - rewrite !StrFacts.app_String. cbn [getlines_aux].
    destruct (Ascii.eqb ch LF); by rewrite IH.
Qed.

Lemma getlines_app (text1 text2 : string) :
  Str.ends_with LF text1 = true →
  getlines (text1 +:+ text2) = getlines text1 ++ getlines text2.
Proof.
  intros Hends. rewrite (BackFacts.ends_with_true _ _ Hends).
  apply getlines_aux_app.
Qed.

(** An invariant that may rely on the line being one of the text. *)
Lemma fold_lines_invariant_elem {S : Type} (P : S → Prop)
    (body : S → string → result S) (all : list string) :
  (∀ st line st', line ∈ all → P st → body st line = Ok st' → P st') →
  ∀ lines, Forall (λ line, line ∈ all) lines →
    ∀ st st', P st → fold_lines body st lines = Ok st' → P st'.
Proof.
  intros Hstep. induction 1 as [|line lines Hline _ IH]; intros st st' HP Hrun.
  - by injection Hrun as <-.
  - simpl in Hrun. destruct (body st line) as [st1|e] eqn:Hbody; [|done].
    eapply IH; [|exact Hrun]. eauto.
Qed.

Lemma Forall_elem_self {A : Type} (l : list A) : Forall (λ x, x ∈ l) l.
Proof. by apply Forall_forall. Qed.

End LinesFacts.

(** ** More on TEMPLATE.DAT *)

Module TemplateMoreFacts.
Import TemplateDat TemplateLookup TemplateSpec.

Lemma at_0_empty : Str.at_ "" 0 = Throw OutOfRange.
Proof. reflexivity. Qed.

Lemma at_0_nonempty (line : string) :
  line ≠ "" → ∃ ch, Str.at_ line 0 = Ok ch ∧ String.get 0 line = Some ch.
Proof. destruct line as [|ch line]; [done|]. by exists ch. Qed.

(** An iteration fails on an empty line, and only there. *)
Lemma body_throw `{StringUtilities} (st : state) (line : string) (e : exn) :
  body st line = Throw e ↔ line = "" ∧ e = OutOfRange.
Proof.
  unfold body. split.
  - destruct line as [|ch line]; [by intros [= <-]|].
    change (Str.at_ (String ch line) 0) with (Ok ch).
    change (Ok ?a ≫= ?k) with (k a). cbv beta.
    by destruct (Ascii.eqb ch "#").
  - by intros [-> ->].
Qed.

Lemma loop_throw `{StringUtilities} (lines : list string) :
  ∀ st,
    (∀ e, fold_lines body st lines = Throw e → e = OutOfRange ∧ "" ∈ lines) ∧
    ("" ∈ lines → fold_lines body st lines = Throw OutOfRange).
Proof.
  induction lines as [|line lines IH]; intros st.
  - split; [done|]. by intros ?%elem_of_nil.
  - cbn [fold_lines].
    destruct (body st line) as [st1|e1] eqn:Hbody.
    + change (Ok ?a ≫= ?k) with (k a). cbv beta.
      destruct (IH st1) as [Hfail Hempty]. split.
      * intros e He. destruct (Hfail e He) as [-> Hin]. split; [done|].
        apply elem_of_cons. by right.
      * intros [<-|Hin]%elem_of_cons; [|by apply Hempty].
        assert (body st "" = Throw OutOfRange) as Hthrow by by apply body_throw.
        congruence.
    + apply body_throw in Hbody as [-> ->]. split.
      * intros e [= <-]. split; [done|]. apply elem_of_cons. by left.
      * done.
Qed.

(** X10. TEMPLATE.DAT is read without an error exactly when none of its
    lines is empty; the error is then the [std::out_of_range] of
    [line.at(0)]. *)
Theorem parseTemplateDat_fails_on_empty_line `{StringUtilities} (text : string) :
  (∀ e, parseTemplateDat text = Throw e → e = OutOfRange ∧ "" ∈ getlines text) ∧
  ("" ∈ getlines text → parseTemplateDat text = Throw OutOfRange).
Proof.
  unfold parseTemplateDat.
  destruct (loop_throw (getlines text) initial) as [Hfail Hempty]. split.
  - intros e. destruct (fold_lines body initial (getlines text)) eqn:Hrun; [done|].
    intros [= <-]. by apply Hfail.
  - intros Hin. by rewrite Hempty.
Qed.

Lemma getTemplateDatText_ok (table : gmap string string) (k v : string) :
  getTemplateDatText table k = Ok v ↔ table !! k = Some v.
Proof.
  unfold getTemplateDatText, DebugAssert.
  destruct (table !! k) as [v'|] eqn:Hlookup.
  - rewrite bool_decide_eq_true_2 by done.
    change (Ok ?a ≫= ?k) with (k a). cbv beta. split; by intros [= ->].
  - rewrite bool_decide_eq_false_2 by (intros Hne; by apply Hne). done.
Qed.

Lemma body_from_line `{StringUtilities} (all : list string)
    (st st' : state) (line : string) :
  line ∈ all →
  (key st = "" ∨ from_line all (key st)) ∧
  map_Forall (λ k _, k = "" ∨ from_line all k) (templateDat st) →
  body st line = Ok st' →
  (key st' = "" ∨ from_line all (key st')) ∧
  map_Forall (λ k _, k = "" ∨ from_line all k) (templateDat st').
Proof.
  intros Hin [Hkey Htable]. unfold body.
  destruct line as [|ch line]; [done|].
  change (Str.at_ (String ch line) 0) with (Ok ch).
  change (Ok ?a ≫= ?k) with (k a). cbv beta.
  destruct (Ascii.eqb_spec ch "#") as [->|_]; intros [= <-]; cbn [key templateDat].
  - split.
    + right. by exists (String "#" line).
    + destruct (templateDat st !! key st); [done|].
      by apply map_Forall_insert_2.
  - done.
Qed.

(** X11. A text that [getTemplateDatText] finds under a key was stored by
    [parseTemplateDat] from a line of the file that starts with [#]: the key
    is that line, trimmed; and the key is never the empty string. *)
Theorem template_key_from_line `{StringUtilities}
    (text : string) (table : gmap string string) (k v : string) :
  parseTemplateDat text = Ok table →
  getTemplateDatText table k = Ok v →
  k ≠ "" ∧
  ∃ line, line ∈ getlines text ∧ String.get 0 line = Some "#"%char ∧
          k = String_trim (String_trimLines line).
Proof.
  unfold parseTemplateDat. intros Hparse Hget.
  destruct (fold_lines body initial (getlines text)) as [st|e] eqn:Hrun; [|done].
  injection Hparse as <-.
  apply getTemplateDatText_ok, lookup_delete_Some in Hget as [Hne Hlookup].
  split; [done|].
  assert (Hinv : (key st = "" ∨ from_line (getlines text) (key st)) ∧
                 map_Forall (λ k _, k = "" ∨ from_line (getlines text) k)
                   (templateDat st)).
  { apply (LinesFacts.fold_lines_invariant_elem
             (λ st, (key st = "" ∨ from_line (getlines text) (key st)) ∧
                    map_Forall (λ k _, k = "" ∨ from_line (getlines text) k)
                      (templateDat st)) body (getlines text))
      with (lines := getlines text) (st := initial);
      [|apply LinesFacts.Forall_elem_self| |done].
    - intros st0 line st1 Hin. by apply body_from_line.
    - split; [by left|apply map_Forall_empty]. }
  destruct (proj2 Hinv k v Hlookup) as [->|Hfrom]; [done|exact Hfrom].
Qed.

Lemma template_key_from_line_witness :
  "#K" ≠ "" ∧
  ∃ line, line ∈ getlines (Reference.text_of ["#K"; "hello&"; "#Z"]) ∧
          String.get 0 line = Some "#"%char ∧
          "#K" = Reference.trim (Reference.trimLines line).
Proof.
  apply (template_key_from_line (H := Reference.string_utilities)
           (Reference.text_of ["#K"; "hello&"; "#Z"])
           {["#K" := "hello"]} "#K" "hello");
    vm_compute; reflexivity.
Defined.

(** An iteration never changes or removes what is stored. *)
Lemma body_keeps `{StringUtilities} (st st' : state) (line : string) :
  body st line = Ok st' → templateDat st ⊆ templateDat st'.
Proof.
  unfold body. destruct (Str.at_ line 0) as [ch|]; [|done].
  change (Ok ?a ≫= ?k) with (k a). cbv beta.
  destruct (Ascii.eqb ch "#"); intros [= <-]; cbn [templateDat]; [|done].
  destruct (templateDat st !! key st) eqn:Hlookup; [done|].
  by apply insert_subseteq.
Qed.

(** X12. The first occurrence of a key wins: when a file is continued after
    a line end, everything that [parseTemplateDat] stored for the file is
    stored, with the same text, for the longer file. *)
Theorem template_first_occurrence_wins `{StringUtilities}
    (text1 text2 : string) (table1 table : gmap string string) :
  Str.ends_with LF text1 = true →
  parseTemplateDat text1 = Ok table1 →
  parseTemplateDat (text1 +:+ text2) = Ok table →
  table1 ⊆ table.
Proof.
  intros Hends. unfold parseTemplateDat.
  rewrite (LinesFacts.getlines_app _ _ Hends), LoopFacts.fold_lines_app.
  destruct (fold_lines body initial (getlines text1)) as [st1|] eqn:Hrun1; [|done].
  change (Ok ?a ≫= ?k) with (k a). cbv beta.
  destruct (fold_lines body st1 (getlines text2)) as [st2|] eqn:Hrun2; [|done].
  change (Ok ?a ≫= ?k) with (k a). cbv beta.
  intros [= <-] [= <-].
  apply delete_mono.
  apply (LoopFacts.fold_lines_invariant
           (λ st, templateDat st1 ⊆ templateDat st) body)
    with (lines := getlines text2) (st := st1); [|done|done].
  intros st line st' Hsub Hbody. etrans; [exact Hsub|]. by eapply body_keeps.
Qed.

Lemma template_first_occurrence_wins_witness :
  ({["#K" := "first"]} : gmap string string)
  ⊆ {["#K" := "first"; "#Z" := "other"]}.
Proof.
  apply (template_first_occurrence_wins (H := Reference.string_utilities)
           (Reference.text_of ["#K"; "first"; "#Z"])
           (Reference.text_of ["other"; "#K"; "second"; "#END"]));
    vm_compute; reflexivity.
Defined.

End TemplateMoreFacts.

(** ** More on DUNGEON.TXT *)

Module DungeonMoreFacts.
Import DungeonTxt Lines DungeonSpec.

Ltac bind_ok := change (Ok ?a ≫= ?k) with (k a); cbv beta iota.

(** What an iteration does to the list, by the kind of its line. *)
Lemma body_entries (st st' : state) (line : string) :
  body st line = Ok st' →
  length (dungeonTxt st') =
    (length (dungeonTxt st) + if is_delimiter line then 1 else 0)%nat.
Proof.
  unfold body, is_delimiter.
  destruct line as [|ch line]; [done|].
  change (Str.at_ (String ch line) 0) with (Ok ch). bind_ok.
  change (String.get 0 (String ch line)) with (Some ch).
  destruct (Ascii.eqb ch "#").
  - intros [= <-]. cbn [dungeonTxt]. rewrite length_app. simpl. lia.
  - destruct (String.eqb (title st) ""); intros [= <-]; cbn [dungeonTxt]; lia.
Qed.

Lemma loop_entries (lines : list string) :
  ∀ st st', fold_lines body st lines = Ok st' →
    length (dungeonTxt st') = (length (dungeonTxt st) + delimiters lines)%nat.
Proof.
  unfold delimiters.
  induction lines as [|line lines IH]; intros st st'.
  - intros [= <-]. simpl. lia.
  - cbn [fold_lines]. destruct (body st line) as [st1|] eqn:Hbody; [|done].
    bind_ok. intros Hrun. rewrite (IH _ _ Hrun), (body_entries _ _ _ Hbody).
    cbn [List.filter]. destruct (is_delimiter line); simpl; lia.
Qed.

(** X13. DUNGEON.TXT yields one entry per delimiter line: when the file is
    read without an error, the list has as many dungeons as the file has
    lines that start with [#]. *)
Theorem parseDungeonTxt_count (text : string) (entries : list (string * string)) :
  parseDungeonTxt text = Ok entries →
  length entries = delimiters (getlines text).
Proof.
  unfold parseDungeonTxt.
  destruct (fold_lines body initial (getlines text)) as [st|] eqn:Hrun; [|done].
  bind_ok. intros [= <-]. by rewrite (loop_entries _ _ _ Hrun).
Qed.

Lemma parseDungeonTxt_count_witness :
  length [("Title", "Description"); ("Other", "Text")]
  = delimiters (getlines (unlines ["Title"; "Description"; "#"; "Other"; "Text"; "#"; "Last"])).
Proof.
  apply (parseDungeonTxt_count
           (unlines ["Title"; "Description"; "#"; "Other"; "Text"; "#"; "Last"])).
  vm_compute. reflexivity.
Defined.

Lemma pop_back_nonempty (s : string) : Str.pop_back s ≠ "" → s ≠ "".
Proof. by destruct s. Qed.

Lemma body_titled (st st' : state) (line : string) :
  titled st → body st line = Ok st' → titled st'.
Proof.
  intros [Htitle Hentries]. unfold body.
  destruct (Str.at_ line 0) as [ch|]; [|done]. bind_ok.
  destruct (Ascii.eqb ch "#").
  - intros [= <-]. split; [done|]. cbn [dungeonTxt].
    apply Forall_app. split; [done|]. constructor; [|done].
    cbn [fst snd]. intros Hdesc. apply Htitle.
    destruct (Str.back (description st)) as [last|]; [|done].
    destruct (Ascii.eqb last LF); [|done]. by apply pop_back_nonempty.
  - destruct (String.eqb_spec (title st) "") as [Hempty|Hne]; intros [= <-].
    + split; [|done]. cbn [description title]. intros Hdesc.
      by destruct (Htitle Hdesc).
    + split; [|done]. by cbn [description title].
Qed.

(** X14. A dungeon with a description has a name: when DUNGEON.TXT is read
    without an error, every entry of the list with a non-empty description
    has a non-empty title. (An entry can have neither: see
    [delimiter_without_description].) *)
Theorem parseDungeonTxt_titles (text : string) (entries : list (string * string)) :
  parseDungeonTxt text = Ok entries →
  Forall (λ entry : string * string, entry.2 ≠ "" → entry.1 ≠ "") entries.
Proof.
  unfold parseDungeonTxt.
  destruct (fold_lines body initial (getlines text)) as [st|] eqn:Hrun; [|done].
  bind_ok. intros [= <-].
  apply (LoopFacts.fold_lines_invariant titled body
           (λ st line st', body_titled st st' line)
           (getlines text) initial st); [|done].
  split; [done|constructor].
Qed.

Lemma parseDungeonTxt_titles_witness :
  Forall (λ entry : string * string, entry.2 ≠ "" → entry.1 ≠ "")
    [("", ""); ("Title", "Description"); ("Other", "")].
Proof.
  apply (parseDungeonTxt_titles
           (unlines ["#"; "Title"; "Description"; "#"; "Other"; "#"; "Last"])).
  vm_compute. reflexivity.
Defined.

(** A delimiter line with nothing collected before it, as at the start of
    the file or right after another delimiter, stores an entry of two empty
    strings; the title and the description that follow it are read as
    usual. *)
Lemma delimiter_without_description :
  parseDungeonTxt (unlines ["#"; "Title"; "Description"]) = Ok [("", "")] ∧
  parseDungeonTxt (unlines ["Title"; "Description"; "#"; "#"])
    = Ok [("Title", "Description"); ("", "")].
Proof. split; vm_compute; reflexivity. Qed.

End DungeonMoreFacts.

(** ** More on QUESTION.TXT *)

Module QuestionMoreFacts.
Import QuestionTxt QuestionSpec.

Ltac bind_ok := change (Ok ?a ≫= ?k) with (k a); cbv beta iota.

Lemma addQuestion_consistent (questions questions' : list CharacterQuestion)
    (description a b c : string) :
  Forall consistent questions →
  addQuestion questions description a b c = Ok questions' →
  Forall consistent questions' ∧ questions' ≠ [].
Proof.
  intros Hall. unfold addQuestion.
  destruct (getCategory a) as [ca|] eqn:Ha; [|done]. bind_ok.
  destruct (getCategory b) as [cb|] eqn:Hb; [|done]. bind_ok.
  destruct (getCategory c) as [cc|] eqn:Hc; [|done]. bind_ok.
  intros [= <-]. split.
  - apply Forall_app. split; [done|]. by repeat constructor.
  - by destruct questions.
Qed.

Lemma questionTxt_append (st : state) (line : string) :
  questionTxt (append st line) = questionTxt st.
Proof. unfold append. by destruct (mode st). Qed.

Lemma switch_consistent (st st' : state) (ch : ascii) :
  Forall consistent (questionTxt st) →
  switch st ch = Ok st' →
  Forall consistent (questionTxt st').
Proof.
  intros Hall. unfold switch.
  destruct (isalpha ch); [by intros [= <-]|].
  destruct (isdigit ch); [|by intros [= <-]].
  destruct (negb (Mode_eqb (mode st) Description)); [|by intros [= <-]].
  destruct (addQuestion _ _ _ _ _) as [questions|] eqn:Hadd; [|done].
  bind_ok. intros [= <-].
  by destruct (addQuestion_consistent _ _ _ _ _ _ Hall Hadd).
Qed.

Lemma body_consistent (st st' : state) (line : string) :
  Forall consistent (questionTxt st) →
  body st line = Ok st' →
  Forall consistent (questionTxt st').
Proof.
  intros Hall. unfold body.
  destruct (Str.at_ line 0) as [ch|]; [|done]. bind_ok.
  destruct (switch st ch) as [st1|] eqn:Hswitch; [|done]. bind_ok.
  intros [= <-]. rewrite questionTxt_append.
  by eapply switch_consistent.
Qed.

(** X15. When QUESTION.TXT is read without an error, there is at least one
    question, and every question is stored with the categories that
    [getCategory] gives for its three choices. *)
Theorem parseQuestionTxt_consistent (text : string)
    (questions : list CharacterQuestion) :
  parseQuestionTxt text = Ok questions →
  questions ≠ [] ∧ Forall consistent questions.
Proof.
  unfold parseQuestionTxt.
  destruct (fold_lines body initial (getlines text)) as [st|] eqn:Hrun; [|done].
  bind_ok. intros Hadd.
  assert (Forall consistent (questionTxt st)) as Hall.
  { apply (LoopFacts.fold_lines_invariant
             (λ st, Forall consistent (questionTxt st)) body
             (λ st line st', body_consistent st st' line)
             (getlines text) initial st); [constructor|done]. }
  destruct (addQuestion_consistent _ _ _ _ _ _ Hall Hadd). done.
Qed.

Lemma parseQuestionTxt_consistent_witness :
  [mkQuestion ("1. Question" +:+ String LF "")
     ("a) first (5l)" +:+ String LF "", Mage)
     ("b) second (5c)" +:+ String LF "", Thief)
     ("c) third (5v)" +:+ String LF "", Warrior)] ≠ [] ∧
  Forall consistent
    [mkQuestion ("1. Question" +:+ String LF "")
       ("a) first (5l)" +:+ String LF "", Mage)
       ("b) second (5c)" +:+ String LF "", Thief)
       ("c) third (5v)" +:+ String LF "", Warrior)].
Proof.
  apply (parseQuestionTxt_consistent
           (Lines.unlines ["1. Question"; "a) first (5l)"; "b) second (5c)";
                           "c) third (5v)"])).
  vm_compute. reflexivity.
Defined.

(** A text without a line for one of the three choices cannot be read; the
    empty text for one. *)
Lemma parseQuestionTxt_empty :
  parseQuestionTxt "" = Throw OutOfRange ∧
  parseQuestionTxt (Lines.unlines ["1. Question"; "a) first (5l)"; "b) second (5c)"])
    = Throw OutOfRange.
Proof. split; vm_compute; reflexivity. Qed.

End QuestionMoreFacts.

(** ** More on SPELLMKR.TXT *)

Module SpellMakerMoreFacts.
Import SpellMaker Lines SpellMakerSpec.

Ltac bind_ok := change (Ok ?a ≫= ?k) with (k a); cbv beta iota.

Lemma set_at_length (descriptions descriptions' : list string) (i : Z) (s : string) :
  set_at descriptions i s = Ok descriptions' →
  length descriptions' = length descriptions.
Proof.
  unfold set_at. destruct (_ && _); [|done]. intros [= <-]. apply length_insert.
Qed.

Lemma body_length (v : vars) (line : string) (f : flow) :
  body v line = Ok f →
  length (match f with Continue v' | Break v' => v'.2 end) = length v.2.
Proof.
  destruct v as [state descriptions]. unfold body.
  destruct (0 <? Str.size line)%N; [|by intros [= <-]].
  destruct (Str.at_ line 0) as [firstChar|]; [|done]. bind_ok.
  destruct (Ascii.eqb firstChar "#").
  - destruct state as [st|].
    + destruct (set_at descriptions (index st) (str st)) as [d|] eqn:Hset; [|done].
      bind_ok. apply set_at_length in Hset.
      destruct (3 <=? Str.size line)%N.
      * destruct (stoi _); [|done]. bind_ok. by intros [= <-].
      * by intros [= <-].
    + bind_ok. destruct (3 <=? Str.size line)%N.
      * destruct (stoi _); [|done]. bind_ok. by intros [= <-].
      * by intros [= <-].
  - destruct state; [|done]. by intros [= <-].
Qed.

Lemma loop_length (lines : list string) :
  ∀ v v', loop v lines = Ok v' → length v'.2 = length v.2.
Proof.
  induction lines as [|line lines IH]; intros v v'.
  - by intros [= <-].
  - cbn [loop]. destruct (body v line) as [f|] eqn:Hbody; [|done]. bind_ok.
    apply body_length in Hbody. destruct f as [v1|v1].
    + intros Hrun. rewrite (IH _ _ Hrun). done.
    + by intros [= <-].
Qed.

(** X16. Whatever SPELLMKR.TXT holds, a successful read returns 43
    descriptions: entries are stored in place and the array never grows or
    shrinks. *)
Theorem parseSpellMakerDescriptions_length (text : string)
    (descriptions : list string) :
  parseSpellMakerDescriptions text = Ok descriptions →
  length descriptions = 43%nat.
Proof.
  unfold parseSpellMakerDescriptions.
  destruct (loop (None, empty_descriptions) (getlines text)) as [v|] eqn:Hrun;
    [|done].
  bind_ok. intros [= <-]. by rewrite (loop_length _ _ _ Hrun).
Qed.

Lemma parseSpellMakerDescriptions_length_witness :
  length (<[7%nat := "abcdef"]> empty_descriptions) = 43%nat.
Proof.
  apply (parseSpellMakerDescriptions_length (unlines ["#07"; "abc"; "def"; "#"])).
  vm_compute. reflexivity.
Defined.

(** Empty lines are skipped by the loop. *)
Lemma loop_skips_empty (lines : list string) (v : vars) :
  loop v (List.filter (λ line, negb (String.eqb line "")) lines) = loop v lines.
Proof.
  revert v. induction lines as [|line lines IH]; intros v; [done|].
  cbn [List.filter]. destruct (String.eqb_spec line "") as [->|Hne]; cbn [negb].
  - rewrite IH. cbn [loop]. by destruct v.
  - cbn [loop]. destruct (body v line) as [[v1|v1]|]; [|done|done].
    bind_ok. apply IH.
Qed.

(** *** Reading back a file written from entries *)

Lemma stoi_header (i : nat) :
  (i < 43)%nat → stoi (String.substring 1 2 (header i)) = Ok (Z.of_nat i).
Proof.
  intros Hi.
  do 43 (destruct i as [|i]; [reflexivity|]). lia.
Qed.

Lemma size_positive (line : string) (ch : ascii) :
  String.get 0 line = Some ch → (0 <? Str.size line)%N = true.
Proof.
  destruct line; [done|]. intros _. unfold Str.size. apply N.ltb_lt.
  simpl String.length. lia.
Qed.

Lemma flush_ok (state : option State) (descriptions : list string) :
  in_range state →
  match state with
  | Some st => set_at descriptions (index st) (str st)
  | None => Ok descriptions
  end = Ok (flush state descriptions).
Proof.
  destruct state as [st|]; [|done]. intros Hrange.
  by apply SpellMakerFacts.set_at_in_range.
Qed.

Lemma loop_header (state : option State) (descriptions : list string)
    (i : nat) (rest : list string) :
  in_range state → (i < 43)%nat →
  loop (state, descriptions) (header i :: rest) =
  loop (Some (mkState (Z.of_nat i) ""), flush state descriptions) rest.
Proof.
  intros Hrange Hi. cbn [loop]. unfold body.
  change (0 <? Str.size (header i))%N with true. cbv iota.
  change (Str.at_ (header i) 0) with (Ok "#"%char). bind_ok.
  change (Ascii.eqb "#" "#") with true. cbv iota.
  rewrite flush_ok by done. bind_ok.
  change (3 <=? Str.size (header i))%N with true. cbv iota.
  rewrite stoi_header by done. by bind_ok.
Qed.

Lemma concat_cons (s : string) (l : list string) :
  String.concat "" (s :: l) = s +:+ String.concat "" l.
Proof.
  destruct l as [|s' l]; [by rewrite StrFacts.app_empty_r|reflexivity].
Qed.

Lemma loop_plain (st : State) (descriptions : list string) (ls : list string) :
  Forall plain ls →
  ∀ (text : string) (rest : list string),
    loop (Some (mkState (index st) text), descriptions) (ls ++ rest) =
    loop (Some (mkState (index st) (text +:+ String.concat "" ls)), descriptions) rest.
Proof.
  induction 1 as [|line ls [_ Hline] _ IH]; intros text rest.
  - simpl. by rewrite StrFacts.app_empty_r.
  - rewrite concat_cons, <- StrFacts.app_assoc.
    cbn [app loop]. unfold body.
    destruct line as [|ch line].
    + change (0 <? Str.size "")%N with false. cbv iota. bind_ok.
      rewrite StrFacts.app_empty_r. apply IH.
    + rewrite (size_positive (String ch line) ch) by done.
      change (Str.at_ (String ch line) 0) with (Ok ch). bind_ok.
      unfold is_delimiter in Hline. cbn [String.get] in Hline. rewrite Hline.
      bind_ok. cbn [index str]. apply IH.
Qed.

Lemma loop_file (entries : list (nat * list string)) :
  Forall (λ entry, (entry.1 < 43)%nat ∧ Forall plain entry.2) entries →
  ∀ (state : option State) (descriptions : list string),
    in_range state →
    loop (state, descriptions) (file_lines entries) =
    Ok (None, foldl store_entry (flush state descriptions) entries).
Proof.
  unfold file_lines.
  induction 1 as [|[i ls] entries [Hi Hls] _ IH]; intros state descriptions Hrange.
  - cbn [map concat app foldl loop]. unfold body.
    change (0 <? Str.size "#")%N with true. cbv iota.
    change (Str.at_ "#" 0) with (Ok "#"%char). bind_ok.
    change (Ascii.eqb "#" "#") with true. cbv iota.
    rewrite flush_ok by done. by bind_ok.
  - cbn [map concat] in *. cbn [fst snd] in Hi, Hls.
    change (entry_lines (i, ls)) with (header i :: ls).
    rewrite <- !app_comm_cons, <- app_assoc.
    rewrite loop_header by done.
    rewrite (loop_plain (mkState (Z.of_nat i) "") _ ls Hls "").
    cbn [index]. rewrite StrFacts.app_empty.
    rewrite IH by (cbn [in_range index]; lia).
    cbn [foldl flush index str]. unfold store_entry at 2. cbn [fst snd].
    by rewrite Nat2Z.id.
Qed.

Lemma rev_app_append (s1 : string) :
  ∀ s2, String.rev_app s1 s2 = String.rev_app s1 "" +:+ s2.
Proof.
  induction s1 as [|ch s1 IH]; intros s2; [done|].
  cbn [String.rev_app]. rewrite (IH (String ch s2)), (IH (String ch "")).
  by rewrite StrFacts.app_assoc, StrFacts.app_String, StrFacts.app_empty.
Qed.

(** The lines of a text written line by line. *)
Lemma getlines_aux_line (line : string) :
  LF_free line →
  ∀ (cur rest : string),
    getlines_aux cur (line +:+ String LF rest) =
    (String.rev cur +:+ line) :: getlines_aux "" rest.
Proof.
  unfold LF_free.
  induction line as [|ch line IH]; intros Hfree cur rest.
  - rewrite StrFacts.app_empty, StrFacts.app_empty_r. cbn [getlines_aux].
    by rewrite Ascii.eqb_refl.
  - apply Forall_cons in Hfree as [Hch Hfree].
    rewrite StrFacts.app_String. cbn [getlines_aux].
    destruct (Ascii.eqb_spec ch LF); [done|].
    rewrite IH by done. unfold String.rev. cbn [String.rev_app].
    rewrite (rev_app_append cur (String ch "")).
    by rewrite StrFacts.app_assoc, StrFacts.app_String, StrFacts.app_empty.
Qed.

Lemma getlines_unlines (lines : list string) :
  Forall LF_free lines → getlines (unlines lines) = lines.
Proof.
  unfold getlines, unlines.
  induction 1 as [|line lines Hline _ IH]; [done|].
  cbn [map]. rewrite concat_cons, StrFacts.app_assoc, StrFacts.app_String,
    StrFacts.app_empty.
  rewrite getlines_aux_line by done.
  change (String.rev "") with "".
  by rewrite StrFacts.app_empty, IH.
Qed.

Lemma header_LF_free (i : nat) : (i < 43)%nat → LF_free (header i).
Proof.
  intros Hi. do 43 (destruct i as [|i]; [repeat constructor; discriminate|]). lia.
Qed.

(** X17. Round trip of SPELLMKR.TXT: a file written from entries (a header
    line [#NN] with an index below 43, the lines of the description, and a
    bare [#] at the end of the file) is read back as the descriptions of the
    entries: the lines of an entry joined without a separator at the entry's
    index, the empty string where there is no entry, and the last entry of an
    index where there are several. *)
Theorem parseSpellMakerDescriptions_round_trip (entries : list (nat * list string)) :
  Forall (λ entry, (entry.1 < 43)%nat ∧ Forall plain entry.2) entries →
  parseSpellMakerDescriptions (unlines (file_lines entries))
    = Ok (descriptions_of entries).
Proof.
  intros Hentries. unfold parseSpellMakerDescriptions.
  rewrite getlines_unlines.
  - rewrite (loop_file entries Hentries None empty_descriptions I). by bind_ok.
  - unfold file_lines. apply Forall_app. split; [|repeat constructor; discriminate].
    apply Forall_concat, Forall_fmap.
    eapply Forall_impl; [exact Hentries|].
    intros [i ls] [Hi Hls]. cbn [entry_lines fst snd] in *. constructor.
    + by apply header_LF_free.
    + eapply Forall_impl; [exact Hls|]. by intros line [Hfree _].
Qed.

Lemma parseSpellMakerDescriptions_round_trip_witness :
  parseSpellMakerDescriptions
    (unlines (file_lines [(7%nat, ["abc"; ""; "def"]); (0%nat, ["x"]); (7%nat, ["last"])]))
  = Ok (<[7%nat := "last"]> (<[0%nat := "x"]> empty_descriptions)).
Proof.
  apply (parseSpellMakerDescriptions_round_trip
           [(7%nat, ["abc"; ""; "def"]); (0%nat, ["x"]); (7%nat, ["last"])]).
  repeat (constructor; [split; [simpl; lia|]|]);
    repeat constructor; try discriminate; reflexivity.
Defined.

(** X18. Empty lines do not count: a SPELLMKR.TXT gives the same result
    (descriptions or error) with its empty lines removed. *)
Theorem parseSpellMakerDescriptions_skips_empty_lines (lines : list string) :
  Forall LF_free lines →
  parseSpellMakerDescriptions
    (unlines (List.filter (λ line, negb (String.eqb line "")) lines))
  = parseSpellMakerDescriptions (unlines lines).
Proof.
  intros Hfree. unfold parseSpellMakerDescriptions.
  rewrite !getlines_unlines; [by rewrite loop_skips_empty|done|].
  apply Forall_forall. intros line Hin%list_elem_of_In%filter_In.
  rewrite Forall_forall in Hfree. apply Hfree, list_elem_of_In, Hin.
Qed.

Lemma parseSpellMakerDescriptions_skips_empty_lines_witness :
  parseSpellMakerDescriptions (unlines ["#07"; "abc"; "#"])
  = parseSpellMakerDescriptions (unlines [""; "#07"; ""; "abc"; ""; "#"; ""]).
Proof.
  apply (parseSpellMakerDescriptions_skips_empty_lines
           [""; "#07"; ""; "abc"; ""; "#"; ""]).
  repeat constructor; discriminate.
Defined.

End SpellMakerMoreFacts.

(** ** More on NPC names *)

Module NameGenMoreFacts.
Import NameGen NameGenCount.

Ltac bind_ok := change (Ok ?a ≫= ?k) with (k a); cbv beta iota.

(** The calls an evaluation has made, served or not. *)
Lemma body_calls (nameChunks : list (list string)) (draws : generator)
    (name name' : string) (calls calls' : nat) (rule : NameRule) :
  body nameChunks draws (name, calls) rule = Ok (name', calls') →
  calls' = (calls + drawsOf draws calls rule)%nat.
Proof.
  destruct rule as [index|str|index chance|index str chance];
    cbn [body drawsOf]; unfold passes.
  - destruct (vector_at nameChunks index); [|done]. bind_ok.
    destruct (sample _ _); [|done]. bind_ok. intros [= _ <-]. lia.
  - intros [= _ <-]. lia.
  - destruct (vector_at nameChunks index); [|done]. bind_ok.
    destruct (Z.of_N (draws calls mod 100) <=? chance).
    + destruct (sample _ _); [|done]. bind_ok. intros [= _ <-]. lia.
    + intros [= _ <-]. lia.
  - destruct (vector_at nameChunks index); [|done]. bind_ok.
    destruct (Z.of_N (draws calls mod 100) <=? chance).
    + destruct (sample _ _); [|done]. bind_ok. intros [= _ <-]. lia.
    + intros [= _ <-]. lia.
Qed.

(** A rule looks at the generator only through the calls it makes. *)
Lemma body_local (nameChunks : list (list string)) (draws draws' : generator)
    (name : string) (calls : nat) (rule : NameRule) :
  (∀ k, (calls ≤ k < calls + drawsOf draws calls rule)%nat → draws k = draws' k) →
  body nameChunks draws (name, calls) rule = body nameChunks draws' (name, calls) rule.
Proof.
  destruct rule as [index|str|index chance|index str chance];
    cbn [body drawsOf]; unfold passes; intros Hsame.
  - by rewrite (Hsame calls) by lia.
  - done.
  - assert (draws calls = draws' calls) as <-.
    { apply Hsame. destruct (_ <=? _); lia. }
    destruct (Z.of_N (draws calls mod 100) <=? chance); [|done].
    by rewrite (Hsame (S calls)) by lia.
  - assert (draws calls = draws' calls) as <-.
    { apply Hsame. destruct (_ <=? _); lia. }
    destruct (Z.of_N (draws calls mod 100) <=? chance); [|done].
    by rewrite (Hsame (S calls)) by lia.
Qed.

(** X19. A name depends on the generator only through the calls its rules
    make: two generators that return the same values for these calls (and
    anything before or after them) give the same name, the same final state
    of the generator, or the same error. *)
Theorem applyRules_local (nameChunks : list (list string))
    (draws draws' : generator) (rules : list NameRule) :
  ∀ (name : string) (calls : nat),
    (∀ k, (calls ≤ k < calls + drawsOfRules draws calls rules)%nat →
          draws k = draws' k) →
    applyRules nameChunks draws (name, calls) rules =
    applyRules nameChunks draws' (name, calls) rules.
Proof.
  induction rules as [|rule rules IH]; intros name calls Hsame; [done|].
  rewrite !NameGenFacts.applyRules_cons. cbn [drawsOfRules] in Hsame.
  rewrite <- (body_local nameChunks draws draws') by (intros k Hk; apply Hsame; lia).
  destruct (body nameChunks draws (name, calls) rule) as [[name1 calls1]|] eqn:Hbody;
    [|done].
  bind_ok. apply body_calls in Hbody as ->.
  apply IH. intros k Hk. apply Hsame. lia.
Qed.

Lemma applyRules_local_witness :
  applyRules one_each (λ k, if (k <? 5)%nat then 75%N else 1%N) ("", 0%nat)
    [Index 6; Index 7; Index 8; IndexChance 9 75]
  = applyRules one_each (λ _, 75%N) ("", 0%nat)
      [Index 6; Index 7; Index 8; IndexChance 9 75].
Proof.
  apply (applyRules_local one_each (λ k, if (k <? 5)%nat then 75%N else 1%N)
           (λ _, 75%N) [Index 6; Index 7; Index 8; IndexChance 9 75] "" 0%nat).
  intros k Hk.
  assert (drawsOfRules (λ k, if (k <? 5)%nat then 75%N else 1%N) 0
            [Index 6; Index 7; Index 8; IndexChance 9 75] = 5%nat) as Hdraws
    by reflexivity.
  rewrite Hdraws in Hk.
  destruct (Nat.ltb_spec k 5); [done|lia].
Defined.

Lemma references_le_draws (draws : generator) (rules : list NameRule) :
  ∀ calls, (references rules ≤ drawsOfRules draws calls rules)%nat.
Proof.
  induction rules as [|rule rules IH]; intros calls; [done|].
  unfold references in *. simpl.
  specialize (IH (calls + drawsOf draws calls rule)%nat).
  destruct rule; simpl in *; try destruct (passes _ _ _); lia.
Qed.

Lemma table_counts :
  Forall (λ rules, (3 ≤ references rules ∧ drawsClaimed rules ≤ 6)%nat) NameRules.
Proof. repeat constructor; vm_compute; lia. Qed.

(** X20. With a chunk table that serves the rule table, [generateNpcName]
    returns a name for each of the 24 races and both genders, after at least
    three and at most six calls of the generator. *)
Theorem generateNpcName_calls (nameChunks : list (list string))
    (raceID : Z) (isMale : bool) (draws : generator) (calls : nat) :
  0 ≤ raceID < 24 →
  Forall (Forall (served nameChunks)) NameRules →
  ∃ name calls',
    generateNpcName nameChunks raceID isMale draws calls = Ok (name, calls') ∧
    (calls + 3 ≤ calls' ≤ calls + 6)%nat.
Proof.
  intros Hrace Hserved.
  destruct (NameGenFacts.generateNpcName_draws nameChunks raceID isMale draws
              calls Hrace Hserved) as (rules & name & Hrules & ->).
  exists name. eexists. split; [done|].
  assert (3 ≤ references rules ∧ drawsClaimed rules ≤ 6)%nat as [Hlow Hhigh].
  { unfold vector_at in Hrules. destruct (_ <? 0); [done|].
    destruct (NameRules !! _) as [rules'|] eqn:Hlookup; [|done].
    injection Hrules as ->.
    exact (Forall_lookup_1 _ _ _ _ table_counts Hlookup). }
  pose proof (references_le_draws draws rules calls).
  pose proof (NameGenFacts.drawsOfRules_le_claimed draws rules calls).
  lia.
Qed.

Lemma generateNpcName_calls_witness :
  ∃ name calls',
    generateNpcName one_each 1 false (λ _, 80%N) 0 = Ok (name, calls') ∧
    (0 + 3 ≤ calls' ≤ 0 + 6)%nat.
Proof.
  apply (generateNpcName_calls one_each 1 false (λ _, 80%N) 0 ltac:(lia)).
  apply NameGenFacts.one_each_serves_table.
Defined.

End NameGenMoreFacts.

(** ** Panels and sub-panels *)

Module PanelsFacts.
Import Panels PanelsSpec TemplateLookup.

Ltac bind_ok := change (Ok ?a ≫= ?k) with (k a); cbv beta iota.

Section WithPanel.

Context {Panel : Type}.

Lemma popSubPanel_inv (game game' : Game Panel) :
  popSubPanel game = Ok game' →
  requestedSubPanelPop game = false ∧ subPanels game ≠ [] ∧
  game' = {| panel := panel game; subPanels := subPanels game;
             nextPanel := nextPanel game; nextSubPanel := nextSubPanel game;
             requestedSubPanelPop := true |}.
Proof.
  unfold popSubPanel, DebugAssert.
  destruct (requestedSubPanelPop game); [done|]. cbn [negb]. bind_ok.
  destruct (subPanels game) as [|sub subs] eqn:Hsubs; [done|].
  change (0 <? Z.of_nat (length (sub :: subs))) with true. bind_ok.
  by intros [= <-].
Qed.

Lemma pop_back_last_panel (subs : list Panel) (top : Panel) (e : exn) :
  match subs ++ [top] with
  | [] => Throw e
  | _ => Ok (removelast (subs ++ [top]))
  end = Ok subs.
Proof.
  rewrite removelast_last. by destruct subs.
Qed.

Lemma serve_sound (game game' : Game Panel) (r : request Panel) :
  sound game → serve game r = Ok game' → sound game'.
Proof.
  unfold sound. intros Hsound. destruct r as [next|next| |]; cbn [serve].
  - by intros [= <-].
  - by intros [= <-].
  - intros (_ & Hsubs & ->)%popSubPanel_inv. done.
  - unfold handlePanelChanges.
    destruct (match _ with true => _ | false => _ end) as [subs|]; [|done].
    bind_ok. by intros [= <-].
Qed.

Lemma serve_fault (game : Game Panel) (r : request Panel) (e : exn) :
  sound game → serve game r = Throw e → ∃ msg, e = RuntimeError msg.
Proof.
  unfold sound. intros Hsound. destruct r as [next|next| |]; cbn [serve]; try done.
  - unfold popSubPanel, DebugAssert.
    destruct (negb (requestedSubPanelPop game)); [|intros [= <-]; by eexists].
    bind_ok.
    destruct (0 <? Z.of_nat (length (subPanels game)));
      [done|intros [= <-]; by eexists].
  - unfold handlePanelChanges.
    destruct (requestedSubPanelPop game); [|done].
    destruct (subPanels game); [|done]. by destruct Hsound.
Qed.

Lemma serve_all_fault (requests : list (request Panel)) :
  ∀ (game : Game Panel) (e : exn),
    sound game → serve_all game requests = Throw e → ∃ msg, e = RuntimeError msg.
Proof.
  induction requests as [|r requests IH]; intros game e Hsound; [done|].
  cbn [serve_all]. destruct (serve game r) as [game1|e1] eqn:Hserve.
  - bind_ok. apply IH. by eapply serve_sound.
  - intros [= <-]. by eapply serve_fault.
Qed.

(** X21. From the state the constructor leaves, no sequence of panel
    requests ([setPanel], [pushSubPanel], [popSubPanel]) and of
    [handlePanelChanges] pops an empty sub-panel stack: the only way such a
    sequence fails is one of the two assertions of [popSubPanel]. *)
Theorem panels_never_pop_empty (defaultPanel : option Panel)
    (requests : list (request Panel)) (e : exn) :
  serve_all (constructed defaultPanel) requests = Throw e →
  ∃ msg, e = RuntimeError msg.
Proof. apply serve_all_fault. by intros [=]. Qed.

(** X22. [handlePanelChanges] settles every request: afterwards nothing is
    pending, and a second call leaves the game as it is. *)
Theorem handlePanelChanges_settles (game game' : Game Panel) :
  handlePanelChanges game = Ok game' →
  settled game' ∧ handlePanelChanges game' = Ok game'.
Proof.
  unfold handlePanelChanges.
  destruct (match _ with true => _ | false => _ end) as [subs|]; [|done].
  bind_ok. intros [= <-]. by repeat split.
Qed.

(** X23. A sub-panel that asks for its own pop and for a new sub-panel in the
    same frame is replaced: the stack keeps its height and the new sub-panel
    is the active panel, in whichever order the two requests were made. *)
Theorem replace_top_sub_panel (game : Game Panel) (subs : list Panel)
    (top next : Panel) :
  subPanels game = subs ++ [top] →
  requestedSubPanelPop game = false →
  ∃ game',
    serve_all game [PopSubPanel; PushSubPanel (Some next); HandlePanelChanges]
      = Ok game' ∧
    serve_all game [PushSubPanel (Some next); PopSubPanel; HandlePanelChanges]
      = Ok game' ∧
    subPanels game' = subs ++ [next] ∧
    activePanel game' = Some next.
Proof.
  intros Hsubs Hflag. destruct game as [p subPanels0 np nsp flag].
  cbn [subPanels requestedSubPanelPop] in *. subst subPanels0 flag.
  assert (Hlen : (0 <? Z.of_nat (length (subs ++ [top]))) = true).
  { apply Z.ltb_lt. rewrite length_app. simpl. lia. }
  eexists. split; [|split; [|split]].
  - unfold serve_all, serve, popSubPanel, pushSubPanel, handlePanelChanges,
      DebugAssert.
    simpl. rewrite Hlen. simpl. rewrite pop_back_last_panel. simpl. reflexivity.
  - unfold serve_all, serve, popSubPanel, pushSubPanel, handlePanelChanges,
      DebugAssert.
    simpl. rewrite Hlen. simpl. rewrite pop_back_last_panel. simpl. reflexivity.
  - reflexivity.
  - unfold activePanel. cbn [subPanels]. by rewrite last_snoc.
Qed.

End WithPanel.

Lemma panels_never_pop_empty_witness :
  ∃ msg, RuntimeError "Already scheduled to pop this sub-panel." = RuntimeError msg.
Proof.
  apply (panels_never_pop_empty (Panel := nat) (Some 0%nat)
           [PushSubPanel (Some 1%nat); HandlePanelChanges; PopSubPanel; PopSubPanel]).
  reflexivity.
Defined.

Lemma handlePanelChanges_settles_witness :
  settled (mkGame (Some 2%nat) [5%nat] None None false) ∧
  handlePanelChanges (mkGame (Some 2%nat) [5%nat] None None false)
    = Ok (mkGame (Some 2%nat) [5%nat] None None false).
Proof.
  apply (handlePanelChanges_settles
           (mkGame (Some 0%nat) [4%nat] (Some 2%nat) (Some 5%nat) true)).
  reflexivity.
Defined.

Lemma replace_top_sub_panel_witness :
  ∃ game',
    serve_all (mkGame (Some 0%nat) [1%nat; 2%nat] None None false)
      [PopSubPanel; PushSubPanel (Some 3%nat); HandlePanelChanges] = Ok game' ∧
    serve_all (mkGame (Some 0%nat) [1%nat; 2%nat] None None false)
      [PushSubPanel (Some 3%nat); PopSubPanel; HandlePanelChanges] = Ok game' ∧
    subPanels game' = [1%nat] ++ [3%nat] ∧
    activePanel game' = Some 3%nat.
Proof.
  apply (replace_top_sub_panel
           (mkGame (Some 0%nat) [1%nat; 2%nat] None None false) [1%nat] 2%nat 3%nat);
    reflexivity.
Defined.

End PanelsFacts.

(** ** The name of the player *)

Module ChooseNameFacts.
Import ChooseName.

Lemma chars_app (s t : string) :
  list_ascii_of_string (s +:+ t) = list_ascii_of_string s ++ list_ascii_of_string t.
Proof.
  induction s as [|ch s IH]; [done|].
  rewrite StrFacts.app_String. cbn [list_ascii_of_string]. by rewrite IH.
Qed.

Lemma length_append (s t : string) :
  String.length (s +:+ t) = (String.length s + String.length t)%nat.
Proof.
  induction s as [|ch s IH]; [done|].
  rewrite StrFacts.app_String. cbn [String.length]. by rewrite IH.
Qed.

Lemma pop_back_chars (P : ascii → Prop) (s : string) :
  Forall P (list_ascii_of_string s) →
  Forall P (list_ascii_of_string (Str.pop_back s)).
Proof.
  induction s as [|ch s IH]; [done|]. intros [Hch Hs]%Forall_cons.
  destruct s as [|ch' s]; [constructor|].
  change (Str.pop_back (String ch (String ch' s)))
    with (String ch (Str.pop_back (String ch' s))).
  cbn [list_ascii_of_string]. constructor; [done|]. by apply IH.
Qed.

Lemma pop_back_append_char (s : string) (ch : ascii) :
  Str.pop_back (s +:+ String ch "") = s.
Proof.
  induction s as [|a s IH]; [done|].
  rewrite StrFacts.app_String.
  destruct (s +:+ String ch "") as [|a' rest] eqn:Heq.
  - by destruct s.
  - change (Str.pop_back (String a (String a' rest)))
      with (String a (Str.pop_back (String a' rest))).
    by rewrite IH.
Qed.

Lemma size_lt_max (name : string) :
  (Z.of_N (Str.size name) <? MAX_NAME_LENGTH) = true ↔ (String.length name < 25)%nat.
Proof. unfold Str.size, MAX_NAME_LENGTH. rewrite Z.ltb_lt. lia. Qed.

(** An event keeps the name valid. *)
Lemma textChanged_valid (name : string) (e : Event) :
  valid name → valid (textChanged name e).1.
Proof.
  intros [Hlen Hchars]. unfold textChanged.
  destruct (backspacePressed e && (0 <? Str.size name)%N).
  - cbn [fst]. split; [|by apply pop_back_chars].
    rewrite BackFacts.length_pop_back. lia.
  - destruct (letterReceived e); cbn [andb]; [|done].
    destruct (Z.of_N (Str.size name) <? MAX_NAME_LENGTH) eqn:Hroom; [|done].
    apply size_lt_max in Hroom.
    destruct (charIsAllowed (letter e)) eqn:Hallowed; [|done].
    cbn [fst]. split.
    + rewrite length_append. simpl. lia.
    + rewrite chars_app. apply Forall_app. split; [done|]. by constructor.
Qed.

Lemma handleEvent_valid (name : string) (e : Event) :
  valid name →
  valid (handleEvent name e).1.1 ∧
  ∀ n, (handleEvent name e).1.2 = Some (Accept n) →
       n = (handleEvent name e).1.1 ∧ n ≠ "".
Proof.
  intros Hvalid. unfold handleEvent.
  destruct (escapePressed e); [by split|].
  destruct (enterPressed e); cbn [andb].
  - destruct (0 <? Str.size name)%N eqn:Hsize.
    + split; [done|]. cbn [fst snd]. intros n [= <-]. split; [done|].
      intros ->. done.
    + pose proof (textChanged_valid name e Hvalid) as Hv.
      destruct (textChanged name e) as [name' changed]. by split.
  - pose proof (textChanged_valid name e Hvalid) as Hv.
    destruct (textChanged name e) as [name' changed]. by split.
Qed.

Lemma handleEvents_valid (events : list Event) :
  ∀ name, valid name →
    valid (handleEvents name events).1 ∧
    ∀ n, (handleEvents name events).2 = Some (Accept n) →
         n = (handleEvents name events).1 ∧ n ≠ "".
Proof.
  induction events as [|e events IH]; intros name Hvalid; [by split|].
  cbn [handleEvents].
  destruct (handleEvent_valid name e Hvalid) as [Hv Haccept].
  destruct (handleEvent name e) as [[name' [click|]] changed]; cbn [fst snd] in *.
  - by split.
  - by apply IH.
Qed.

(** X24. Whatever the player types, the name of the panel has at most 25
    characters, all of them letters or spaces; and a name that is accepted
    (handed to the gender panel) is the name on the panel and is not
    empty. *)
Theorem name_stays_valid (events : list Event) (name : string)
    (click : option Click) :
  handleEvents "" events = (name, click) →
  valid name ∧ ∀ n, click = Some (Accept n) → n = name ∧ n ≠ "".
Proof.
  intros Hrun.
  assert (valid "") as Hempty by (split; [simpl; lia|constructor]).
  destruct (handleEvents_valid events "" Hempty) as [Hv Haccept].
  rewrite Hrun in *. by split.
Qed.

Lemma name_stays_valid_witness :
  valid "Al" ∧ ∀ n, Some (Accept "Al") = Some (Accept n) → n = "Al" ∧ n ≠ "".
Proof.
  apply (name_stays_valid
           [mkEvent false true false false "x";
            mkEvent false false false true "A";
            mkEvent false false false true "7";
            mkEvent false false false true "l";
            mkEvent false false false true "x";
            mkEvent false false true false "x";
            mkEvent false true false false "x"]).
  reflexivity.
Defined.

Lemma letter_event (name : string) (c : ascii) :
  (String.length name < 25)%nat → charIsAllowed c = true →
  handleEvent name (mkEvent false false false true c)
  = (name +:+ String c "", None, true).
Proof.
  intros Hroom Hallowed. unfold handleEvent, textChanged.
  cbn [escapePressed enterPressed backspacePressed letterReceived letter andb].
  by rewrite (proj2 (size_lt_max name) Hroom), Hallowed.
Qed.

Lemma backspace_event (name : string) (l : ascii) (received : bool) :
  name ≠ "" →
  handleEvent name (mkEvent false false true received l)
  = (Str.pop_back name, None, true).
Proof.
  intros Hne. unfold handleEvent, textChanged.
  cbn [escapePressed enterPressed backspacePressed andb].
  destruct name as [|ch name]; [done|].
  assert ((0 <? Str.size (String ch name))%N = true) as ->; [|done].
  apply N.ltb_lt. unfold Str.size. simpl String.length. lia.
Qed.

(** X25. A letter that was typed is erased by the next backspace: after
    an allowed letter on a name with room for it, a backspace gives the name
    back. *)
Theorem type_then_erase (name : string) (c l : ascii) (received : bool) :
  (String.length name < 25)%nat →
  charIsAllowed c = true →
  handleEvents name [mkEvent false false false true c;
                     mkEvent false false true received l]
  = (name, None).
Proof.
  intros Hroom Hallowed. cbn [handleEvents].
  rewrite letter_event by done.
  rewrite backspace_event by (by destruct name).
  by rewrite pop_back_append_char.
Qed.

Lemma type_then_erase_witness :
  handleEvents "Al" [mkEvent false false false true "i";
                     mkEvent false false true true "z"]
  = ("Al", None).
Proof.
  apply (type_then_erase "Al" "i" "z" true); [simpl; lia|reflexivity].
Defined.

(** A name of 25 characters takes no further letter. *)
Lemma full_name_ignores_letters (name : string) (c : ascii) :
  String.length name = 25%nat →
  handleEvent name (mkEvent false false false true c) = (name, None, false).
Proof.
  intros Hfull. unfold handleEvent, textChanged.
  cbn [escapePressed enterPressed backspacePressed letterReceived andb].
  destruct (Z.of_N (Str.size name) <? MAX_NAME_LENGTH) eqn:Hroom; [|done].
  apply size_lt_max in Hroom. lia.
Qed.

End ChooseNameFacts.

(** ** The path of a screenshot *)

Module ScreenshotFacts.
Import Screenshot.

Lemma getNextAvailablePath_ok (screenshotFolder : string) (i : Z) :
  i < 2 ^ 31 - 1 →
  getNextAvailablePath screenshotFolder i = Ok (path_of screenshotFolder i, i + 1).
Proof.
  intros Hi. unfold getNextAvailablePath, path_of.
  by destruct (Z.ltb_spec i (2 ^ 31 - 1)); [|lia].
Qed.

Lemma search_first_free (exists_ : string → bool) (screenshotFolder : string)
    (k : Z) (fuel : nat) :
  ∀ i,
    i + Z.of_nat fuel = k → k < 2 ^ 31 - 1 →
    (∀ j, i ≤ j < k → exists_ (path_of screenshotFolder j) = true) →
    exists_ (path_of screenshotFolder k) = false →
    search fuel exists_ screenshotFolder (path_of screenshotFolder i) (i + 1)
      = Found (path_of screenshotFolder k).
Proof.
  induction fuel as [|fuel IH]; intros i Hk Hmax Hused Hfree.
  - replace i with k by lia. cbn [search]. by rewrite Hfree.
  - cbn [search]. rewrite Hused by lia.
    rewrite getNextAvailablePath_ok by lia.
    apply IH; [lia|done| |done]. intros j Hj. apply Hused. lia.
Qed.

(** X26. The screenshot is saved under the first free number: when the
    files numbered [0] to [k - 1] exist and number [k] does not, the path is
    that of number [k], found after [k] further tries. *)
Theorem screenshotPath_first_free (exists_ : string → bool)
    (screenshotFolder : string) (k : Z) :
  0 ≤ k < 2 ^ 31 - 1 →
  (∀ j, 0 ≤ j < k → exists_ (path_of screenshotFolder j) = true) →
  exists_ (path_of screenshotFolder k) = false →
  screenshotPath (Z.to_nat k) exists_ screenshotFolder
    = Found (path_of screenshotFolder k).
Proof.
  intros Hk Hused Hfree. unfold screenshotPath.
  rewrite getNextAvailablePath_ok by lia.
  apply (search_first_free exists_ screenshotFolder k); [lia|lia|done|done].
Qed.

Lemma screenshotPath_first_free_witness :
  screenshotPath 2
    (λ path, String.eqb path "shots/screenshot000.bmp"
             || String.eqb path "shots/screenshot001.bmp") "shots/"
  = Found "shots/screenshot002.bmp".
Proof.
  apply (screenshotPath_first_free
           (λ path, String.eqb path "shots/screenshot000.bmp"
                    || String.eqb path "shots/screenshot001.bmp") "shots/" 2).
  - lia.
  - intros j Hj. assert (j = 0 ∨ j = 1) as [-> | ->] by lia; reflexivity.
  - reflexivity.
Defined.

(** Numbers of more than three digits are written out in full. *)
Lemma setw3_examples :
  setw3 7 = "007" ∧ setw3 42 = "042" ∧ setw3 999 = "999" ∧ setw3 1000 = "1000".
Proof. repeat split. Qed.

End ScreenshotFacts.

(** ** TAMRIEL.MNU *)

Module WorldMapMasksFacts.
Import WorldMapMasks.

Ltac bind_ok := change (Ok ?a ≫= ?k) with (k a); cbv beta iota.

Lemma copy_range_ok (srcData : list Byte.byte) (start count : Z) :
  0 ≤ start → 0 ≤ count → start + count ≤ Z.of_nat (length srcData) →
  copy_range srcData start count
    = Ok (take (Z.to_nat count) (drop (Z.to_nat start) srcData)).
Proof.
  intros Hstart Hcount Hend. unfold copy_range.
  destruct (Z.leb_spec 0 start), (Z.leb_spec 0 count),
    (Z.leb_spec (start + count) (Z.of_nat (length srcData))); try lia. done.
Qed.

Lemma copy_range_short (srcData : list Byte.byte) (start count : Z) :
  Z.of_nat (length srcData) < start + count →
  copy_range srcData start count = Throw (Undefined "iterator outside the vector").
Proof.
  intros Hend. unfold copy_range.
  destruct (Z.leb_spec (start + count) (Z.of_nat (length srcData))); [lia|].
  by rewrite andb_false_r.
Qed.

Lemma int_ok_in_range (value : Z) :
  - 2 ^ 31 ≤ value < 2 ^ 31 → int_ok value = Ok value.
Proof.
  intros Hv. unfold int_ok.
  by destruct (Z.leb_spec (- 2 ^ 31) value), (Z.ltb_spec value (2 ^ 31)); try lia.
Qed.

Lemma total_bytes_nonneg `{MaskWidth} (rects : list Rect) :
  Forall (λ rect, 0 ≤ byteCount rect) rects → 0 ≤ total_bytes rects.
Proof.
  induction 1 as [|rect rects Hrect _ IH]; simpl; [done|].
  unfold total_bytes in *. simpl. lia.
Qed.

Lemma mask_loop_ok `{MaskWidth} (srcData : list Byte.byte) (rects : list Rect) :
  Forall (λ rect, 0 ≤ byteCount rect) rects →
  ∀ offset,
    0 ≤ offset → offset + total_bytes rects < 2 ^ 31 →
    startOffset + offset + total_bytes rects ≤ Z.of_nat (length srcData) →
    ∃ masks,
      mask_loop srcData rects offset = Ok masks ∧
      map snd masks = rects ∧
      Forall (λ mask : list Byte.byte * Rect,
                Z.of_nat (length mask.1) = byteCount mask.2) masks ∧
      concat (map fst masks)
        = take (Z.to_nat (total_bytes rects))
            (drop (Z.to_nat (startOffset + offset)) srcData).
Proof.
  induction 1 as [|rect rects Hrect Hrects IH]; intros offset Hoffset Hint Hend.
  - exists []. by repeat split.
  - pose proof (total_bytes_nonneg rects Hrects) as Htotal.
    change (total_bytes (rect :: rects)) with (byteCount rect + total_bytes rects) in *.
    assert (0 ≤ startOffset) as Hstart by done.
    destruct (IH (offset + byteCount rect)) as (masks & Hloop & Hrs & Hlens & Hdata);
      [lia|lia|lia|].
    cbn [mask_loop]. rewrite int_ok_in_range by lia. bind_ok.
    rewrite copy_range_ok by lia. bind_ok.
    rewrite int_ok_in_range by lia. bind_ok.
    rewrite Hloop. bind_ok.
    eexists. split; [done|]. cbn [map fst snd concat]. split; [by rewrite Hrs|]. split.
    + constructor; [|done]. cbn [fst snd].
      rewrite length_take, length_drop. lia.
    + rewrite Hdata.
      replace (Z.to_nat (startOffset + (offset + byteCount rect)))
        with (Z.to_nat (startOffset + offset) + Z.to_nat (byteCount rect))%nat by lia.
      rewrite <- drop_drop, take_take_drop. f_equal. lia.
Qed.

Lemma mask_loop_short `{MaskWidth} (srcData : list Byte.byte) (rects : list Rect) :
  Forall (λ rect, 0 ≤ byteCount rect) rects →
  ∀ offset,
    rects ≠ [] → 0 ≤ offset → offset + total_bytes rects < 2 ^ 31 →
    Z.of_nat (length srcData) < startOffset + offset + total_bytes rects →
    mask_loop srcData rects offset = Throw (Undefined "iterator outside the vector").
Proof.
  induction 1 as [|rect rects Hrect Hrects IH];
    intros offset Hne Hoffset Hint Hend; [done|].
  pose proof (total_bytes_nonneg rects Hrects) as Htotal.
  change (total_bytes (rect :: rects)) with (byteCount rect + total_bytes rects) in *.
  cbn [mask_loop]. rewrite int_ok_in_range by lia. bind_ok.
  destruct (Z.le_gt_cases (startOffset + offset + byteCount rect)
              (Z.of_nat (length srcData))) as [Hfits|Hshort].
  - assert (0 ≤ startOffset) by done.
    rewrite copy_range_ok by lia. bind_ok.
    rewrite int_ok_in_range by lia. bind_ok.
    rewrite IH; [done| |lia|lia|lia].
    intros ->. unfold total_bytes in Hend. simpl in Hend. lia.
  - by rewrite copy_range_short by lia.
Qed.

(** X27. The ten masks of TAMRIEL.MNU are consecutive slices of the file
    from offset [0x87D5], in the order of the rect table: when the file
    holds all their bytes, each mask has the bytes of its rect and the masks
    together are that part of the file; when it holds fewer, the read runs
    off the file. (For byte counts that are not negative and whose sum is
    an [int].) *)
Theorem parseWorldMapMasks_slices `{MaskWidth} (srcData : list Byte.byte) :
  Forall (λ rect, 0 ≤ byteCount rect) MaskRects →
  total_bytes MaskRects < 2 ^ 31 →
  (startOffset + total_bytes MaskRects ≤ Z.of_nat (length srcData) →
   ∃ masks,
     parseWorldMapMasks srcData = Ok masks ∧
     map snd masks = MaskRects ∧
     Forall (λ mask : list Byte.byte * Rect,
               Z.of_nat (length mask.1) = byteCount mask.2) masks ∧
     concat (map fst masks)
       = take (Z.to_nat (total_bytes MaskRects))
           (drop (Z.to_nat startOffset) srcData)) ∧
  (Z.of_nat (length srcData) < startOffset + total_bytes MaskRects →
   parseWorldMapMasks srcData = Throw (Undefined "iterator outside the vector")).
Proof.
  intros Hcounts Hint. unfold parseWorldMapMasks. split.
  - intros Hfits.
    destruct (mask_loop_ok srcData MaskRects Hcounts 0) as (masks & Hm);
      [lia|lia|lia|].
    exists masks. by rewrite Z.add_0_r in Hm.
  - intros Hshort. apply mask_loop_short; [done|done|lia|lia|lia].
Qed.

Lemma parseWorldMapMasks_slices_witness :
  parseWorldMapMasks (H := bytes_per_row) (replicate (Z.to_nat 41328) Byte.x00)
    = Throw (Undefined "iterator outside the vector").
Proof.
  apply (proj2 (parseWorldMapMasks_slices (H := bytes_per_row)
                  (replicate (Z.to_nat 41328) Byte.x00)
                  ltac:(repeat constructor; vm_compute; discriminate)
                  ltac:(vm_compute; reflexivity))).
  rewrite length_replicate. vm_compute. reflexivity.
Defined.

(** With rows of whole bytes the masks take 6556 bytes, so that the file
    has at least 41329 bytes. *)
Lemma masks_size :
  total_bytes (H := bytes_per_row) MaskRects = 6556 ∧
  startOffset + total_bytes (H := bytes_per_row) MaskRects = 41329.
Proof. split; reflexivity. Qed.

End WorldMapMasksFacts.
